(** * ReSolve direct solvers: sparse format conversion and solver lifecycle

    A shallow embedding of
      - [resolve/LinSolverDirectCuSolverRf.cpp]
      - [resolve/LinSolverDirectKLU.cpp]
      - [resolve/LinSolverDirectRocSparseILU0.cpp]
    Arrays are lists, [index_type] is a 32-bit [int] carried by [Z],
    [real_type] is an IEEE value, and every access outside an array is an
    explicit [Undefined] outcome. *)

From Stdlib Require Import ZArith Lia List Permutation.
From Stdlib Require Import Floats.SpecFloat.
From stdpp Require Import base numbers option list sorting gmap strings.

Local Open Scope Z_scope.

(** ** Outcomes of a C++ call *)

Inductive result (A : Type) : Type :=
| Done (a : A)      (* the call returned *)
| Abort             (* an [assert] failed: the process is terminated *)
| Undefined.        (* access outside an array or through a null pointer *)
Arguments Done {A} a.
Arguments Abort {A}.
Arguments Undefined {A}.

#[global] Instance result_ret : MRet result := @Done.
#[global] Instance result_bind : MBind result := λ A B f m,
  match m with
  | Done a => f a
  | Abort => Abort
  | Undefined => Undefined
  end.

Definition assert_that (b : bool) : result unit :=
  if b then Done tt else Abort.

(** ** Scalars *)

Abbreviation index_type := Z.
Abbreviation real_type := spec_float.

Definition INT_MAX : Z := 2 ^ 31 - 1.

(** Two's-complement [int] arithmetic. *)
Definition int_wrap (z : Z) : Z := (z + 2 ^ 31) mod 2 ^ 32 - 2 ^ 31.
Definition int_add (a b : Z) : Z := int_wrap (a + b).
Definition int_sub (a b : Z) : Z := int_wrap (a - b).
Definition int_mul (a b : Z) : Z := int_wrap (a * b).

(** [a / b] and [a % b]: truncating; undefined for a zero divisor and for
    the one quotient that does not fit. *)
Definition int_div (a b : Z) : result Z :=
  if decide (b = 0 ∨ (a = - 2 ^ 31 ∧ b = -1)) then Undefined
  else Done (Z.quot a b).
Definition int_rem (a b : Z) : result Z :=
  if decide (b = 0 ∨ (a = - 2 ^ 31 ∧ b = -1)) then Undefined
  else Done (Z.rem a b).

(** [0.0] and [std::numeric_limits<real_type>::quiet_NaN()]. *)
Definition real_zero : real_type := S754_zero false.
Definition quiet_NaN : real_type := S754_nan.

(** ** Raw arrays *)

(** [a[i]] as an rvalue. *)
Definition rd {A} (a : list A) (i : Z) : result A :=
  if decide (0 ≤ i)
  then match a !! Z.to_nat i with
       | Some x => Done x
       | None => Undefined
       end
  else Undefined.

(** [a[i] = x]. *)
Definition wr {A} (a : list A) (i : Z) (x : A) : result (list A) :=
  if decide (0 ≤ i < Z.of_nat (length a))
  then Done (<[Z.to_nat i := x]> a)
  else Undefined.

(** [for (i = lo; i < hi; ++i) body]. *)
Fixpoint for_loop {S} (k : nat) (i : Z) (body : Z → S → result S) (s : S)
  : result S :=
  match k with
  | O => Done s
  | S k' => s' ← body i s; for_loop k' (i + 1) body s'
  end.

Definition for_range {S} (lo hi : Z) (body : Z → S → result S) (s : S)
  : result S :=
  for_loop (Z.to_nat (hi - lo)) lo body s.

(** ** Sparse matrices *)

Module memory.
Inductive MemorySpace := HOST | DEVICE.
End memory.

Inductive SparseFormat :=
| NONE | TRIPLET | COMPRESSED_SPARSE_ROW | COMPRESSED_SPARSE_COLUMN.

#[global] Instance SparseFormat_eq_dec : EqDecision SparseFormat.
Proof. solve_decision. Defined.

(** Modelled from the spec: the container [matrix::Sparse] (its sources
    [Sparse.cpp], [Csr.cpp], [Csc.cpp] are not part of the embedded files).
    Row/column counts, nnz, a format tag, three parallel arrays in each
    memory space and a freshest-copy flag per space.  For CSR the row data
    is the pointer array and the column data the index array; for CSC the
    column data is the pointer array and the row data the index array. *)
Record Sparse := mkSparse {
  sparse_format : SparseFormat;
  n_ : index_type;                 (* rows *)
  m_ : index_type;                 (* columns *)
  nnz_ : index_type;
  h_row_data_ : list index_type;
  h_col_data_ : list index_type;
  h_val_data_ : list real_type;
  d_row_data_ : list index_type;
  d_col_data_ : list index_type;
  d_val_data_ : list real_type;
  h_data_updated_ : bool;
  d_data_updated_ : bool
}.

Definition getSparseFormat (A : Sparse) := sparse_format A.
Definition getNumRows (A : Sparse) := n_ A.
Definition getNumColumns (A : Sparse) := m_ A.
Definition getNnz (A : Sparse) := nnz_ A.

Definition getRowData (A : Sparse) (sp : memory.MemorySpace) :=
  match sp with memory.HOST => h_row_data_ A | memory.DEVICE => d_row_data_ A end.
Definition getColData (A : Sparse) (sp : memory.MemorySpace) :=
  match sp with memory.HOST => h_col_data_ A | memory.DEVICE => d_col_data_ A end.
Definition getValues (A : Sparse) (sp : memory.MemorySpace) :=
  match sp with memory.HOST => h_val_data_ A | memory.DEVICE => d_val_data_ A end.

(** Modelled from the spec: the constructor [matrix::Csr(n, m, nnz)], a
    matrix without data. *)
Definition new_Csr (n m nnz : index_type) : Sparse :=
  mkSparse COMPRESSED_SPARSE_ROW n m nnz [] [] [] [] [] [] false false.

(** Modelled from the spec: [allocateMatrixData(memory::HOST)] on a CSR
    matrix.  The destination arrays get their sizes (rows+1, nnz, nnz);
    their contents are unspecified ("allocated but uninitialized"): what
    the record held stands for that content, padded with zeros. *)
Definition allocateMatrixData_host (A : Sparse) : Sparse :=
  mkSparse (sparse_format A) (n_ A) (m_ A) (nnz_ A)
    (resize (Z.to_nat (n_ A + 1)) 0 (h_row_data_ A))
    (resize (Z.to_nat (nnz_ A)) 0 (h_col_data_ A))
    (resize (Z.to_nat (nnz_ A)) real_zero (h_val_data_ A))
    (d_row_data_ A) (d_col_data_ A) (d_val_data_ A)
    (h_data_updated_ A) (d_data_updated_ A).

(** Modelled from the spec: the constructor [matrix::Csc(n, m, nnz)], a
    matrix without data, and [allocateMatrixData(memory::HOST)] on a CSC
    matrix: the column pointers get columns+1 entries, the row indices and
    the values nnz. *)
Definition new_Csc (n m nnz : index_type) : Sparse :=
  mkSparse COMPRESSED_SPARSE_COLUMN n m nnz [] [] [] [] [] [] false false.

Definition allocateMatrixData_host_csc (A : Sparse) : Sparse :=
  mkSparse (sparse_format A) (n_ A) (m_ A) (nnz_ A)
    (resize (Z.to_nat (nnz_ A)) 0 (h_row_data_ A))
    (resize (Z.to_nat (m_ A + 1)) 0 (h_col_data_ A))
    (resize (Z.to_nat (nnz_ A)) real_zero (h_val_data_ A))
    (d_row_data_ A) (d_col_data_ A) (d_val_data_ A)
    (h_data_updated_ A) (d_data_updated_ A).

(** Modelled from the spec: [setUpdated(memory::HOST)] marks the host copy
    as the freshest one. *)
Definition setUpdated_host (A : Sparse) : Sparse :=
  mkSparse (sparse_format A) (n_ A) (m_ A) (nnz_ A)
    (h_row_data_ A) (h_col_data_ A) (h_val_data_ A)
    (d_row_data_ A) (d_col_data_ A) (d_val_data_ A)
    true false.

(** Modelled from the spec: [syncData(memory::DEVICE)] copies the host
    arrays to the device when the device copy is stale. *)
Definition syncData_device (A : Sparse) : Sparse :=
  if d_data_updated_ A then A
  else mkSparse (sparse_format A) (n_ A) (m_ A) (nnz_ A)
    (h_row_data_ A) (h_col_data_ A) (h_val_data_ A)
    (h_row_data_ A) (h_col_data_ A) (h_val_data_ A)
    (h_data_updated_ A) true.

(** ** [LinSolverDirectCuSolverRf::csc2csr] *)

Module Csc2Csr.

(** The three host arrays of the destination while the passes run. *)
Record csr_arrays := mkArrays {
  rowPtrCsr : list index_type;
  colIdxCsr : list index_type;
  valuesCsr : list real_type
}.

Definition set_rowPtr (s : csr_arrays) (rp : list index_type) :=
  mkArrays rp (colIdxCsr s) (valuesCsr s).

(** [for (i = 0; i <= n; ++i) rowPtrCsr[i] = 0;] *)
Definition zero_row_pointers (n : index_type) (s : csr_arrays)
  : result csr_arrays :=
  for_range 0 (n + 1)
    (λ i s, rp ← wr (rowPtrCsr s) i 0; Done (set_rowPtr s rp)) s.

(** [for (i = 0; i < nnz; ++i) { colIdxCsr[i] = 0; valuesCsr[i] = 0.0; }] *)
Definition zero_entries (nnz : index_type) (s : csr_arrays)
  : result csr_arrays :=
  for_range 0 nnz
    (λ i s,
       ci ← wr (colIdxCsr s) i 0;
       vs ← wr (valuesCsr s) i real_zero;
       Done (mkArrays (rowPtrCsr s) ci vs)) s.

(** [for (i = 0; i < nnz; ++i) rowPtrCsr[rowIdxCsc[i]]++;] *)
Definition count_entries (nnz : index_type) (rowIdxCsc : list index_type)
    (s : csr_arrays) : result csr_arrays :=
  for_range 0 nnz
    (λ i s,
       r ← rd rowIdxCsc i;
       c ← rd (rowPtrCsr s) r;
       rp ← wr (rowPtrCsr s) r (int_add c 1);
       Done (set_rowPtr s rp)) s.

(** The cumulative sum, with its second loop variable [rowsum], and the
    assignment [rowPtrCsr[n] = nnz] that follows it. *)
Definition cumulative_sum (n nnz : index_type) (s : csr_arrays)
  : result csr_arrays :=
  '(s, _) ← for_range 0 n
    (λ row (st : csr_arrays * index_type),
       let '(s, rowsum) := st in
       temp ← rd (rowPtrCsr s) row;
       rp ← wr (rowPtrCsr s) row rowsum;
       Done (set_rowPtr s rp, int_add rowsum temp)) (s, 0);
  rp ← wr (rowPtrCsr s) n nnz;
  Done (set_rowPtr s rp).

(** The body of the inner scatter loop, for the nonzero [jj] of column
    [col]. *)
Definition scatter_entry (rowIdxCsc : list index_type)
    (valuesCsc : list real_type) (col jj : index_type) (s : csr_arrays)
  : result csr_arrays :=
  row ← rd rowIdxCsc jj;
  dest ← rd (rowPtrCsr s) row;
  ci ← wr (colIdxCsr s) dest col;
  v ← rd valuesCsc jj;
  vs ← wr (valuesCsr s) dest v;
  cur ← rd (rowPtrCsr s) row;
  rp ← wr (rowPtrCsr s) row (int_add cur 1);
  Done (mkArrays rp ci vs).

(** [for (col = 0; col < n; ++col)
      for (jj = colPtrCsc[col]; jj < colPtrCsc[col + 1]; jj++) ...] *)
Definition scatter (n : index_type) (rowIdxCsc colPtrCsc : list index_type)
    (valuesCsc : list real_type) (s : csr_arrays) : result csr_arrays :=
  for_range 0 n
    (λ col s,
       lo ← rd colPtrCsc col;
       hi ← rd colPtrCsc (col + 1);
       for_range lo hi (scatter_entry rowIdxCsc valuesCsc col) s) s.

(** [for (row = 0, last = 0; row <= n; row++) { temp = rowPtrCsr[row];
      rowPtrCsr[row] = last; last = temp; }] *)
Definition restore_row_pointers (n : index_type) (s : csr_arrays)
  : result csr_arrays :=
  '(s, _) ← for_range 0 (n + 1)
    (λ row (st : csr_arrays * index_type),
       let '(s, last) := st in
       temp ← rd (rowPtrCsr s) row;
       rp ← wr (rowPtrCsr s) row last;
       Done (set_rowPtr s rp, temp)) (s, 0);
  Done s.

(** The passes of [csc2csr] on the raw arrays; [n] is what the source
    calls [n], the number of columns of the CSC matrix. *)
Definition convert (n nnz : index_type)
    (rowIdxCsc colPtrCsc : list index_type) (valuesCsc : list real_type)
    (s : csr_arrays) : result csr_arrays :=
  s ← zero_row_pointers n s;
  s ← zero_entries nnz s;
  s ← count_entries nnz rowIdxCsc s;
  s ← cumulative_sum n nnz s;
  s ← scatter n rowIdxCsc colPtrCsc valuesCsc s;
  restore_row_pointers n s.

(** [int csc2csr(matrix::Csc* A_csc, matrix::Csr* A_csr)]: the return
    code and the destination matrix after the call. *)
Definition csc2csr (A_csc A_csr : Sparse) : result (Z * Sparse) :=
  _ ← assert_that (bool_decide (getNnz A_csc = getNnz A_csr));
  _ ← assert_that (bool_decide (getNumRows A_csc = getNumRows A_csr));
  _ ← assert_that (bool_decide (getNumColumns A_csr = getNumColumns A_csc));
  let A_csr := allocateMatrixData_host A_csr in
  let nnz := getNnz A_csc in
  let n := getNumColumns A_csc in
  let rowIdxCsc := getRowData A_csc memory.HOST in
  let colPtrCsc := getColData A_csc memory.HOST in
  let valuesCsc := getValues A_csc memory.HOST in
  s ← convert n nnz rowIdxCsc colPtrCsc valuesCsc
        (mkArrays (getRowData A_csr memory.HOST)
                  (getColData A_csr memory.HOST)
                  (getValues A_csr memory.HOST));
  let A_csr :=
    mkSparse (sparse_format A_csr) (n_ A_csr) (m_ A_csr) (nnz_ A_csr)
      (rowPtrCsr s) (colIdxCsr s) (valuesCsr s)
      (d_row_data_ A_csr) (d_col_data_ A_csr) (d_val_data_ A_csr)
      (h_data_updated_ A_csr) (d_data_updated_ A_csr) in
  Done (0, setUpdated_host A_csr).

End Csc2Csr.


(** ** Facts about arrays and loops *)

Section ArrayFacts.
Context {A : Type}.
Implicit Types (a : list A) (i : Z) (x : A).

Lemma rd_Done a i x :
  0 ≤ i → a !! Z.to_nat i = Some x → rd a i = Done x.
Proof. intros Hi Hx. unfold rd. rewrite decide_True by done. by rewrite Hx. Qed.

Lemma wr_Done a i x :
  0 ≤ i < Z.of_nat (length a) → wr a i x = Done (<[Z.to_nat i := x]> a).
Proof. intros Hi. unfold wr. by rewrite decide_True. Qed.

Lemma wr_Undefined a i x :
  ¬ (0 ≤ i < Z.of_nat (length a)) → wr a i x = Undefined.
Proof. intros Hi. unfold wr. by rewrite decide_False. Qed.

(** A write outside the window [[p, p + k)] leaves the window alone. *)
Lemma take_drop_insert_out a (p k j : nat) x :
  (j < p ∨ p + k ≤ j)%nat →
  take k (drop p (<[j := x]> a)) = take k (drop p a).
Proof.
  intros [Hj | Hj].
  - by rewrite drop_insert_lt by lia.
  - rewrite drop_insert_ge by lia. apply take_insert_ge. lia.
Qed.

(** A write just behind the window extends it by the written value. *)
Lemma take_drop_insert_end a (p k : nat) x :
  (p + k < length a)%nat →
  take (S k) (drop p (<[(p + k)%nat := x]> a)) = take k (drop p a) ++ [x].
Proof.
  intros Hlen. rewrite drop_insert_ge by lia.
  replace (p + k - p)%nat with k by lia.
  erewrite take_S_r.
  - f_equal. apply take_insert_ge. lia.
  - apply list_lookup_insert_eq. rewrite length_drop. lia.
Qed.
End ArrayFacts.

Section LoopFacts.
Context {S : Type}.
Implicit Types (body : Z → S → result S) (s : S).

(** Total correctness of a counted loop from an invariant. *)
Lemma for_loop_inv (P : nat → S → Prop) k i body s :
  P 0%nat s →
  (∀ j s, (j < k)%nat → P j s →
          ∃ s', body (i + Z.of_nat j) s = Done s' ∧ P (Datatypes.S j) s') →
  ∃ s', for_loop k i body s = Done s' ∧ P k s'.
Proof.
  revert P i s. induction k as [|k IH]; intros P i s H0 Hstep.
  - exists s. done.
  - destruct (Hstep 0%nat s) as (s1 & Hb & H1); [lia | done |].
    rewrite Z.add_0_r in Hb. simpl. rewrite Hb. simpl.
    apply (IH (λ j, P (Datatypes.S j))); [done |].
    intros j s2 Hj Hs2. destruct (Hstep (Datatypes.S j) s2) as (s3 & Hb3 & H3);
      [lia | done |].
    exists s3. split; [| done]. rewrite <- Hb3. f_equal. lia.
Qed.

Lemma for_range_inv (P : Z → S → Prop) lo hi body s :
  lo ≤ hi →
  P lo s →
  (∀ j s, lo ≤ j < hi → P j s → ∃ s', body j s = Done s' ∧ P (j + 1) s') →
  ∃ s', for_range lo hi body s = Done s' ∧ P hi s'.
Proof.
  intros Hle H0 Hstep. unfold for_range.
  destruct (for_loop_inv (λ j, P (lo + Z.of_nat j)) (Z.to_nat (hi - lo)) lo body s)
    as (s' & Hrun & HP).
  - by rewrite Z.add_0_r.
  - intros j s1 Hj Hs1. destruct (Hstep (lo + Z.of_nat j) s1) as (s2 & Hb & H2);
      [lia | done |].
    exists s2. split; [done |].
    by replace (lo + Z.of_nat (Datatypes.S j)) with (lo + Z.of_nat j + 1) by lia.
  - exists s'. split; [done |].
    by replace (lo + Z.of_nat (Z.to_nat (hi - lo))) with hi in HP by lia.
Qed.
End LoopFacts.

Lemma int_wrap_id z : - 2 ^ 31 ≤ z ≤ INT_MAX → int_wrap z = z.
Proof.
  unfold int_wrap, INT_MAX. intros Hz.
  rewrite Z.mod_small by lia. lia.
Qed.

Lemma int_add_exact a b : - 2 ^ 31 ≤ a + b ≤ INT_MAX → int_add a b = a + b.
Proof. apply int_wrap_id. Qed.

(** ** Counting rows: the histogram and its prefix sums *)

Section Counting.
Implicit Types (R : list Z) (r : Z).

(** Number of entries of row [r]. *)
Definition cnt R r : nat := length (filter (λ x, x = r) R).
(** Number of entries of the rows before [r]. *)
Definition start R r : nat := length (filter (λ x, x < r) R).

Lemma cnt_app R1 R2 r : cnt (R1 ++ R2) r = (cnt R1 r + cnt R2 r)%nat.
Proof. unfold cnt. by rewrite filter_app, length_app. Qed.

Lemma cnt_snoc R x r :
  cnt (R ++ [x]) r = (cnt R r + if decide (x = r) then 1 else 0)%nat.
Proof.
  rewrite cnt_app. f_equal. unfold cnt.
  rewrite filter_cons, filter_nil. by destruct (decide (x = r)).
Qed.

Lemma cnt_le_length R r : (cnt R r ≤ length R)%nat.
Proof. apply length_filter. Qed.

Lemma start_succ R r : start R (r + 1) = (start R r + cnt R r)%nat.
Proof.
  unfold start, cnt. induction R as [|x R IH]; [done |].
  rewrite !filter_cons.
  destruct (decide (x < r + 1)), (decide (x < r)), (decide (x = r));
    simpl; lia.
Qed.

Lemma start_mono R r r' : r ≤ r' → (start R r ≤ start R r')%nat.
Proof.
  intros Hle. unfold start. induction R as [|x R IH]; [done |].
  rewrite !filter_cons.
  destruct (decide (x < r)), (decide (x < r')); simpl; lia.
Qed.

Lemma start_lower R r : Forall (λ x, r ≤ x) R → start R r = 0%nat.
Proof.
  unfold start. induction 1 as [|x R Hx _ IH]; [done |].
  rewrite filter_cons. destruct (decide (x < r)); [lia | done].
Qed.

Lemma start_upper R r : Forall (λ x, x < r) R → start R r = length R.
Proof.
  unfold start. induction 1 as [|x R Hx _ IH]; [done |].
  rewrite filter_cons. destruct (decide (x < r)); [simpl; lia | lia].
Qed.

Lemma start_le_length R r : (start R r ≤ length R)%nat.
Proof. apply length_filter. Qed.

(** While the entry at position [k] is still to come, the rows seen so
    far have not filled the segment of its row. *)
Lemma cnt_take_lt R (k : nat) r :
  R !! k = Some r → (cnt (take k R) r < cnt R r)%nat.
Proof.
  intros Hk. rewrite <- (take_drop k R) at 2.
  rewrite cnt_app. erewrite (drop_S R r k) by done.
  unfold cnt at 3. rewrite filter_cons, decide_True by done. simpl. lia.
Qed.

Lemma cnt_take_le R (k : nat) r : (cnt (take k R) r ≤ cnt R r)%nat.
Proof. rewrite <- (take_drop k R) at 2. rewrite cnt_app. lia. Qed.
End Counting.

(** ** What a compressed matrix represents *)

(** A nonzero: row, column, value. *)
Record Triple := mkTriple { t_row : Z; t_col : Z; t_val : real_type }.

(** Positions [[lo, hi)] of an array. *)
Definition slice {A} (lo hi : Z) (l : list A) : list A :=
  take (Z.to_nat (hi - lo)) (drop (Z.to_nat lo) l).

Definition ptr_at (ptr : list Z) (k : nat) : Z := default 0 (ptr !! k).

(** The (index, value) pairs stored under the major index [k]. *)
Definition segment (ptr idx : list Z) (vals : list real_type) (k : nat)
  : list (Z * real_type) :=
  slice (ptr_at ptr k) (ptr_at ptr (S k)) (zip idx vals).

(** The nonzeros of a CSC matrix, column by column. *)
Definition csc_triples (A : Sparse) : list Triple :=
  flat_map
    (λ c, (λ e, mkTriple e.1 (Z.of_nat c) e.2)
            <$> segment (h_col_data_ A) (h_row_data_ A) (h_val_data_ A) c)
    (seq 0 (Z.to_nat (m_ A))).

(** The nonzeros of a CSR matrix, row by row. *)
Definition csr_triples (B : Sparse) : list Triple :=
  flat_map
    (λ r, (λ e, mkTriple (Z.of_nat r) e.1 e.2)
            <$> segment (h_row_data_ B) (h_col_data_ B) (h_val_data_ B) r)
    (seq 0 (Z.to_nat (n_ B))).

(** The nonzeros of the first [n] rows grouped by row, in row order; inside
    a row the order of the list [l] is kept.  This is what a stable
    distribution of [l] by row index produces. *)
Definition group_by_row (n : nat) (l : list Triple) : list Triple :=
  flat_map (λ r, filter (λ t, t_row t = Z.of_nat r) l) (seq 0 n).

(** The pointer array of [k] segments over [nnz] entries: monotonically
    non-decreasing, first element 0, last element [nnz]. *)
Definition ptr_valid (ptr : list Z) (k nnz : Z) : Prop :=
  length ptr = Z.to_nat (k + 1)
  ∧ ptr !! 0%nat = Some 0
  ∧ ptr !! Z.to_nat k = Some nnz
  ∧ ∀ (i : nat) a b, ptr !! i = Some a → ptr !! S i = Some b → a ≤ b.

Record csc_valid (A : Sparse) : Prop := {
  csc_format : sparse_format A = COMPRESSED_SPARSE_COLUMN;
  csc_rows : 0 ≤ n_ A < INT_MAX;
  csc_cols : 0 ≤ m_ A < INT_MAX;
  csc_nnz : 0 ≤ nnz_ A ≤ INT_MAX;
  csc_colptr : ptr_valid (h_col_data_ A) (m_ A) (nnz_ A);
  csc_rowidx_length : length (h_row_data_ A) = Z.to_nat (nnz_ A);
  csc_values_length : length (h_val_data_ A) = Z.to_nat (nnz_ A);
  csc_rowidx_range : Forall (λ r, 0 ≤ r < n_ A) (h_row_data_ A)
}.

Record csr_valid (B : Sparse) : Prop := {
  csr_format : sparse_format B = COMPRESSED_SPARSE_ROW;
  csr_rowptr : ptr_valid (h_row_data_ B) (n_ B) (nnz_ B);
  csr_colidx_length : length (h_col_data_ B) = Z.to_nat (nnz_ B);
  csr_values_length : length (h_val_data_ B) = Z.to_nat (nnz_ B);
  csr_colidx_range : Forall (λ c, 0 ≤ c < m_ B) (h_col_data_ B)
}.

(** ** Segments of a pointer array *)

Section Segments.
Context {X Y : Type}.
Variables (E : list X) (ptr : list Z) (m : nat) (tag : nat → X → Y).
Hypothesis ptr_ok : ptr_valid ptr (Z.of_nat m) (Z.of_nat (length E)).

Definition segs (c : nat) : list Y :=
  flat_map (λ c, tag c <$> slice (ptr_at ptr c) (ptr_at ptr (S c)) E) (seq 0 c).

Lemma ptr_at_lookup (c : nat) : (c ≤ m)%nat → ptr !! c = Some (ptr_at ptr c).
Proof.
  intros Hc. destruct ptr_ok as (Hlen & _).
  destruct (lookup_lt_is_Some_2 ptr c) as [x Hx]; [lia |].
  unfold ptr_at. by rewrite Hx.
Qed.

Lemma ptr_at_0 : ptr_at ptr 0 = 0.
Proof. destruct ptr_ok as (_ & H0 & _). unfold ptr_at. by rewrite H0. Qed.

Lemma ptr_at_last : ptr_at ptr m = Z.of_nat (length E).
Proof.
  destruct ptr_ok as (_ & _ & Hm & _). unfold ptr_at.
  rewrite Nat2Z.id in Hm. by rewrite Hm.
Qed.

Lemma ptr_at_step (c : nat) : (c < m)%nat → ptr_at ptr c ≤ ptr_at ptr (S c).
Proof.
  intros Hc. destruct ptr_ok as (_ & _ & _ & Hmono).
  eapply Hmono; apply ptr_at_lookup; lia.
Qed.

Lemma ptr_at_mono (c c' : nat) :
  (c ≤ c')%nat → (c' ≤ m)%nat → ptr_at ptr c ≤ ptr_at ptr c'.
Proof.
  induction 1 as [|c' Hle IH]; intros Hm; [lia |].
  etrans; [apply IH; lia |]. apply ptr_at_step. lia.
Qed.

Lemma ptr_at_nonneg (c : nat) : (c ≤ m)%nat → 0 ≤ ptr_at ptr c.
Proof. intros Hc. rewrite <- ptr_at_0. apply ptr_at_mono; lia. Qed.

Lemma ptr_at_le_length (c : nat) :
  (c ≤ m)%nat → ptr_at ptr c ≤ Z.of_nat (length E).
Proof. intros Hc. rewrite <- ptr_at_last. by apply ptr_at_mono. Qed.

Lemma segs_S (c : nat) :
  segs (S c) = segs c ++ (tag c <$> slice (ptr_at ptr c) (ptr_at ptr (S c)) E).
Proof.
  unfold segs. rewrite seq_S, flat_map_app. simpl. by rewrite app_nil_r.
Qed.

Lemma slice_lookup (lo hi : Z) (j : nat) :
  0 ≤ lo →
  slice lo hi E !! j
  = if decide (Z.of_nat j < hi - lo) then E !! (Z.to_nat lo + j)%nat else None.
Proof.
  intros Hlo. unfold slice. destruct (decide (Z.of_nat j < hi - lo)).
  - rewrite lookup_take_lt by lia. apply lookup_drop.
  - apply lookup_take_ge. lia.
Qed.

Lemma segs_length (c : nat) :
  (c ≤ m)%nat → length (segs c) = Z.to_nat (ptr_at ptr c).
Proof.
  induction c as [|c IH]; intros Hc.
  - by rewrite ptr_at_0.
  - rewrite segs_S, length_app, IH, length_fmap by lia.
    unfold slice. rewrite length_take, length_drop.
    pose proof (ptr_at_step c ltac:(lia)).
    pose proof (ptr_at_nonneg c ltac:(lia)).
    pose proof (ptr_at_le_length (S c) ltac:(lia)). lia.
Qed.

(** Entry [jj] of the concatenated segments is entry [jj] of the array,
    tagged with the segment [jj] falls in. *)
Lemma segs_lookup (c jj : nat) y :
  (c ≤ m)%nat →
  segs c !! jj = Some y
  ↔ ∃ (c' : nat) e, (c' < c)%nat
      ∧ ptr_at ptr c' ≤ Z.of_nat jj < ptr_at ptr (S c')
      ∧ E !! jj = Some e ∧ y = tag c' e.
Proof.
  induction c as [|c IH]; intros Hc.
  - split; [done | intros (c' & ? & ? & _); lia].
  - pose proof (ptr_at_nonneg c ltac:(lia)) as Hnn.
    rewrite segs_S, lookup_app_Some, IH, segs_length by lia.
    rewrite list_lookup_fmap_Some. setoid_rewrite slice_lookup; [| done].
    split.
    + intros [(c' & e & Hc' & Hjj & He & ->) | (Hge & e & -> & He)].
      * exists c', e. repeat split; try done; lia.
      * destruct (decide _) as [Hlt|]; [| done].
        exists c, e. repeat split; try lia.
        rewrite <- He. f_equal. lia.
    + intros (c' & e & Hc' & Hjj & He & ->).
      destruct (decide (c' = c)) as [->|Hne].
      * right. split; [lia |]. exists e. split; [done |].
        rewrite decide_True by lia. rewrite <- He. f_equal. lia.
      * left. exists c', e. repeat split; try done; lia.
Qed.

(** Every entry falls in some segment. *)
Lemma segs_cover (jj : nat) :
  (jj < length E)%nat →
  ∃ c : nat, (c < m)%nat ∧ ptr_at ptr c ≤ Z.of_nat jj < ptr_at ptr (S c).
Proof.
  intros Hjj. pose proof ptr_at_last as Hlast. pose proof ptr_at_0 as H0.
  assert (∀ c : nat, (c ≤ m)%nat → Z.of_nat jj < ptr_at ptr c →
            ∃ c' : nat, (c' < c)%nat
              ∧ ptr_at ptr c' ≤ Z.of_nat jj < ptr_at ptr (S c')) as Hfind.
  { induction c as [|c IH]; intros Hc Hlt; [lia |].
    destruct (decide (Z.of_nat jj < ptr_at ptr c)) as [Hlt'|Hge].
    - destruct (IH ltac:(lia) Hlt') as (c' & ? & ?). exists c'. split; [lia | done].
    - exists c. split; [lia | lia]. }
  apply (Hfind m); lia.
Qed.
End Segments.

(** Segments cut out of a concatenation of blocks. *)
Lemma slice_blocks {X} (F : nat → list X) (n r : nat) :
  (r < n)%nat →
  slice (Z.of_nat (length (flat_map F (seq 0 r))))
        (Z.of_nat (length (flat_map F (seq 0 (S r)))))
        (flat_map F (seq 0 n)) = F r.
Proof.
  intros Hr. unfold slice.
  replace n with (S r + (n - S r))%nat at 1 by lia.
  rewrite seq_app, flat_map_app, seq_S, flat_map_app. simpl.
  rewrite app_nil_r, length_app, Nat2Z.id, <- !app_assoc, drop_app_length.
  apply take_app_length'. lia.
Qed.

(** ** The passes of [csc2csr] on a square matrix *)

Lemma lookup_insertZ {B} (l : list B) (i j : Z) (x : B) :
  0 ≤ i < Z.of_nat (length l) → 0 ≤ j →
  <[Z.to_nat i := x]> l !! Z.to_nat j
  = if decide (i = j) then Some x else l !! Z.to_nat j.
Proof.
  intros Hi Hj. destruct (decide (i = j)) as [->|Hne].
  - apply list_lookup_insert_eq. lia.
  - apply list_lookup_insert_ne. lia.
Qed.

Module Csc2CsrPasses.
Import Csc2Csr.

Section Passes.
(** [n] is the dimension, [R] the row indices of the source (column-major
  order). *)
Variables (n nnz : Z) (R : list Z).
Hypothesis n_nonneg : 0 ≤ n.
Hypothesis nnz_int : 0 ≤ nnz ≤ INT_MAX.
Hypothesis R_length : length R = Z.to_nat nnz.
Hypothesis R_range : Forall (λ x, 0 ≤ x < n) R.

(** [rowPtrCsr[r]] holds the count [v]. *)
Definition rp_is (rp : list Z) (r : Z) (v : nat) : Prop :=
rp !! Z.to_nat r = Some (Z.of_nat v).

Definition shape (s : csr_arrays) : Prop :=
length (rowPtrCsr s) = Z.to_nat (n + 1)
∧ length (colIdxCsr s) = Z.to_nat nnz
∧ length (valuesCsr s) = Z.to_nat nnz.

Lemma R_lookup_range (k : nat) r : R !! k = Some r → 0 ≤ r < n.
Proof. intros Hk. by eapply (Forall_lookup_1 _ _ _ _ R_range). Qed.

Lemma start_total r : n ≤ r → start R r = length R.
Proof.
intros Hr. apply start_upper. eapply Forall_impl; [exact R_range |].
simpl. lia.
Qed.

Lemma start_zero : start R 0 = 0%nat.
Proof.
apply start_lower. eapply Forall_impl; [exact R_range |]. simpl. lia.
Qed.

Lemma zero_row_pointers_spec s :
shape s →
∃ s', zero_row_pointers n s = Done s' ∧ shape s'
      ∧ (∀ r, 0 ≤ r ≤ n → rp_is (rowPtrCsr s') r 0).
Proof.
intros Hs. unfold zero_row_pointers.
destruct (for_range_inv
  (λ j s1, shape s1 ∧ ∀ r, 0 ≤ r < j → rp_is (rowPtrCsr s1) r 0)
  0 (n + 1) (λ i s, rp ← wr (rowPtrCsr s) i 0; Done (set_rowPtr s rp)) s)
  as (s' & Hrun & Hsh & Hz).
- lia.
- split; [done | lia].
- intros j s1 Hj [(Hl1 & Hl2 & Hl3) Hz].
  rewrite wr_Done by lia. eexists. split; [reflexivity |].
  split.
  + repeat split; simpl; [by rewrite length_insert | done | done].
  + intros r Hr. unfold rp_is. simpl. rewrite lookup_insertZ by lia.
    destruct (decide (j = r)); [done |]. apply Hz. lia.
- exists s'. repeat split; try done; try apply Hsh.
  intros r Hr. apply Hz. lia.
Qed.

Lemma zero_entries_spec s :
shape s →
∃ s', zero_entries nnz s = Done s' ∧ shape s'
      ∧ rowPtrCsr s' = rowPtrCsr s.
Proof.
intros Hs. unfold zero_entries.
destruct (for_range_inv
  (λ (j : Z) s1, shape s1 ∧ rowPtrCsr s1 = rowPtrCsr s)
  0 nnz
  (λ i s, ci ← wr (colIdxCsr s) i 0;
          vs ← wr (valuesCsr s) i real_zero;
          Done (mkArrays (rowPtrCsr s) ci vs)) s)
  as (s' & Hrun & Hsh & Hrp); [lia | done | | by exists s'].
intros j s1 Hj [(Hl1 & Hl2 & Hl3) Hrp].
rewrite wr_Done by lia. simpl. rewrite wr_Done by lia.
eexists. split; [reflexivity |]. split; [| done].
repeat split; simpl; by rewrite ?length_insert.
Qed.

Lemma count_entries_spec s :
shape s →
(∀ r, 0 ≤ r ≤ n → rp_is (rowPtrCsr s) r 0) →
∃ s', count_entries nnz R s = Done s' ∧ shape s'
      ∧ (∀ r, 0 ≤ r ≤ n → rp_is (rowPtrCsr s') r (cnt R r)).
Proof.
intros Hs H0. unfold count_entries.
destruct (for_range_inv
  (λ j s1, shape s1
           ∧ ∀ r, 0 ≤ r ≤ n → rp_is (rowPtrCsr s1) r (cnt (take (Z.to_nat j) R) r))
  0 nnz
  (λ i s, r ← rd R i; c ← rd (rowPtrCsr s) r;
          rp ← wr (rowPtrCsr s) r (int_add c 1);
          Done (set_rowPtr s rp)) s)
  as (s' & Hrun & Hsh & Hc).
- lia.
- split; [done |]. intros r Hr. simpl. by apply H0.
- intros j s1 Hj [(Hl1 & Hl2 & Hl3) Hc].
  destruct (lookup_lt_is_Some_2 R (Z.to_nat j)) as [r0 Hr0]; [lia |].
  pose proof (R_lookup_range _ _ Hr0) as Hr0n.
  pose proof (cnt_take_lt _ _ _ Hr0) as Hlt.
  pose proof (cnt_le_length R r0) as Hle.
  rewrite (rd_Done R j r0) by (done || lia). simpl.
  rewrite (rd_Done _ r0 _ (proj1 Hr0n) (Hc r0 ltac:(lia))). simpl.
  rewrite wr_Done by lia. eexists. split; [reflexivity |]. split.
  + repeat split; simpl; by rewrite ?length_insert.
  + intros r Hr. unfold rp_is. simpl. rewrite lookup_insertZ by lia.
    replace (Z.to_nat (j + 1)) with (Datatypes.S (Z.to_nat j)) by lia.
    rewrite (take_S_r _ _ _ Hr0), cnt_snoc.
    destruct (decide (r0 = r)) as [->|Hne].
    * f_equal. rewrite int_add_exact; unfold INT_MAX in *; lia.
    * rewrite Nat.add_0_r. by apply Hc.
- exists s'. repeat split; try done; try apply Hsh.
  intros r Hr. specialize (Hc r Hr).
  by rewrite take_ge in Hc by lia.
Qed.

Lemma cumulative_sum_spec s :
shape s →
(∀ r, 0 ≤ r ≤ n → rp_is (rowPtrCsr s) r (cnt R r)) →
∃ s', cumulative_sum n nnz s = Done s' ∧ shape s'
      ∧ (∀ r, 0 ≤ r < n → rp_is (rowPtrCsr s') r (start R r))
      ∧ rp_is (rowPtrCsr s') n (length R).
Proof.
intros Hs Hc. unfold cumulative_sum.
destruct (for_range_inv
  (λ j (st : csr_arrays * Z),
     shape st.1
     ∧ (∀ r, 0 ≤ r < j → rp_is (rowPtrCsr st.1) r (start R r))
     ∧ (∀ r, j ≤ r ≤ n → rp_is (rowPtrCsr st.1) r (cnt R r))
     ∧ st.2 = Z.of_nat (start R j))
  0 n
  (λ row (st : csr_arrays * index_type),
     let '(s, rowsum) := st in
     temp ← rd (rowPtrCsr s) row;
     rp ← wr (rowPtrCsr s) row rowsum;
     Done (set_rowPtr s rp, int_add rowsum temp)) (s, 0))
  as ([s1 rowsum] & Hrun & Hsh & Hlo & Hhi & Hsum).
- lia.
- simpl. repeat split; try apply Hs; [lia | done | by rewrite start_zero].
- intros j [s1 rowsum] Hj ((Hl1 & Hl2 & Hl3) & Hlo & Hhi & Hsum).
  simpl in *. subst rowsum.
  rewrite (rd_Done _ j _ (proj1 Hj) (Hhi j ltac:(lia))). simpl.
  rewrite wr_Done by lia. eexists. split; [reflexivity |]. simpl.
  pose proof (start_succ R j). pose proof (start_le_length R (j + 1)).
  repeat split; simpl; rewrite ?length_insert; try done.
  + intros r Hr. unfold rp_is. rewrite lookup_insertZ by lia.
    destruct (decide (j = r)) as [->|]; [done |]. apply Hlo. lia.
  + intros r Hr. unfold rp_is. rewrite lookup_insertZ by lia.
    rewrite decide_False by lia. apply Hhi. lia.
  + rewrite int_add_exact; unfold INT_MAX in *; lia.
- simpl in *. rewrite Hrun. simpl. destruct Hsh as (Hl1 & Hl2 & Hl3).
  rewrite wr_Done by lia. eexists. split; [reflexivity |].
  repeat split; simpl; rewrite ?length_insert; try done.
  + intros r Hr. unfold rp_is. rewrite lookup_insertZ by lia.
    rewrite decide_False by lia. by apply Hlo.
  + unfold rp_is. rewrite lookup_insertZ by lia.
    rewrite decide_True by done. f_equal. lia.
Qed.

Lemma restore_row_pointers_spec s :
shape s →
(∀ r, 0 ≤ r ≤ n → rp_is (rowPtrCsr s) r (start R (r + 1))) →
∃ s', restore_row_pointers n s = Done s' ∧ shape s'
      ∧ (∀ r, 0 ≤ r ≤ n → rp_is (rowPtrCsr s') r (start R r))
      ∧ colIdxCsr s' = colIdxCsr s ∧ valuesCsr s' = valuesCsr s.
Proof.
intros Hs Hold. unfold restore_row_pointers.
destruct (for_range_inv
  (λ j (st : csr_arrays * Z),
     shape st.1
     ∧ (∀ r, 0 ≤ r < j → rp_is (rowPtrCsr st.1) r (start R r))
     ∧ (∀ r, j ≤ r ≤ n → rp_is (rowPtrCsr st.1) r (start R (r + 1)))
     ∧ st.2 = Z.of_nat (start R j)
     ∧ colIdxCsr st.1 = colIdxCsr s ∧ valuesCsr st.1 = valuesCsr s)
  0 (n + 1)
  (λ row (st : csr_arrays * index_type),
     let '(s, last) := st in
     temp ← rd (rowPtrCsr s) row;
     rp ← wr (rowPtrCsr s) row last;
     Done (set_rowPtr s rp, temp)) (s, 0))
  as ([s1 last] & Hrun & Hsh & Hlo & Hhi & Hlast & Hci & Hvs).
- lia.
- simpl. repeat split; try apply Hs; try done; [lia | by rewrite start_zero].
- intros j [s1 last] Hj ((Hl1 & Hl2 & Hl3) & Hlo & Hhi & Hlast & Hci & Hvs).
  simpl in *. subst last.
  rewrite (rd_Done _ j _ (proj1 Hj) (Hhi j ltac:(lia))). simpl.
  rewrite wr_Done by lia. eexists. split; [reflexivity |]. simpl.
  repeat split; simpl; rewrite ?length_insert; try done.
  + intros r Hr. unfold rp_is. rewrite lookup_insertZ by lia.
    destruct (decide (j = r)) as [->|]; [done |]. apply Hlo. lia.
  + intros r Hr. unfold rp_is. rewrite lookup_insertZ by lia.
    rewrite decide_False by lia. apply Hhi. lia.
- simpl in *. rewrite Hrun. simpl. eexists. split; [reflexivity |].
  repeat split; try done; try apply Hsh. intros r Hr. apply Hlo. lia.
Qed.

(** *** The scatter pass *)

Variables (CP : list Z) (V : list real_type).
Hypothesis CP_ok : ptr_valid CP n nnz.
Hypothesis V_length : length V = Z.to_nat nnz.

(** The nonzeros of the source in the order the scatter visits them. *)
Definition ts : list Triple :=
segs (zip R V) CP (λ c e, mkTriple e.1 (Z.of_nat c) e.2) (Z.to_nat n).

(** The same nonzeros grouped by row, source order kept inside a row. *)
Definition by_rows (c : nat) : list Triple := group_by_row c ts.

Lemma zip_RV_length : length (zip R V) = Z.to_nat nnz.
Proof. rewrite length_zip. lia. Qed.

Lemma CP_ok' :
ptr_valid CP (Z.of_nat (Z.to_nat n)) (Z.of_nat (length (zip R V))).
Proof. rewrite zip_RV_length, !Z2Nat.id by lia. exact CP_ok. Qed.

Lemma zip_RV_lookup (k : nat) r v :
R !! k = Some r → V !! k = Some v → zip R V !! k = Some (r, v).
Proof. intros Hr Hv. rewrite lookup_zip_with, Hr. simpl. by rewrite Hv. Qed.

Lemma ts_length : length ts = Z.to_nat nnz.
Proof.
unfold ts. rewrite (segs_length _ _ _ _ CP_ok') by lia.
rewrite (ptr_at_last _ _ _ CP_ok'), Nat2Z.id. apply zip_RV_length.
Qed.

Lemma ts_lookup (c jj : nat) r v :
(c < Z.to_nat n)%nat →
ptr_at CP c ≤ Z.of_nat jj < ptr_at CP (S c) →
R !! jj = Some r → V !! jj = Some v →
ts !! jj = Some (mkTriple r (Z.of_nat c) v).
Proof.
intros Hc Hjj Hr Hv. unfold ts.
apply (segs_lookup _ _ _ _ CP_ok'); [lia |].
exists c, (r, v). repeat split; try done; try lia.
by apply zip_RV_lookup.
Qed.

Lemma ts_rows : t_row <$> ts = R.
Proof.
apply list_eq. intros jj. rewrite list_lookup_fmap.
destruct (ts !! jj) as [t|] eqn:Ht; simpl.
- apply (segs_lookup _ _ _ _ CP_ok') in Ht as (c & [r v] & _ & _ & He & ->);
    [| lia].
  simpl. rewrite lookup_zip_with in He.
  destruct (R !! jj) as [r'|]; simpl in *; [| done].
  destruct (V !! jj); simpl in *; congruence.
- symmetry. apply lookup_ge_None. apply lookup_ge_None in Ht.
  rewrite ts_length in Ht. lia.
Qed.

Lemma cnt_rows (l : list Triple) r :
length (filter (λ t, t_row t = r) l) = cnt (t_row <$> l) r.
Proof.
unfold cnt. induction l as [|t l IH]; [done |].
rewrite fmap_cons, !filter_cons.
destruct (decide (t_row t = r)); simpl; by rewrite IH.
Qed.

Lemma by_rows_length (c : nat) :
length (by_rows c) = start R (Z.of_nat c).
Proof.
induction c as [|c IH].
- change (Z.of_nat 0) with 0. by rewrite start_zero.
- unfold by_rows, group_by_row in *. rewrite seq_S, flat_map_app, length_app, IH. simpl.
  rewrite app_nil_r, cnt_rows, ts_rows, Nat2Z.inj_succ.
  unfold Z.succ. by rewrite start_succ.
Qed.

(** The part of an output array owned by row [r], after [k] nonzeros
  have been scattered. *)
Definition window {B} (f : Triple → B) (arr : list B) (k : nat) (r : Z) :=
take (cnt (take k R) r) (drop (start R r) arr)
= f <$> filter (λ t, t_row t = r) (take k ts).

Lemma window_step {B} (f : Triple → B) (arr : list B) (k : nat) t r :
R !! k = Some (t_row t) → ts !! k = Some t →
length arr = Z.to_nat nnz →
window f arr k r →
window f (<[(start R (t_row t) + cnt (take k R) (t_row t))%nat := f t]> arr)
       (S k) r.
Proof.
intros HR Ht Hlen Hw. unfold window in *.
rewrite (take_S_r _ _ _ HR), (take_S_r _ _ _ Ht), cnt_snoc, filter_app, fmap_app.
rewrite filter_cons, filter_nil.
pose proof (cnt_take_lt _ _ _ HR) as Hlt.
pose proof (start_succ R (t_row t)) as Hsucc.
destruct (decide (t_row t = r)) as [Heq|Hne].
- subst r. replace (cnt (take k R) (t_row t) + 1)%nat
    with (S (cnt (take k R) (t_row t))) by lia.
  rewrite take_drop_insert_end, Hw; [done |].
  pose proof (start_le_length R (t_row t + 1)). lia.
- rewrite Nat.add_0_r, app_nil_r, take_drop_insert_out; [done |].
  pose proof (cnt_take_le R k r). pose proof (start_succ R r).
  destruct (decide (t_row t < r)).
  + left. pose proof (start_mono R (t_row t + 1) r ltac:(lia)). lia.
  + right. pose proof (start_mono R (r + 1) (t_row t) ltac:(lia)). lia.
Qed.

(** The state of the scatter after [k] nonzeros. *)
Definition scattered (k : nat) (s : csr_arrays) : Prop :=
shape s
∧ (∀ r, 0 ≤ r < n →
        rp_is (rowPtrCsr s) r (start R r + cnt (take k R) r))
∧ rp_is (rowPtrCsr s) n (length R)
∧ (∀ r, 0 ≤ r < n → window t_col (colIdxCsr s) k r)
∧ (∀ r, 0 ≤ r < n → window t_val (valuesCsr s) k r).

Lemma scatter_entry_spec (k : nat) (c : Z) r v s :
R !! k = Some r → V !! k = Some v →
ts !! k = Some (mkTriple r c v) →
scattered k s →
∃ s', scatter_entry R V c (Z.of_nat k) s = Done s' ∧ scattered (S k) s'.
Proof.
intros HR HV Ht ((Hl1 & Hl2 & Hl3) & Hrp & Hrpn & Hci & Hvs).
pose proof (R_lookup_range _ _ HR) as Hr.
pose proof (cnt_take_lt _ _ _ HR) as Hlt.
pose proof (start_succ R r) as Hsucc.
pose proof (start_le_length R (r + 1)) as Hle.
unfold scatter_entry.
pose proof (rd_Done _ r _ (proj1 Hr) (Hrp r Hr)) as Hdest.
rewrite (rd_Done R (Z.of_nat k) r) by (rewrite ?Nat2Z.id; done || lia). simpl.
rewrite Hdest. simpl.
rewrite wr_Done by lia. simpl.
rewrite (rd_Done V (Z.of_nat k) v) by (rewrite ?Nat2Z.id; done || lia). simpl.
rewrite wr_Done by lia. simpl.
rewrite wr_Done by lia. rewrite Nat2Z.id.
eexists. split; [reflexivity |].
split; [repeat split; simpl; by rewrite ?length_insert |].
simpl. repeat split.
- intros r' Hr'. unfold rp_is. rewrite lookup_insertZ by lia.
  rewrite (take_S_r _ _ _ HR), cnt_snoc.
  destruct (decide (r = r')) as [->|Hne].
  + f_equal. rewrite int_add_exact; unfold INT_MAX in *; lia.
  + rewrite Nat.add_0_r. by apply Hrp.
- unfold rp_is. rewrite lookup_insertZ by lia.
  by rewrite decide_False by lia.
- intros r' Hr'.
  apply (window_step t_col _ k (mkTriple r c v) r'); auto.
- intros r' Hr'.
  apply (window_step t_val _ k (mkTriple r c v) r'); auto.
Qed.

Lemma scatter_spec s :
scattered 0 s →
∃ s', scatter n R CP V s = Done s' ∧ scattered (Z.to_nat nnz) s'.
Proof.
intros H0. unfold scatter.
pose proof (ptr_at_0 _ _ _ CP_ok') as Hp0.
pose proof (ptr_at_last _ _ _ CP_ok') as Hpn. rewrite zip_RV_length in Hpn.
destruct (for_range_inv
  (λ c s1, scattered (Z.to_nat (ptr_at CP (Z.to_nat c))) s1)
  0 n
  (λ col s, lo ← rd CP col; hi ← rd CP (col + 1);
            for_range lo hi (scatter_entry R V col) s) s)
  as (s' & Hrun & Hs'); [lia | | | ].
- change (Z.to_nat 0) with 0%nat. by rewrite Hp0.
- intros c s1 Hc Hs1.
  pose proof (ptr_at_lookup _ _ _ CP_ok' (Z.to_nat c) ltac:(lia)) as Hlo.
  pose proof (ptr_at_lookup _ _ _ CP_ok' (S (Z.to_nat c)) ltac:(lia)) as Hhi.
  pose proof (ptr_at_step _ _ _ CP_ok' (Z.to_nat c) ltac:(lia)) as Hstep.
  pose proof (ptr_at_nonneg _ _ _ CP_ok' (Z.to_nat c) ltac:(lia)) as Hnn.
  pose proof (ptr_at_le_length _ _ _ CP_ok' (S (Z.to_nat c)) ltac:(lia)) as Hub.
  rewrite zip_RV_length in Hub.
  rewrite (rd_Done CP c _ (proj1 Hc) Hlo). simpl.
  replace (Z.to_nat (c + 1)) with (S (Z.to_nat c)) by lia.
  rewrite (rd_Done CP (c + 1) (ptr_at CP (S (Z.to_nat c)))); [| lia |];
    last by replace (Z.to_nat (c + 1)) with (S (Z.to_nat c)) by lia.
  simpl.
  apply (for_range_inv (λ jj s2, scattered (Z.to_nat jj) s2)); [done | done |].
  intros jj s2 Hjj Hs2.
  destruct (lookup_lt_is_Some_2 R (Z.to_nat jj)) as [r HR]; [lia |].
  destruct (lookup_lt_is_Some_2 V (Z.to_nat jj)) as [v HV]; [lia |].
  destruct (scatter_entry_spec (Z.to_nat jj) c r v s2) as (s3 & Hrun3 & Hs3);
    try done.
  + rewrite <- (Z2Nat.id c) by lia. apply ts_lookup; try done; lia.
  + exists s3. rewrite Z2Nat.id in Hrun3 by lia. split; [done |].
    by replace (Z.to_nat (jj + 1)) with (S (Z.to_nat jj)) by lia.
- exists s'. split; [done |]. by rewrite Hpn, Nat2Z.id in Hs'.
Qed.

(** Row windows that tile an array determine it. *)
Lemma windows_tile {B} (f : Triple → B) (arr : list B) :
length arr = Z.to_nat nnz →
(∀ r, 0 ≤ r < n → window f arr (Z.to_nat nnz) r) →
arr = f <$> by_rows (Z.to_nat n).
Proof.
intros Hlen Hw.
assert (∀ c : nat, (c ≤ Z.to_nat n)%nat →
          take (start R (Z.of_nat c)) arr = f <$> by_rows c) as Hpre.
{ induction c as [|c IH]; intros Hc.
  - change (Z.of_nat 0) with 0. by rewrite start_zero.
  - unfold by_rows, group_by_row in *. rewrite seq_S, flat_map_app, fmap_app. simpl.
    rewrite app_nil_r, <- IH by lia.
    specialize (Hw (Z.of_nat c) ltac:(lia)). unfold window in Hw.
    rewrite (take_ge R), (take_ge ts) in Hw by (rewrite ?ts_length; lia).
    rewrite <- Hw, take_take_drop. f_equal.
    rewrite Nat2Z.inj_succ. unfold Z.succ. apply start_succ. }
rewrite <- Hpre by lia. symmetry. apply take_ge.
rewrite Z2Nat.id, start_total by lia. lia.
Qed.

(** *** The six passes together *)

Lemma convert_spec s :
shape s →
∃ s', convert n nnz R CP V s = Done s' ∧ shape s'
      ∧ (∀ r, 0 ≤ r ≤ n → rp_is (rowPtrCsr s') r (start R r))
      ∧ colIdxCsr s' = t_col <$> by_rows (Z.to_nat n)
      ∧ valuesCsr s' = t_val <$> by_rows (Z.to_nat n).
Proof.
intros Hs. unfold convert.
destruct (zero_row_pointers_spec s Hs) as (s1 & -> & Hs1 & Hz). simpl.
destruct (zero_entries_spec s1 Hs1) as (s2 & -> & Hs2 & Hrp2). simpl.
rewrite <- Hrp2 in Hz.
destruct (count_entries_spec s2 Hs2 Hz) as (s3 & -> & Hs3 & Hc). simpl.
destruct (cumulative_sum_spec s3 Hs3 Hc) as (s4 & -> & Hs4 & Hst & Hn). simpl.
destruct (scatter_spec s4) as (s5 & -> & Hs5 & Hrp & Hrpn & Hci & Hvs).
{ repeat split; try apply Hs4; try done.
  intros r Hr. simpl. rewrite Nat.add_0_r. by apply Hst. }
simpl. rewrite take_ge in Hrp by lia.
destruct (restore_row_pointers_spec s5 Hs5)
  as (s6 & -> & Hs6 & Hfin & Hci6 & Hvs6).
{ intros r Hr. destruct (decide (r = n)) as [->|Hne].
  - by rewrite start_total by lia.
  - rewrite start_succ. apply Hrp. lia. }
exists s6. repeat split; try apply Hs6; try done.
- rewrite Hci6. apply windows_tile; [apply Hs5 | done].
- rewrite Hvs6. apply windows_tile; [apply Hs5 | done].
Qed.

(** *** Reading the result as a CSR matrix *)

Lemma by_rows_slice (rp : list Z) (r : nat) :
(∀ r, 0 ≤ r ≤ n → rp_is rp r (start R r)) →
(r < Z.to_nat n)%nat →
slice (ptr_at rp r) (ptr_at rp (S r)) (by_rows (Z.to_nat n))
= filter (λ t, t_row t = Z.of_nat r) ts.
Proof.
intros Hrp Hr. unfold ptr_at.
pose proof (Hrp (Z.of_nat r) ltac:(lia)) as H1.
pose proof (Hrp (Z.of_nat (S r)) ltac:(lia)) as H2.
unfold rp_is in H1, H2. rewrite Nat2Z.id in H1, H2. rewrite H1, H2. simpl.
rewrite <- !by_rows_length.
apply (slice_blocks (λ r, filter (λ t, t_row t = Z.of_nat r) ts)). lia.
Qed.

Lemma by_rows_elem t : t ∈ by_rows (Z.to_nat n) → t ∈ ts.
Proof.
unfold by_rows, group_by_row. rewrite list_elem_of_In, in_flat_map.
intros (r & _ & Hin). apply list_elem_of_In, list_elem_of_filter in Hin.
apply Hin.
Qed.

Lemma ts_col_range t : t ∈ ts → 0 ≤ t_col t < n.
Proof.
intros (jj & Hjj)%list_elem_of_lookup_1.
apply (segs_lookup _ _ _ _ CP_ok') in Hjj as (c & e & Hc & _ & _ & ->); [| lia].
simpl. lia.
Qed.

End Passes.
End Csc2CsrPasses.

(** ** Order of the source nonzeros *)

Definition col_le (t1 t2 : Triple) : Prop := t_col t1 ≤ t_col t2.

(** The nonzeros of a CSC matrix come in column order, whatever the
    pointer array holds. *)
Lemma segs_col_sorted (E : list (Z * real_type)) (ptr : list Z) (c : nat) :
  let l := segs E ptr (λ c e, mkTriple e.1 (Z.of_nat c) e.2) c in
  StronglySorted col_le l ∧ Forall (λ t, t_col t < Z.of_nat c) l.
Proof.
  induction c as [|c [IHs IHb]]; simpl.
  - split; constructor.
  - rewrite segs_S.
    set (blk := slice (ptr_at ptr c) (ptr_at ptr (S c)) E).
    assert (Forall (λ t, t_col t = Z.of_nat c)
              ((λ e, mkTriple e.1 (Z.of_nat c) e.2) <$> blk)) as Hblk.
    { apply Forall_fmap, Forall_forall. done. }
    split.
    + apply StronglySorted_app. repeat split; [| done |].
      * intros t1 t2 Ht1 Ht2. rewrite Forall_forall in IHb, Hblk.
        unfold col_le. rewrite (Hblk t2 Ht2). specialize (IHb t1 Ht1).
        simpl in IHb. lia.
      * clear -Hblk. induction Hblk as [|t l Ht Hl IH]; constructor; [done |].
        eapply Forall_impl; [exact Hl |]. intros t' Ht'. unfold col_le.
        simpl in *. lia.
    + apply Forall_app. split.
      * eapply Forall_impl; [exact IHb |]. intros t Ht. simpl in *. lia.
      * eapply Forall_impl; [exact Hblk |]. intros t Ht. simpl in *. lia.
Qed.

Lemma csc_triples_col_sorted (A : Sparse) : StronglySorted col_le (csc_triples A).
Proof. apply (segs_col_sorted (zip (h_row_data_ A) (h_val_data_ A))). Qed.

Lemma StronglySorted_filter {X} (Rel : X → X → Prop) (P : X → Prop)
    `{∀ x, Decision (P x)} (l : list X) :
  StronglySorted Rel l → StronglySorted Rel (filter P l).
Proof.
  induction 1 as [|x l Hl IH Hx]; [constructor |].
  rewrite filter_cons. destruct (decide (P x)); [| done].
  constructor; [done |]. rewrite Forall_forall in *.
  intros y Hy%list_elem_of_filter. apply Hx, Hy.
Qed.

Lemma StronglySorted_lookup_lt {X} (Rel : X → X → Prop) (l : list X)
    (i j : nat) a b :
  StronglySorted Rel l → (i < j)%nat →
  l !! i = Some a → l !! j = Some b → Rel a b.
Proof.
  intros Hs Hij Hi Hj. rewrite <- (take_drop_middle l j b Hj) in Hs.
  eapply StronglySorted_app_1_elem_of; [exact Hs | | left].
  apply list_elem_of_lookup. exists i. by rewrite lookup_take_lt.
Qed.

(** Grouping by row only permutes the nonzeros. *)
Lemma filter_row_split (l : list Triple) (r : Z) :
  filter (λ t, t_row t < r + 1) l
  ≡ₚ filter (λ t, t_row t < r) l ++ filter (λ t, t_row t = r) l.
Proof.
  induction l as [|t l IH]; [done |].
  rewrite !filter_cons.
  destruct (decide (t_row t < r + 1)), (decide (t_row t < r)),
    (decide (t_row t = r)); try lia; simpl.
  - by rewrite IH.
  - rewrite IH. apply Permutation_middle.
  - done.
Qed.

Lemma group_by_row_filter (n : nat) (l : list Triple) :
  Forall (λ t, 0 ≤ t_row t) l →
  group_by_row n l ≡ₚ filter (λ t, t_row t < Z.of_nat n) l.
Proof.
  intros Hl. induction n as [|n IH].
  - simpl. induction Hl as [|t l Ht _ IHl]; [done |].
    rewrite filter_cons. destruct (decide _); [lia | done].
  - unfold group_by_row in *. rewrite seq_S, flat_map_app, IH. simpl.
    rewrite app_nil_r, Nat2Z.inj_succ. unfold Z.succ.
    by rewrite filter_row_split.
Qed.

Lemma group_by_row_perm (n : nat) (l : list Triple) :
  Forall (λ t, 0 ≤ t_row t < Z.of_nat n) l → group_by_row n l ≡ₚ l.
Proof.
  intros Hl. rewrite group_by_row_filter.
  - induction Hl as [|t l Ht _ IHl]; [done |].
    rewrite filter_cons, decide_True by lia. by rewrite IHl.
  - eapply Forall_impl; [exact Hl |]. simpl. lia.
Qed.

(** ** [csc2csr] on a square matrix *)

Lemma zip_fmap_triples (l : list Triple) :
  zip (t_col <$> l) (t_val <$> l) = (λ t, (t_col t, t_val t)) <$> l.
Proof.
  induction l as [|t l IH]; [done |].
  rewrite !fmap_cons. cbn [zip_with]. f_equal. apply IH.
Qed.

Lemma slice_fmap {X Y} (f : X → Y) (lo hi : Z) (l : list X) :
  slice lo hi (f <$> l) = f <$> slice lo hi l.
Proof. unfold slice. by rewrite fmap_take, fmap_drop. Qed.

Lemma retag_row (l : list Triple) (r : Z) :
  (λ e, mkTriple r e.1 e.2)
    <$> ((λ t, (t_col t, t_val t)) <$> filter (λ t, t_row t = r) l)
  = filter (λ t, t_row t = r) l.
Proof.
  induction l as [|[tr tc tv] l IH]; [done |].
  rewrite filter_cons. destruct (decide _) as [Heq|]; [| done].
  rewrite !fmap_cons, IH. simpl in *. by subst.
Qed.

Lemma flat_map_seq_ext {X} (F G : nat → list X) (n : nat) :
  (∀ r, (r < n)%nat → F r = G r) →
  flat_map F (seq 0 n) = flat_map G (seq 0 n).
Proof.
  induction n as [|n IH]; intros Hext; [done |].
  rewrite seq_S, !flat_map_app, IH by (intros; apply Hext; lia).
  simpl. by rewrite Hext by lia.
Qed.

(** Every row segment of [B] lists the nonzeros of that row of [A], in the
    order [A] stores them (column order). *)
Definition rows_preserved (A B : Sparse) : Prop :=
  ∀ r : nat, (r < Z.to_nat (n_ A))%nat →
    segment (h_row_data_ B) (h_col_data_ B) (h_val_data_ B) r
    = (λ t, (t_col t, t_val t))
        <$> filter (λ t, t_row t = Z.of_nat r) (csc_triples A).

(** Inside a row segment of [B], a smaller column index sits at a strictly
    smaller position. *)
Definition row_order_kept (B : Sparse) : Prop :=
  ∀ (r p q : nat) c1 c2,
    (r < Z.to_nat (n_ B))%nat →
    ptr_at (h_row_data_ B) r ≤ Z.of_nat p < ptr_at (h_row_data_ B) (S r) →
    ptr_at (h_row_data_ B) r ≤ Z.of_nat q < ptr_at (h_row_data_ B) (S r) →
    h_col_data_ B !! p = Some c1 →
    h_col_data_ B !! q = Some c2 →
    c1 < c2 → (p < q)%nat.


Section Csc2CsrSquare.
Import Csc2Csr Csc2CsrPasses.

Variables A_csc A_csr : Sparse.
Hypothesis A_valid : csc_valid A_csc.
Hypothesis A_square : n_ A_csc = m_ A_csc.
Hypothesis B_format : sparse_format A_csr = COMPRESSED_SPARSE_ROW.
Hypothesis B_rows : n_ A_csr = n_ A_csc.
Hypothesis B_cols : m_ A_csr = m_ A_csc.
Hypothesis B_nnz : nnz_ A_csr = nnz_ A_csc.

(** The source nonzeros grouped by row, source order kept in each row. *)
Definition grouped : list Triple :=
  group_by_row (Z.to_nat (n_ A_csc)) (csc_triples A_csc).

(** The destination that [csc2csr] leaves behind, given its row
    pointers. *)
Definition converted (rp : list Z) : Sparse :=
  mkSparse COMPRESSED_SPARSE_ROW (n_ A_csc) (m_ A_csc) (nnz_ A_csc)
    rp (t_col <$> grouped) (t_val <$> grouped)
    (d_row_data_ A_csr) (d_col_data_ A_csr) (d_val_data_ A_csr)
    true false.

Lemma A_rowidx_range : Forall (λ x, 0 ≤ x < m_ A_csc) (h_row_data_ A_csc).
Proof. rewrite <- A_square. apply A_valid. Qed.

(** The conversion runs to completion, returns 0, and fills the
    destination with the grouped nonzeros; row pointer [r] is the number
    of nonzeros in the rows before [r]. *)
Lemma csc2csr_square_run :
  ∃ rp, csc2csr A_csc A_csr = Done (0, converted rp)
        ∧ length rp = S (Z.to_nat (n_ A_csc))
        ∧ ∀ r : nat, (r ≤ Z.to_nat (n_ A_csc))%nat →
            rp !! r
            = Some (Z.of_nat (length (group_by_row r (csc_triples A_csc)))).
Proof.
  destruct A_valid as [Hfmt Hn Hm Hnnz Hcp HRl HVl HRr].
  unfold csc2csr, getNnz, getNumRows, getNumColumns.
  rewrite !bool_decide_eq_true_2 by congruence. simpl.
  destruct (convert_spec (m_ A_csc) (nnz_ A_csc) (h_row_data_ A_csc)
              ltac:(lia) Hnnz HRl A_rowidx_range (h_col_data_ A_csc)
              (h_val_data_ A_csc) Hcp HVl
              (mkArrays
                 (resize (Z.to_nat (n_ A_csr + 1)) 0 (h_row_data_ A_csr))
                 (resize (Z.to_nat (nnz_ A_csr)) 0 (h_col_data_ A_csr))
                 (resize (Z.to_nat (nnz_ A_csr)) real_zero (h_val_data_ A_csr))))
    as (s' & Hrun & (Hl1 & _) & Hrp & Hci & Hvs).
  { repeat split; simpl; rewrite length_resize; congruence. }
  rewrite Hrun. simpl. exists (rowPtrCsr s'). split; [| split].
  - unfold setUpdated_host, converted, grouped. simpl.
    rewrite Hci, Hvs, B_rows, B_cols, B_nnz, B_format, A_square. done.
  - rewrite Hl1, A_square. lia.
  - intros r Hr.
    specialize (Hrp (Z.of_nat r) ltac:(lia)). unfold rp_is in Hrp.
    rewrite Nat2Z.id in Hrp. rewrite Hrp. do 2 f_equal.
    symmetry.
    apply (by_rows_length (m_ A_csc) (nnz_ A_csc));
      try done; try apply A_rowidx_range; lia.
Qed.

Lemma csc_triples_range :
  Forall (λ t, 0 ≤ t_row t < n_ A_csc ∧ 0 ≤ t_col t < m_ A_csc)
         (csc_triples A_csc).
Proof.
  destruct A_valid as [Hfmt Hn Hm Hnnz Hcp HRl HVl HRr].
  apply Forall_forall. intros t Ht. split.
  - assert (t_row t ∈ t_row <$> csc_triples A_csc) as Hin
        by by apply list_elem_of_fmap_2.
    change (csc_triples A_csc)
      with (ts (m_ A_csc) (h_row_data_ A_csc) (h_col_data_ A_csc)
               (h_val_data_ A_csc)) in Hin.
    rewrite (ts_rows (m_ A_csc) (nnz_ A_csc)) in Hin
      by (done || apply A_rowidx_range || lia).
    rewrite Forall_forall in HRr. by apply HRr.
  - eapply (ts_col_range (m_ A_csc) (nnz_ A_csc));
      try done; try apply A_rowidx_range; lia.
Qed.

Lemma grouped_elem t : t ∈ grouped → t ∈ csc_triples A_csc.
Proof.
  unfold grouped, group_by_row. rewrite list_elem_of_In, in_flat_map.
  intros (r & _ & Hin). apply list_elem_of_In, list_elem_of_filter in Hin.
  apply Hin.
Qed.

(** The row segments of the result are the rows of the source. *)
Lemma converted_segment rp (r : nat) :
  (∀ r : nat, (r ≤ Z.to_nat (n_ A_csc))%nat →
     rp !! r = Some (Z.of_nat (length (group_by_row r (csc_triples A_csc))))) →
  (r < Z.to_nat (n_ A_csc))%nat →
  segment rp (t_col <$> grouped) (t_val <$> grouped) r
  = (λ t, (t_col t, t_val t))
      <$> filter (λ t, t_row t = Z.of_nat r) (csc_triples A_csc).
Proof.
  intros Hrp Hr. unfold segment, ptr_at.
  rewrite !Hrp by lia. simpl.
  rewrite zip_fmap_triples, slice_fmap. f_equal.
  apply (slice_blocks
           (λ r, filter (λ t, t_row t = Z.of_nat r) (csc_triples A_csc))).
  done.
Qed.

Lemma converted_triples rp :
  (∀ r : nat, (r ≤ Z.to_nat (n_ A_csc))%nat →
     rp !! r = Some (Z.of_nat (length (group_by_row r (csc_triples A_csc))))) →
  csr_triples (converted rp) = grouped.
Proof.
  intros Hrp. unfold csr_triples, grouped, group_by_row. simpl.
  apply flat_map_seq_ext. intros r Hr.
  rewrite (converted_segment rp r Hrp Hr). apply retag_row.
Qed.

Lemma grouped_length :
  length grouped = Z.to_nat (nnz_ A_csc).
Proof.
  destruct A_valid as [Hfmt Hn Hm Hnnz Hcp HRl HVl HRr].
  unfold grouped. rewrite group_by_row_perm.
  - change (csc_triples A_csc)
      with (ts (m_ A_csc) (h_row_data_ A_csc) (h_col_data_ A_csc)
               (h_val_data_ A_csc)).
    apply (ts_length (m_ A_csc) (nnz_ A_csc));
      try done; try apply A_rowidx_range; lia.
  - eapply Forall_impl; [exact csc_triples_range |]. simpl. lia.
Qed.

Lemma converted_valid rp :
  length rp = S (Z.to_nat (n_ A_csc)) →
  (∀ r : nat, (r ≤ Z.to_nat (n_ A_csc))%nat →
     rp !! r = Some (Z.of_nat (length (group_by_row r (csc_triples A_csc))))) →
  csr_valid (converted rp).
Proof.
  intros Hlen Hrp. pose proof (csc_rows _ A_valid) as Hn.
  split; simpl.
  - done.
  - repeat split.
    + rewrite Hlen. lia.
    + by rewrite Hrp by lia.
    + rewrite Hrp by lia. fold grouped. rewrite grouped_length.
      f_equal. pose proof (csc_nnz _ A_valid). lia.
    + intros i a b Ha Hb.
      assert (S i ≤ Z.to_nat (n_ A_csc))%nat as Hi.
      { apply lookup_lt_Some in Hb. lia. }
      rewrite Hrp in Ha, Hb by lia. simplify_eq.
      unfold group_by_row. rewrite seq_S, flat_map_app, length_app. lia.
  - by rewrite length_fmap, grouped_length.
  - by rewrite length_fmap, grouped_length.
  - apply Forall_fmap, Forall_forall. intros t Ht%grouped_elem.
    pose proof csc_triples_range as Hr. rewrite Forall_forall in Hr.
    apply (Hr t Ht).
Qed.

(** X1. On a valid square CSC source, and a CSR destination of the same
    dimensions and number of nonzeros, [csc2csr] returns 0 and leaves a
    valid CSR matrix of the same dimensions holding the source nonzeros:
    the same multiset of (row, column, value) triples. *)
Lemma csc2csr_square_correct :
  ∃ B, csc2csr A_csc A_csr = Done (0, B)
       ∧ csr_valid B
       ∧ n_ B = n_ A_csc ∧ m_ B = m_ A_csc ∧ nnz_ B = nnz_ A_csc
       ∧ csr_triples B ≡ₚ csc_triples A_csc.
Proof.
  destruct csc2csr_square_run as (rp & Hrun & Hlen & Hrp).
  exists (converted rp). split; [done |].
  split; [by apply converted_valid |]. repeat split.
  rewrite (converted_triples rp Hrp). apply group_by_row_perm.
  pose proof (csc_rows _ A_valid).
  eapply Forall_impl; [exact csc_triples_range |]. simpl. lia.
Qed.

Lemma grouped_lookup (r p : nat) :
  (r < Z.to_nat (n_ A_csc))%nat →
  (length (group_by_row r (csc_triples A_csc)) ≤ p
   < length (group_by_row (S r) (csc_triples A_csc)))%nat →
  grouped !! p
  = filter (λ t, t_row t = Z.of_nat r) (csc_triples A_csc)
      !! (p - length (group_by_row r (csc_triples A_csc)))%nat.
Proof.
  intros Hr Hp.
  rewrite <- (slice_blocks
    (λ r, filter (λ t, t_row t = Z.of_nat r) (csc_triples A_csc))
    (Z.to_nat (n_ A_csc)) r Hr) at 1.
  fold (group_by_row r (csc_triples A_csc)).
  fold (group_by_row (S r) (csc_triples A_csc)).
  fold (group_by_row (Z.to_nat (n_ A_csc)) (csc_triples A_csc)).
  rewrite slice_lookup, decide_True by lia. unfold grouped. f_equal. lia.
Qed.

(** X2. On a valid square CSC input the scatter is stable: every row
    segment of the destination lists the nonzeros of that source row in
    source (column) order, so of two nonzeros of one row the one from the
    smaller source column sits at the strictly smaller position of the
    segment. *)
Theorem csc2csr_stable :
  ∃ B, Csc2Csr.csc2csr A_csc A_csr = Done (0, B)
       ∧ rows_preserved A_csc B ∧ row_order_kept B.
Proof.
  destruct csc2csr_square_run as (rp & Hrun & Hlen & Hrp).
  exists (converted rp). split; [done |]. split.
  - intros r Hr. by apply converted_segment.
  - unfold row_order_kept. simpl. intros r p q c1 c2 Hr Hp Hq Hc1 Hc2 Hlt.
    unfold ptr_at in Hp, Hq. rewrite !Hrp in Hp, Hq by lia. simpl in Hp, Hq.
    rewrite list_lookup_fmap, grouped_lookup with (r := r) in Hc1 by lia.
    rewrite list_lookup_fmap, grouped_lookup with (r := r) in Hc2 by lia.
    set (F := filter (λ t, t_row t = Z.of_nat r) (csc_triples A_csc)) in *.
    set (lo := length (group_by_row r (csc_triples A_csc))) in *.
    destruct (F !! (p - lo)%nat) as [t1|] eqn:Ht1; [| done].
    destruct (F !! (q - lo)%nat) as [t2|] eqn:Ht2; [| done].
    simpl in Hc1, Hc2. simplify_eq.
    assert (StronglySorted col_le F) as Hs.
    { apply StronglySorted_filter, csc_triples_col_sorted. }
    destruct (decide (p < q)%nat) as [|Hge]; [done | exfalso].
    destruct (decide (p = q)) as [->|Hne]; [rewrite Ht1 in Ht2; simplify_eq; lia |].
    pose proof (StronglySorted_lookup_lt col_le F (q - lo) (p - lo) t2 t1 Hs
                  ltac:(lia) Ht2 Ht1) as Hle.
    unfold col_le in Hle. lia.
Qed.




End Csc2CsrSquare.

(** ** [csc2csr] on concrete matrices *)

(** A small finite value, a host-resident CSC matrix. *)
Definition fl (z : Z) : real_type :=
  match z with
  | Z0 => S754_zero false
  | Zpos p => S754_finite false p 0
  | Zneg p => S754_finite true p 0
  end.

Definition mkCsc (n m nnz : Z) (colptr rowidx : list Z) (vals : list real_type)
  : Sparse :=
  mkSparse COMPRESSED_SPARSE_COLUMN n m nnz rowidx colptr vals [] [] [] true false.

(** The 3 x 3 matrix [[1 0 4] [0 3 0] [2 0 5]]. *)
Definition square3 : Sparse :=
  mkCsc 3 3 5 [0; 2; 3; 5] [0; 2; 1; 0; 2] (fl <$> [1; 2; 3; 4; 5]).

(** The 1 x 2 matrix [[1 2]]. *)
Definition wide12 : Sparse := mkCsc 1 2 2 [0; 1; 2] [0; 0] (fl <$> [1; 2]).

(** The 2 x 1 matrices [[1] [2]] and [[1] [0]]. *)
Definition tall21 : Sparse := mkCsc 2 1 2 [0; 2] [0; 1] (fl <$> [1; 2]).
Definition tall21' : Sparse := mkCsc 2 1 1 [0; 1] [0] (fl <$> [1]).

(** The 5 x 2 matrix with rows [1 3], [0 0], [0 0], [0 0], [2 4]. *)
Definition tall52 : Sparse :=
  mkCsc 5 2 4 [0; 2; 4] [0; 4; 0; 4] (fl <$> [1; 2; 3; 4]).

Lemma ptr_valid_dec_0 (ptr : list Z) (k nnz : Z) :
  length ptr = Z.to_nat (k + 1) →
  ptr !! 0%nat = Some 0 →
  ptr !! Z.to_nat k = Some nnz →
  StronglySorted Z.le ptr →
  ptr_valid ptr k nnz.
Proof.
  intros Hlen H0 Hk Hs. repeat split; try done.
  intros i a b Ha Hb.
  apply (StronglySorted_lookup_lt Z.le ptr i (S i) a b); [done | lia | done | done].
Qed.

Lemma square3_valid : csc_valid square3.
Proof.
  split; simpl; unfold INT_MAX; try done; try lia.
  - apply ptr_valid_dec_0; try done. repeat (constructor; [| repeat constructor; lia]).
    constructor.
  - repeat constructor; lia.
Qed.

Lemma wide12_valid : csc_valid wide12.
Proof.
  split; simpl; unfold INT_MAX; try done; try lia.
  - apply ptr_valid_dec_0; try done. repeat (constructor; [| repeat constructor; lia]).
    constructor.
  - repeat constructor; lia.
Qed.

Lemma tall21_valid : csc_valid tall21.
Proof.
  split; simpl; unfold INT_MAX; try done; try lia.
  - apply ptr_valid_dec_0; try done. repeat (constructor; [| repeat constructor; lia]).
    constructor.
  - repeat constructor; lia.
Qed.

Lemma tall52_valid : csc_valid tall52.
Proof.
  split; simpl; unfold INT_MAX; try done; try lia.
  - apply ptr_valid_dec_0; try done. repeat (constructor; [| repeat constructor; lia]).
    constructor.
  - repeat constructor; lia.
Qed.

Example csc2csr_square3 :
  Csc2Csr.csc2csr square3 (new_Csr 3 3 5)
  = Done (0, mkSparse COMPRESSED_SPARSE_ROW 3 3 5
                [0; 2; 3; 5] [0; 2; 1; 0; 2] (fl <$> [1; 4; 3; 2; 5])
                [] [] [] true false).
Proof. vm_compute. reflexivity. Qed.

(** The same conversion on matrices with more columns than rows, or more
    rows than columns.  The source takes [n = A_csc->getNumColumns()] for
    the length of the row-pointer loops. *)

(** 1 x 2: the zeroing loop writes [rowPtrCsr[2]], one past the two
    allocated row pointers, whatever the destination held. *)
Lemma zero_row_pointers_overrun (s : Csc2Csr.csr_arrays) :
  length (Csc2Csr.rowPtrCsr s) = 2%nat →
  Csc2Csr.zero_row_pointers 2 s = Undefined.
Proof.
  destruct s as [[|a [|b [|c rp]]] ci vs]; simpl; intros Hlen; try done.
Qed.

Lemma csc2csr_wide12 rp ci vs :
  Csc2Csr.csc2csr wide12
    (mkSparse COMPRESSED_SPARSE_ROW 1 2 2 rp ci vs [] [] [] false false)
  = Undefined.
Proof.
  unfold Csc2Csr.csc2csr, Csc2Csr.convert. simpl.
  rewrite zero_row_pointers_overrun; [done |]. simpl. apply length_resize.
Qed.

(** 2 x 1 with two nonzeros: row 1 starts at [rowPtrCsr[1] = nnz], and its
    nonzero is written to [colIdxCsr[2]], one past the end. *)
Lemma convert_tall21 (s : Csc2Csr.csr_arrays) :
  length (Csc2Csr.rowPtrCsr s) = 3%nat →
  length (Csc2Csr.colIdxCsr s) = 2%nat →
  length (Csc2Csr.valuesCsr s) = 2%nat →
  Csc2Csr.convert 1 2 [0; 1] [0; 2] (fl <$> [1; 2]) s = Undefined.
Proof.
  destruct s as [[|a [|b [|c [|d rp]]]] [|e [|f [|g ci]]] [|h [|i [|j vs]]]];
    simpl; intros H1 H2 H3; try done.
Qed.

Lemma csc2csr_tall21 rp ci vs :
  Csc2Csr.csc2csr tall21
    (mkSparse COMPRESSED_SPARSE_ROW 2 1 2 rp ci vs [] [] [] false false)
  = Undefined.
Proof.
  unfold Csc2Csr.csc2csr. simpl.
  rewrite convert_tall21; [done | | |]; simpl; apply length_resize.
Qed.

(** 2 x 1 with one nonzero: the call returns 0 with the row pointers
    [0; 1; 0]. *)
Lemma csc2csr_tall21' :
  Csc2Csr.csc2csr tall21' (new_Csr 2 1 1)
  = Done (0, mkSparse COMPRESSED_SPARSE_ROW 2 1 1 [0; 1; 0] [0] [fl 1]
                [] [] [] true false).
Proof. vm_compute. reflexivity. Qed.

(** 5 x 2: the call returns 0 with the row pointers [0; 2; 2; 0; 4; 0]. *)
Lemma csc2csr_tall52 :
  Csc2Csr.csc2csr tall52 (new_Csr 5 2 4)
  = Done (0, mkSparse COMPRESSED_SPARSE_ROW 5 2 4
                [0; 2; 2; 0; 4; 0] [0; 1; 0; 1] (fl <$> [1; 3; 2; 4])
                [] [] [] true false).
Proof. vm_compute. reflexivity. Qed.

(** Outside the square case: on a valid 1 x 2 and on a valid 2 x 1 CSC
    matrix the call runs outside the destination arrays for every initial
    content of the destination, and on a second valid 2 x 1 matrix it
    returns 0 and leaves row pointers that are not a valid CSR pointer
    array. *)
Lemma csc2csr_rectangular :
  csc_valid wide12 ∧ csc_valid tall21
  ∧ (∀ rp ci vs,
       Csc2Csr.csc2csr wide12
         (mkSparse COMPRESSED_SPARSE_ROW 1 2 2 rp ci vs [] [] [] false false)
       = Undefined)
  ∧ (∀ rp ci vs,
       Csc2Csr.csc2csr tall21
         (mkSparse COMPRESSED_SPARSE_ROW 2 1 2 rp ci vs [] [] [] false false)
       = Undefined)
  ∧ (∃ B, Csc2Csr.csc2csr tall21' (new_Csr 2 1 1) = Done (0, B)
          ∧ h_row_data_ B = [0; 1; 0] ∧ ¬ csr_valid B).
Proof.
  split; [exact wide12_valid |]. split; [exact tall21_valid |].
  split; [exact csc2csr_wide12 |]. split; [exact csc2csr_tall21 |].
  eexists. split; [exact csc2csr_tall21' |]. split; [done |].
  intros [_ (_ & _ & Hlast & _) _ _ _]. simpl in Hlast. done.
Qed.



(** ** Vectors and the objects the solvers point to *)

Module Vec.
Import memory.

(** Modelled from the spec: the container [vector::Vector] (its source is
    not part of the embedded files): a size, a raw array in each memory
    space and a freshest-copy flag per space. *)
Record Vector := mkVector {
  n_size : Z;
  h_data_ : list real_type;
  d_data_ : list real_type;
  cpu_updated_ : bool;
  gpu_updated_ : bool
}.

(** Modelled from the spec: [getData(memspace)], the raw array accessor. *)
Definition getData (v : Vector) (sp : MemorySpace) : list real_type :=
  match sp with HOST => h_data_ v | DEVICE => d_data_ v end.

(** What a callee leaves in the array behind [getData(memspace)]. *)
Definition setData (v : Vector) (sp : MemorySpace) (data : list real_type)
  : Vector :=
  match sp with
  | HOST => mkVector (n_size v) data (d_data_ v) (cpu_updated_ v) (gpu_updated_ v)
  | DEVICE => mkVector (n_size v) (h_data_ v) data (cpu_updated_ v) (gpu_updated_ v)
  end.

(** Modelled from the spec: [setDataUpdated(memspace)] marks the copy in
    [memspace] as the freshest one. *)
Definition setDataUpdated (v : Vector) (sp : MemorySpace) : Vector :=
  match sp with
  | HOST => mkVector (n_size v) (h_data_ v) (d_data_ v) true false
  | DEVICE => mkVector (n_size v) (h_data_ v) (d_data_ v) false true
  end.

(** Modelled from the spec: [copyDataFrom(data, memspaceIn, memspaceOut)]
    copies [n_size] elements from the raw array [data] into the array of
    [memspaceOut]; reading past the end of [data] is undefined. *)
Definition copyDataFrom (v : Vector) (data : list real_type)
    (spOut : MemorySpace) : result Vector :=
  if decide (Z.of_nat (length data) < n_size v) then Undefined
  else Done (setDataUpdated (setData v spOut (take (Z.to_nat (n_size v)) data)) spOut).
End Vec.

(** Vectors live in a store and are passed by pointer; two pointers may
    name the same vector. *)
Abbreviation vector_ptr := nat.
Abbreviation vector_store := (gmap nat Vec.Vector).

Definition deref {K A} `{Countable K} (m : gmap K A) (p : K) : result A :=
  match m !! p with
  | Some a => Done a
  | None => Undefined
  end.

(** [p->...] through a pointer held in a member; [None] is [nullptr]. *)
Definition deref_member {A} (p : option A) : result A :=
  match p with
  | Some a => Done a
  | None => Undefined
  end.

(** The heap of [index_type] arrays made by [new index_type[n]]. *)
Abbreviation index_heap := (gmap positive (list Z)).

(** [new index_type[n]]: a block that was not allocated before.  Its
    content is unspecified; zeros stand for it. *)
Definition new_index_array (h : index_heap) (n : Z)
  : result (positive * index_heap) :=
  if decide (n < 0) then Abort
  else let p := fresh (dom h) in
       Done (p, <[p := replicate (Z.to_nat n) 0]> h).

(** [delete [] p]; deleting [nullptr] does nothing, deleting a block that
    is not live is undefined. *)
Definition delete_index_array (h : index_heap) (p : option positive)
  : result index_heap :=
  match p with
  | None => Done h
  | Some p => if decide (is_Some (h !! p)) then Done (delete p h) else Undefined
  end.

(** [std::memcpy(dst, src, n * sizeof(index_type))] into a heap block. *)
Definition memcpy_index (h : index_heap) (dst : positive) (src : list Z) (n : Z)
  : result index_heap :=
  blk ← deref h dst;
  if decide (0 ≤ n ≤ Z.of_nat (length src) ∧ n ≤ Z.of_nat (length blk))
  then Done (<[dst := take (Z.to_nat n) src ++ drop (Z.to_nat n) blk]> h)
  else Undefined.

(** C library conversions used by [setCliParam]. *)
Record libc := mkLibc {
  atof : string → real_type;
  atoi : string → Z
}.

(** What [printCliParam] streams to [std::cout], each value followed by a
    newline. *)
Inductive printed :=
| print_real (x : real_type)
| print_int (z : Z)
| print_bool (b : bool).

(** ** [LinSolverDirectKLU] *)

Module KLU.
Import memory.

(** The fields of [klu_common] the solver sets or reads. *)
Record klu_common := mkCommon {
  btf : Z;
  scale : Z;
  ordering : Z;
  tol : real_type;
  halt_if_singular : bool;
  status : Z;
  rcond : real_type
}.

(** The KLU library: an external collaborator.  Its objects are opaque
    but for the fields the solver reads ([Symbolic->Q], [Numeric->Pnum],
    [Numeric->lnz], [Numeric->unz]). *)
Record klu_library := mkLibrary {
  klu_symbolic : Type;
  klu_numeric : Type;
  symbolic_Q : klu_symbolic → list Z;
  numeric_Pnum : klu_numeric → list Z;
  numeric_lnz : klu_numeric → Z;
  numeric_unz : klu_numeric → Z;
  klu_defaults : klu_common;
  klu_analyze : Z → list Z → list Z → klu_common
                → option klu_symbolic * klu_common;
  klu_factor : list Z → list Z → list real_type → option klu_symbolic
               → klu_common → option klu_numeric * klu_common;
  klu_refactor : list Z → list Z → list real_type → option klu_symbolic
                 → option klu_numeric → klu_common
                 → Z * option klu_numeric * klu_common;
  (* status, the right-hand side overwritten with the solution, common *)
  klu_solve : option klu_symbolic → option klu_numeric → Z → Z
              → list real_type → klu_common
              → Z * list real_type * klu_common;
  (* the column pointers, row indices and values of L, then of U *)
  klu_extract : klu_numeric → option klu_symbolic
                → (list Z * list Z * list real_type)
                  * (list Z * list Z * list real_type)
}.

Inductive ParamaterIDs := PIVOT_TOL | ORDERING | HALT_IF_SINGULAR.

Section Solver.
Variable lib : klu_library.
Variable c : libc.

Record t := mkSolver {
  A_ : option Sparse;
  Symbolic_ : option (klu_symbolic lib);
  Numeric_ : option (klu_numeric lib);
  Common_ : klu_common;
  L_ : option Sparse;
  U_ : option Sparse;
  P_ : option positive;
  Q_ : option positive;
  factors_extracted_ : bool;
  pivot_threshold_tol_ : real_type;
  ordering_ : Z;
  halt_if_singular_ : bool;
  params_list_ : gmap string ParamaterIDs
}.

Definition set_A_ (s : t) v :=
  mkSolver v (Symbolic_ s) (Numeric_ s) (Common_ s) (L_ s) (U_ s) (P_ s)
    (Q_ s) (factors_extracted_ s) (pivot_threshold_tol_ s) (ordering_ s)
    (halt_if_singular_ s) (params_list_ s).
Definition set_Symbolic_ (s : t) v :=
  mkSolver (A_ s) v (Numeric_ s) (Common_ s) (L_ s) (U_ s) (P_ s)
    (Q_ s) (factors_extracted_ s) (pivot_threshold_tol_ s) (ordering_ s)
    (halt_if_singular_ s) (params_list_ s).
Definition set_Numeric_ (s : t) v :=
  mkSolver (A_ s) (Symbolic_ s) v (Common_ s) (L_ s) (U_ s) (P_ s)
    (Q_ s) (factors_extracted_ s) (pivot_threshold_tol_ s) (ordering_ s)
    (halt_if_singular_ s) (params_list_ s).
Definition set_Common_ (s : t) v :=
  mkSolver (A_ s) (Symbolic_ s) (Numeric_ s) v (L_ s) (U_ s) (P_ s)
    (Q_ s) (factors_extracted_ s) (pivot_threshold_tol_ s) (ordering_ s)
    (halt_if_singular_ s) (params_list_ s).
(** [factors_extracted_ = false; delete L_; L_ = nullptr; delete U_;
    U_ = nullptr] *)
Definition drop_factors (s : t) :=
  mkSolver (A_ s) (Symbolic_ s) (Numeric_ s) (Common_ s) None None (P_ s)
    (Q_ s) false (pivot_threshold_tol_ s) (ordering_ s)
    (halt_if_singular_ s) (params_list_ s).
Definition set_P_ (s : t) v :=
  mkSolver (A_ s) (Symbolic_ s) (Numeric_ s) (Common_ s) (L_ s) (U_ s) v
    (Q_ s) (factors_extracted_ s) (pivot_threshold_tol_ s) (ordering_ s)
    (halt_if_singular_ s) (params_list_ s).
Definition set_Q_ (s : t) v :=
  mkSolver (A_ s) (Symbolic_ s) (Numeric_ s) (Common_ s) (L_ s) (U_ s) (P_ s)
    v (factors_extracted_ s) (pivot_threshold_tol_ s) (ordering_ s)
    (halt_if_singular_ s) (params_list_ s).

(** [initParamList] *)
Definition initParamList : gmap string ParamaterIDs :=
  <["halt_if_singular" := HALT_IF_SINGULAR]>
    (<["ordering" := ORDERING]> (<["pivot_tol" := PIVOT_TOL]> ∅)).

(** Modelled from the spec: [getParamId] of the [LinSolver] base class
    (not part of the embedded files), the string-id-to-enum mapping.
    An id that is not registered yields a value that matches no
    [case] label; [None] stands for it. *)
Definition getParamId (s : t) (id : string) : option ParamaterIDs :=
  params_list_ s !! id.

(** [setup(A, L, U, P, Q, rhs)] *)
Definition setup (s : t) (A : Sparse) : Z * t := (0, set_A_ s (Some A)).

(** [analyze()] *)
Definition analyze (s : t) : result (Z * t) :=
  (* klu_free_symbolic on the previous object, then a new analysis *)
  A ← deref_member (A_ s);
  let '(sym, common) :=
    klu_analyze lib (getNumRows A) (getRowData A HOST) (getColData A HOST)
      (Common_ s) in
  let s := drop_factors (set_Common_ (set_Symbolic_ s sym) common) in
  Done (if sym is None then 1 else 0, s).

(** [factorize()] *)
Definition factorize (s : t) : result (Z * t) :=
  A ← deref_member (A_ s);
  let '(num, common) :=
    klu_factor lib (getRowData A HOST) (getColData A HOST) (getValues A HOST)
      (Symbolic_ s) (Common_ s) in
  let s := drop_factors (set_Common_ (set_Numeric_ s num) common) in
  Done (if num is None then 1 else 0, s).

(** [refactorize()] *)
Definition refactorize (s : t) : result (Z * t) :=
  A ← deref_member (A_ s);
  let '(kluStatus, num, common) :=
    klu_refactor lib (getRowData A HOST) (getColData A HOST)
      (getValues A HOST) (Symbolic_ s) (Numeric_ s) (Common_ s) in
  let s := drop_factors (set_Common_ (set_Numeric_ s num) common) in
  Done (if decide (kluStatus = 0) then 1 else 0, s).

(** [solve(rhs, x)] *)
Definition solve (s : t) (rhs x : vector_ptr) (vs : vector_store)
  : result (Z * t * vector_store) :=
  v_rhs ← deref vs rhs;
  v_x ← deref vs x;
  v_x ← Vec.copyDataFrom v_x (Vec.getData v_rhs HOST) HOST;
  let v_x := Vec.setDataUpdated v_x HOST in
  A ← deref_member (A_ s);
  let '(kluStatus, sol, common) :=
    klu_solve lib (Symbolic_ s) (Numeric_ s) (getNumRows A) 1
      (Vec.getData v_x HOST) (Common_ s) in
  let vs := <[x := Vec.setData v_x HOST sol]> vs in
  Done (if decide (kluStatus = 0) then 1 else 0, set_Common_ s common, vs).

(** [solve(rhs)]: not implemented; logs an error. *)
Definition solve_in_place (s : t) (rhs : vector_ptr) (vs : vector_store)
  : result (Z * t * vector_store) :=
  Done (1, s, vs).

(** The extraction shared by [getLFactor()] and [getUFactor()]: when
    the factors are not extracted yet, two CSC matrices are made and
    filled by [klu_extract], and [factors_extracted_] is set. *)
Definition extract_factors (s : t) : result t :=
  if factors_extracted_ s then Done s
  else
    num ← deref_member (Numeric_ s);
    let nnzL := numeric_lnz lib num in
    let nnzU := numeric_unz lib num in
    A ← deref_member (A_ s);
    let '((Lp, Li, Lx), (Up, Ui, Ux)) := klu_extract lib num (Symbolic_ s) in
    let L := mkSparse COMPRESSED_SPARSE_COLUMN (getNumRows A)
               (getNumColumns A) nnzL Li Lp Lx [] [] [] true false in
    let U := mkSparse COMPRESSED_SPARSE_COLUMN (getNumRows A)
               (getNumColumns A) nnzU Ui Up Ux [] [] [] true false in
    Done (mkSolver (A_ s) (Symbolic_ s) (Numeric_ s) (Common_ s) (Some L)
            (Some U) (P_ s) (Q_ s) true (pivot_threshold_tol_ s)
            (ordering_ s) (halt_if_singular_ s) (params_list_ s)).

(** [getLFactor()], [getUFactor()] *)
Definition getLFactor (s : t) : result (option Sparse * t) :=
  s ← extract_factors s; Done (L_ s, s).
Definition getUFactor (s : t) : result (option Sparse * t) :=
  s ← extract_factors s; Done (U_ s, s).

(** [getPOrdering()] *)
Definition getPOrdering (s : t) (h : index_heap)
  : result (option positive * t * index_heap) :=
  match Numeric_ s with
  | Some num =>
      A ← deref_member (A_ s);
      '(p, h) ← new_index_array h (getNumRows A);
      let s := set_P_ s (Some p) in
      h ← memcpy_index h p (numeric_Pnum lib num) (getNumRows A);
      Done (Some p, s, h)
  | None => Done (None, s, h)
  end.

(** [getQOrdering()] *)
Definition getQOrdering (s : t) (h : index_heap)
  : result (option positive * t * index_heap) :=
  match Numeric_ s with
  | Some _ =>
      A ← deref_member (A_ s);
      '(q, h) ← new_index_array h (getNumRows A);
      let s := set_Q_ s (Some q) in
      sym ← deref_member (Symbolic_ s);
      h ← memcpy_index h q (symbolic_Q lib sym) (getNumRows A);
      Done (Some q, s, h)
  | None => Done (None, s, h)
  end.

(** [~LinSolverDirectKLU()]: what is left of the heap of index
    arrays.  ([klu_free_symbolic] and [klu_free_numeric] release
    library objects.) *)
Definition destructor (s : t) (h : index_heap) : result index_heap :=
  if factors_extracted_ s then
    h ← delete_index_array h (P_ s);
    delete_index_array h (Q_ s)
  else Done h.

(** [setPivotThreshold], [setOrdering], [setHaltIfSingular] *)
Definition setPivotThreshold (s : t) (tol' : real_type) : t :=
  let cm := Common_ s in
  mkSolver (A_ s) (Symbolic_ s) (Numeric_ s)
    (mkCommon (btf cm) (scale cm) (ordering cm) tol' (halt_if_singular cm)
       (status cm) (rcond cm))
    (L_ s) (U_ s) (P_ s) (Q_ s) (factors_extracted_ s) tol' (ordering_ s)
    (halt_if_singular_ s) (params_list_ s).
Definition setOrdering (s : t) (ord : Z) : t :=
  let cm := Common_ s in
  mkSolver (A_ s) (Symbolic_ s) (Numeric_ s)
    (mkCommon (btf cm) (scale cm) ord (tol cm) (halt_if_singular cm)
       (status cm) (rcond cm))
    (L_ s) (U_ s) (P_ s) (Q_ s) (factors_extracted_ s)
    (pivot_threshold_tol_ s) ord (halt_if_singular_ s) (params_list_ s).
Definition setHaltIfSingular (s : t) (isHalt : bool) : t :=
  let cm := Common_ s in
  mkSolver (A_ s) (Symbolic_ s) (Numeric_ s)
    (mkCommon (btf cm) (scale cm) (ordering cm) (tol cm) isHalt
       (status cm) (rcond cm))
    (L_ s) (U_ s) (P_ s) (Q_ s) (factors_extracted_ s)
    (pivot_threshold_tol_ s) (ordering_ s) isHalt (params_list_ s).

(** [setCliParam(id, value)] *)
Definition setCliParam (s : t) (id value : string) : Z * t :=
  match getParamId s id with
  | Some PIVOT_TOL => (0, setPivotThreshold s (atof c value))
  | Some ORDERING => (0, setOrdering s (atoi c value))
  | Some HALT_IF_SINGULAR =>
      (0, setHaltIfSingular s (bool_decide (value = "yes")))
  | None => (0, s)   (* "Setting parameter failed!" *)
  end.

(** [getCliParamString(id)] *)
Definition getCliParamString (s : t) (id : string) : string :=
  match getParamId s id with
  | _ => ""
  end.

(** [getCliParamInt(id)] *)
Definition getCliParamInt (s : t) (id : string) : Z :=
  match getParamId s id with
  | Some ORDERING => ordering_ s
  | _ => -1
  end.

(** [getCliParamReal(id)] *)
Definition getCliParamReal (s : t) (id : string) : real_type :=
  match getParamId s id with
  | Some PIVOT_TOL => pivot_threshold_tol_ s
  | _ => quiet_NaN
  end.

(** [getCliParamBool(id)] *)
Definition getCliParamBool (s : t) (id : string) : bool :=
  match getParamId s id with
  | Some HALT_IF_SINGULAR => halt_if_singular_ s
  | _ => false
  end.

(** [printCliParam(id)]: the return code and what is printed. *)
Definition printCliParam (s : t) (id : string) : Z * list printed :=
  match getParamId s id with
  | Some PIVOT_TOL => (0, [print_real (pivot_threshold_tol_ s)])
  | Some ORDERING => (0, [print_int (ordering_ s)])
  | Some HALT_IF_SINGULAR => (0, [print_bool (halt_if_singular_ s)])
  | None => (1, [])   (* "Trying to print unknown parameter" *)
  end.

(** The constructor.  [klu_defaults] fills [Common_], of which the
    solver then sets five fields.  The initial values of
    [pivot_threshold_tol_], [ordering_] and [halt_if_singular_] come from
    the class declaration, where the pointer members start as null
    pointers and [factors_extracted_] as [false]. *)
Definition constructor (tol0 : real_type) (ord0 : Z) (halt0 : bool) : t :=
  let cm := klu_defaults lib in
  mkSolver None None None
    (mkCommon 0 (-1) ord0 tol0 halt0 (status cm) (rcond cm))
    None None None None false tol0 ord0 halt0 initParamList.

(** [getMatrixConditionNumber()]: [klu_rcond] leaves its estimate in
    [Common_.rcond]. *)
Definition getMatrixConditionNumber
    (klu_rcond : option (klu_symbolic lib) → option (klu_numeric lib)
                 → klu_common → klu_common)
    (s : t) : real_type * t :=
  let cm := klu_rcond (Symbolic_ s) (Numeric_ s) (Common_ s) in
  (rcond cm, set_Common_ s cm).
End Solver.
End KLU.

(** ** Device memory primitives *)

(** Modelled from the spec: [allocateArrayOnDevice(&p, n)], a device array
    of [n] elements whose content is unspecified; the filler stands for
    it. *)
Definition allocateArrayOnDevice {A} (filler : A) (n : Z) : option (list A) :=
  Some (replicate (Z.to_nat n) filler).

(** Modelled from the spec: [copyArrayHostToDevice(dst, src, n)] and
    [copyArrayDeviceToDevice(dst, src, n)]: [n] elements of [src] over the
    front of [dst]. *)
Definition copyArray {A} (dst : option (list A)) (src : list A) (n : Z)
  : result (option (list A)) :=
  d ← deref_member dst;
  if decide (0 ≤ n ≤ Z.of_nat (length src) ∧ n ≤ Z.of_nat (length d))
  then Done (Some (take (Z.to_nat n) src ++ drop (Z.to_nat n) d))
  else Undefined.

(** ** [LinSolverDirectCuSolverRf] *)

Module CuSolverRf.
Import memory.

(** Constants of the cuSOLVER header. *)
Definition CUSOLVERRF_RESET_VALUES_FAST_MODE_ON : Z := 1.
Definition CUSOLVERRF_FACTORIZATION_ALG0 : Z := 0.
Definition CUSOLVERRF_TRIANGULAR_SOLVE_ALG1 : Z := 1.

(** The cuSolverRf library: an external collaborator.  [rf_data] is what
    a handle points to, [rf_created] what [cusolverRfCreate] puts there.
    Every operation returns its status. *)
Record cusolverRf_library := mkLibrary {
  rf_data : Type;
  rf_created : rf_data;
  cusolverRfSetResetValuesFastMode : rf_data → Z → Z * rf_data;
  cusolverRfSetupDevice :
    Z → Z → list Z → list Z → list real_type →
    Z → list Z → list Z → list real_type →
    Z → list Z → list Z → list real_type →
    option (list Z) → option (list Z) → rf_data → Z * rf_data;
  cusolverRfAnalyze : rf_data → Z * rf_data;
  cusolverRfSetAlgs : rf_data → Z → Z → rf_data;
  cusolverRfResetValues :
    Z → Z → list Z → list Z → list real_type →
    option (list Z) → option (list Z) → rf_data → Z * rf_data;
  cusolverRfRefactor : rf_data → Z * rf_data;
  (* handle, P, Q, nrhs, Temp, ldt, XF, ldxf: status, Temp, XF with the
     right-hand side overwritten by the solution *)
  cusolverRfSolve :
    rf_data → option (list Z) → option (list Z) → Z →
    option (list real_type) → Z → list real_type → Z →
    Z * option (list real_type) * list real_type;
  cusolverRfSetNumericProperties : rf_data → real_type → real_type → Z * rf_data
}.

Inductive ParamaterIDs := ZERO_PIVOT | PIVOT_BOOST.

(** The live cuSolverRf handles. *)
Abbreviation handles lib := (gmap positive (rf_data lib)).

Section Solver.
Variable lib : cusolverRf_library.
Variable c : libc.

(** [cusolverRfCreate(&handle)] *)
Definition cusolverRfCreate (w : handles lib) : positive * handles lib :=
  let h := fresh (dom w) in (h, <[h := rf_created lib]> w).

(** [cusolverRfDestroy(handle)] *)
Definition cusolverRfDestroy (w : handles lib) (h : positive) : result (handles lib) :=
  if decide (is_Some (w !! h)) then Done (delete h w) else Undefined.

(** A library call on the object behind a handle. *)
Definition on_handle (w : handles lib) (h : positive)
    (op : rf_data lib → Z * rf_data lib) : result (Z * handles lib) :=
  d ← deref w h;
  let '(st, d) := op d in
  Done (st, <[h := d]> w).

Record t := mkSolver {
  A_ : option Sparse;
  handle_cusolverrf_ : positive;
  status_cusolverrf_ : Z;
  d_P_ : option (list Z);
  d_Q_ : option (list Z);
  d_T_ : option (list real_type);
  setup_completed_ : bool;
  zero_pivot_ : real_type;
  pivot_boost_ : real_type;
  params_list_ : gmap string ParamaterIDs
}.

Definition set_A_ (s : t) v :=
  mkSolver v (handle_cusolverrf_ s) (status_cusolverrf_ s) (d_P_ s) (d_Q_ s)
    (d_T_ s) (setup_completed_ s) (zero_pivot_ s) (pivot_boost_ s)
    (params_list_ s).
Definition set_handle (s : t) v :=
  mkSolver (A_ s) v (status_cusolverrf_ s) (d_P_ s) (d_Q_ s)
    (d_T_ s) (setup_completed_ s) (zero_pivot_ s) (pivot_boost_ s)
    (params_list_ s).
Definition set_status (s : t) v :=
  mkSolver (A_ s) (handle_cusolverrf_ s) v (d_P_ s) (d_Q_ s)
    (d_T_ s) (setup_completed_ s) (zero_pivot_ s) (pivot_boost_ s)
    (params_list_ s).
Definition set_buffers (s : t) p q tmp :=
  mkSolver (A_ s) (handle_cusolverrf_ s) (status_cusolverrf_ s) p q
    tmp (setup_completed_ s) (zero_pivot_ s) (pivot_boost_ s)
    (params_list_ s).
Definition set_d_T_ (s : t) tmp := set_buffers s (d_P_ s) (d_Q_ s) tmp.
Definition set_setup_completed (s : t) v :=
  mkSolver (A_ s) (handle_cusolverrf_ s) (status_cusolverrf_ s) (d_P_ s)
    (d_Q_ s) (d_T_ s) v (zero_pivot_ s) (pivot_boost_ s) (params_list_ s).
Definition set_pivots (s : t) zp pb :=
  mkSolver (A_ s) (handle_cusolverrf_ s) (status_cusolverrf_ s) (d_P_ s)
    (d_Q_ s) (d_T_ s) (setup_completed_ s) zp pb (params_list_ s).

(** [initParamList] *)
Definition initParamList : gmap string ParamaterIDs :=
  <["pivot_boost" := PIVOT_BOOST]> (<["zero_pivot" := ZERO_PIVOT]> ∅).

(** Modelled from the spec: [getParamId] of the [LinSolver] base class
    (not part of the embedded files), the string-id-to-enum mapping.
    An id that is not registered yields a value that matches no
    [case] label; [None] stands for it. *)
Definition getParamId (s : t) (id : string) : option ParamaterIDs :=
  params_list_ s !! id.

(** The constructor; the initial values of [zero_pivot_] and
    [pivot_boost_] come from the class declaration. *)
Definition constructor (zp pb : real_type) (w : handles lib) : t * handles lib :=
  let '(h, w) := cusolverRfCreate w in
  (mkSolver None h 0 None None None false zp pb initParamList, w).

(** The [switch (L->getSparseFormat())] of [setup]: the factors in CSR
    format, or [None] when the format is not recognized. *)
Definition factors_to_csr (L U : Sparse)
  : result (option (Sparse * Sparse)) :=
  match getSparseFormat L with
  | COMPRESSED_SPARSE_COLUMN =>
      let L_csr := new_Csr (getNumRows L) (getNumColumns L) (getNnz L) in
      let U_csr := new_Csr (getNumRows U) (getNumColumns U) (getNnz U) in
      '(_, L_csr) ← Csc2Csr.csc2csr L L_csr;
      '(_, U_csr) ← Csc2Csr.csc2csr U U_csr;
      Done (Some (syncData_device L_csr, syncData_device U_csr))
  | COMPRESSED_SPARSE_ROW => Done (Some (L, U))
  | _ => Done None
  end.

(** [setAlgorithms(fact_alg, solve_alg)] *)
Definition setAlgorithms (s : t) (w : handles lib) (fact_alg solve_alg : Z)
  : result (handles lib) :=
  '(_, w) ← on_handle w (handle_cusolverrf_ s)
              (λ d, (0, cusolverRfSetAlgs lib d fact_alg solve_alg));
  Done w.

(** [setup(A, L, U, P, Q, rhs)] *)
Definition setup (s : t) (w : handles lib) (A L U : Sparse) (P Q : list Z)
  : result (Z * t * handles lib) :=
  _ ← assert_that (bool_decide (getSparseFormat A = COMPRESSED_SPARSE_ROW));
  _ ← assert_that (bool_decide (getSparseFormat L = getSparseFormat U));
  let error_sum := 0 in
  let s := set_A_ s (Some A) in
  let n := getNumRows A in
  '(s, w) ← (if setup_completed_ s then
               w ← cusolverRfDestroy w (handle_cusolverrf_ s);
               let '(h, w) := cusolverRfCreate w in
               Done (set_handle s h, w)
             else Done (s, w));
  csr ← factors_to_csr L U;
  match csr with
  | None => Done (1, s, w)
  | Some (L_csr, U_csr) =>
      let p := if d_P_ s is None then allocateArrayOnDevice 0 n else d_P_ s in
      let q := if d_Q_ s is None then allocateArrayOnDevice 0 n else d_Q_ s in
      let tmp := allocateArrayOnDevice real_zero n in
      p ← copyArray p P n;
      q ← copyArray q Q n;
      let s := set_buffers s p q tmp in
      '(st, w) ← on_handle w (handle_cusolverrf_ s)
         (λ d, cusolverRfSetResetValuesFastMode lib d
                 CUSOLVERRF_RESET_VALUES_FAST_MODE_ON);
      let error_sum := int_add error_sum st in
      '(st, w) ← on_handle w (handle_cusolverrf_ s)
         (cusolverRfSetupDevice lib n (getNnz A)
            (getRowData A DEVICE) (getColData A DEVICE) (getValues A DEVICE)
            (getNnz L_csr) (getRowData L_csr DEVICE)
            (getColData L_csr DEVICE) (getValues L_csr DEVICE)
            (getNnz U_csr) (getRowData U_csr DEVICE)
            (getColData U_csr DEVICE) (getValues U_csr DEVICE)
            (d_P_ s) (d_Q_ s));
      let error_sum := int_add error_sum st in
      '(st, w) ← on_handle w (handle_cusolverrf_ s) (cusolverRfAnalyze lib);
      let error_sum := int_add error_sum st in
      let s := set_status s st in
      w ← setAlgorithms s w CUSOLVERRF_FACTORIZATION_ALG0
            CUSOLVERRF_TRIANGULAR_SOLVE_ALG1;
      let s := set_setup_completed s true in
      Done (error_sum, s, w)
  end.

(** [refactorize()].  The handle is a positive name here, never null,
    so [assert(handle_cusolverrf_ != nullptr)] always passes. *)
Definition refactorize (s : t) (w : handles lib) : result (Z * t * handles lib) :=
  let error_sum := 0 in
  _ ← assert_that (bool_decide (is_Some (A_ s)));
  A ← deref_member (A_ s);
  _ ← assert_that (bool_decide (getNumRows A > 0));
  _ ← assert_that (bool_decide (getNnz A > 0));
  _ ← assert_that (bool_decide (is_Some (d_P_ s)));
  _ ← assert_that (bool_decide (is_Some (d_Q_ s)));
  '(st, w) ← on_handle w (handle_cusolverrf_ s)
     (cusolverRfResetValues lib (getNumRows A) (getNnz A)
        (getRowData A DEVICE) (getColData A DEVICE) (getValues A DEVICE)
        (d_P_ s) (d_Q_ s));
  let error_sum := int_add error_sum st in
  '(st, w) ← on_handle w (handle_cusolverrf_ s) (cusolverRfRefactor lib);
  let error_sum := int_add error_sum st in
  Done (error_sum, set_status s st, w).

(** The call of [cusolverRfSolve] shared by the two [solve] methods,
    on the raw device array [xf]. *)
Definition rf_solve (s : t) (w : handles lib) (xf : list real_type)
  : result (Z * t * list real_type) :=
  d ← deref w (handle_cusolverrf_ s);
  A ← deref_member (A_ s);
  let '(st, tmp, xf) :=
    cusolverRfSolve lib d (d_P_ s) (d_Q_ s) 1 (d_T_ s) (getNumRows A)
      xf (getNumRows A) in
  Done (st, set_status (set_d_T_ s tmp) st, xf).

(** [solve(rhs)] *)
Definition solve_in_place (s : t) (w : handles lib) (rhs : vector_ptr)
    (vs : vector_store) : result (Z * t * vector_store) :=
  v_rhs ← deref vs rhs;
  '(st, s, xf) ← rf_solve s w (Vec.getData v_rhs DEVICE);
  Done (st, s, <[rhs := Vec.setData v_rhs DEVICE xf]> vs).

(** [solve(rhs, x)] *)
Definition solve (s : t) (w : handles lib) (rhs x : vector_ptr)
    (vs : vector_store) : result (Z * t * vector_store) :=
  v_rhs ← deref vs rhs;
  v_x ← deref vs x;
  v_x ← Vec.copyDataFrom v_x (Vec.getData v_rhs DEVICE) DEVICE;
  let v_x := Vec.setDataUpdated v_x DEVICE in
  '(st, s, xf) ← rf_solve s w (Vec.getData v_x DEVICE);
  Done (st, s, <[x := Vec.setData v_x DEVICE xf]> vs).

(** [setNumericalProperties(nzero, nboost)] *)
Definition setNumericalProperties (s : t) (w : handles lib)
    (nzero nboost : real_type) : result (Z * t * handles lib) :=
  '(st, w) ← on_handle w (handle_cusolverrf_ s)
     (λ d, cusolverRfSetNumericProperties lib d nzero nboost);
  Done (st, set_status s st, w).

(** [setCliParam(id, value)] *)
Definition setCliParam (s : t) (w : handles lib) (id value : string)
  : result (Z * t * handles lib) :=
  match getParamId s id with
  | Some ZERO_PIVOT =>
      let s := set_pivots s (atof c value) (pivot_boost_ s) in
      '(_, s, w) ← setNumericalProperties s w (zero_pivot_ s) (pivot_boost_ s);
      Done (0, s, w)
  | Some PIVOT_BOOST =>
      let s := set_pivots s (zero_pivot_ s) (atof c value) in
      '(_, s, w) ← setNumericalProperties s w (zero_pivot_ s) (pivot_boost_ s);
      Done (0, s, w)
  | None => Done (0, s, w)   (* "Setting parameter failed!" *)
  end.

(** [getCliParamString(id)] *)
Definition getCliParamString (s : t) (id : string) : string :=
  match getParamId s id with
  | _ => ""
  end.

(** [getCliParamInt(id)] *)
Definition getCliParamInt (s : t) (id : string) : Z :=
  match getParamId s id with
  | _ => -1
  end.

(** [getCliParamReal(id)] *)
Definition getCliParamReal (s : t) (id : string) : real_type :=
  match getParamId s id with
  | Some ZERO_PIVOT => zero_pivot_ s
  | Some PIVOT_BOOST => pivot_boost_ s
  | None => quiet_NaN
  end.

(** [getCliParamBool(id)] *)
Definition getCliParamBool (s : t) (id : string) : bool :=
  match getParamId s id with
  | _ => false
  end.

(** [printCliParam(id)]: the return code and what is printed. *)
Definition printCliParam (s : t) (id : string) : Z * list printed :=
  match getParamId s id with
  | Some ZERO_PIVOT => (0, [print_real (zero_pivot_ s)])
  | Some PIVOT_BOOST => (0, [print_real (pivot_boost_ s)])
  | None => (1, [])   (* "Trying to print unknown parameter" *)
  end.

(** [~LinSolverDirectCuSolverRf()]: the handle is destroyed (and the
    device buffers [d_P_], [d_Q_], [d_T_] are released). *)
Definition destructor (s : t) (w : handles lib) : result (handles lib) :=
  cusolverRfDestroy w (handle_cusolverrf_ s).
End Solver.
End CuSolverRf.

(** ** [LinSolverDirectRocSparseILU0] *)

Module RocSparseILU0.
Import memory.

Inductive rocsparse_fill_mode :=
| rocsparse_fill_mode_lower | rocsparse_fill_mode_upper.
Inductive rocsparse_diag_type :=
| rocsparse_diag_type_non_unit | rocsparse_diag_type_unit.

(** A matrix descriptor, as far as the solver sets it. *)
Record mat_descr := mkDescr {
  fill_mode : rocsparse_fill_mode;
  diag_type : rocsparse_diag_type
}.

(** [constants::ONE] *)
Definition ONE : real_type := S754_finite false 1 0.

(** The rocSPARSE library: an external collaborator.  [mat_info] is the
    opaque analysis data; every operation returns its status.  The
    arguments are: n, nnz, descriptor, values, row pointers, column
    indices, info. *)
Record rocsparse_library := mkLibrary {
  mat_info : Type;
  created_descr : mat_descr;      (* after rocsparse_create_mat_descr *)
  created_info : mat_info;        (* after rocsparse_create_mat_info *)
  rocsparse_dcsrilu0_buffer_size :
    Z → Z → mat_descr → list real_type → list Z → list Z → mat_info
    → Z * Z * mat_info;
  rocsparse_dcsrsv_buffer_size :
    Z → Z → mat_descr → list real_type → list Z → list Z → mat_info
    → Z * Z * mat_info;
  rocsparse_dcsrilu0_analysis :
    Z → Z → mat_descr → list real_type → list Z → list Z → mat_info
    → Z * mat_info;
  rocsparse_dcsrsv_analysis :
    Z → Z → mat_descr → list real_type → list Z → list Z → mat_info
    → Z * mat_info;
  (* the values are factored in place *)
  rocsparse_dcsrilu0 :
    Z → Z → mat_descr → list real_type → list Z → list Z → mat_info
    → Z * list real_type * mat_info;
  (* n, nnz, alpha, descriptor, ..., info, x, y: the status and y
     overwritten with the solution of the triangular system for x *)
  rocsparse_dcsrsv_solve :
    Z → Z → real_type → mat_descr → list real_type → list Z → list Z
    → mat_info → list real_type → list real_type → Z * list real_type
}.

(** This backend declares no parameter ids. *)
Inductive ParamaterIDs := .

Section Solver.
Variable lib : rocsparse_library.

(** The live descriptors and info objects. *)
Record objects := mkObjects {
  descrs : gmap positive mat_descr;
  infos : gmap positive (mat_info lib)
}.

(** [rocsparse_create_mat_descr(&descr)] *)
Definition rocsparse_create_mat_descr (w : objects) : positive * objects :=
  let d := fresh (dom (descrs w)) in
  (d, mkObjects (<[d := created_descr lib]> (descrs w)) (infos w)).

(** [rocsparse_set_mat_fill_mode], [rocsparse_set_mat_diag_type] *)
Definition rocsparse_set_mat_fill_mode (w : objects) (d : positive)
    (m : rocsparse_fill_mode) : result objects :=
  dd ← deref (descrs w) d;
  Done (mkObjects (<[d := mkDescr m (diag_type dd)]> (descrs w)) (infos w)).
Definition rocsparse_set_mat_diag_type (w : objects) (d : positive)
    (m : rocsparse_diag_type) : result objects :=
  dd ← deref (descrs w) d;
  Done (mkObjects (<[d := mkDescr (fill_mode dd) m]> (descrs w)) (infos w)).

(** [rocsparse_create_mat_info(&info)] *)
Definition rocsparse_create_mat_info (w : objects) : positive * objects :=
  let i := fresh (dom (infos w)) in
  (i, mkObjects (descrs w) (<[i := created_info lib]> (infos w))).

Record t := mkSolver {
  A_ : option Sparse;
  descr_A_ : option positive;
  descr_L_ : option positive;
  descr_U_ : option positive;
  info_A_ : option positive;
  d_ILU_vals_ : option (list real_type);
  d_aux1_ : option (list real_type);
  buffer_ : option Z;          (* the scratch buffer, by its size *)
  status_rocsparse_ : Z;
  params_list_ : gmap string ParamaterIDs
}.

(** Modelled from the spec: [getParamId] of the [LinSolver] base class
    (not part of the embedded files), the string-id-to-enum mapping.
    An id that is not registered yields a value that matches no
    [case] label; [None] stands for it. *)
Definition getParamId (s : t) (id : string) : option ParamaterIDs :=
  params_list_ s !! id.

(** The constructor; the members start as null pointers. *)
Definition constructor : t :=
  mkSolver None None None None None None None None 0 ∅.

(** A library call that reads a descriptor and updates the info
    object.  A null member handed to the library counts as
    undefined. *)
Definition with_objects {R} (w : objects) (descr info : option positive)
    (op : mat_descr → mat_info lib → R * mat_info lib)
  : result (R * objects) :=
  d ← deref_member descr;
  dd ← deref (descrs w) d;
  i ← deref_member info;
  ii ← deref (infos w) i;
  let '(r, ii) := op dd ii in
  Done (r, mkObjects (descrs w) (<[i := ii]> (infos w))).

(** [setup(A, ...)] *)
Definition setup (s : t) (w : objects) (A : Sparse)
  : result (Z * t * objects) :=
  let error_sum := 0 in
  let n := getNumRows A in
  let nnz := getNnz A in
  let rows := getRowData A DEVICE in
  let cols := getColData A DEVICE in
  vals ← copyArray (allocateArrayOnDevice real_zero nnz) (getValues A DEVICE) nnz;
  vals ← deref_member vals;
  let '(dA, w) := rocsparse_create_mat_descr w in
  let '(dL, w) := rocsparse_create_mat_descr w in
  w ← rocsparse_set_mat_fill_mode w dL rocsparse_fill_mode_lower;
  w ← rocsparse_set_mat_diag_type w dL rocsparse_diag_type_unit;
  let '(dU, w) := rocsparse_create_mat_descr w in
  w ← rocsparse_set_mat_fill_mode w dU rocsparse_fill_mode_upper;
  w ← rocsparse_set_mat_diag_type w dU rocsparse_diag_type_non_unit;
  let '(iA, w) := rocsparse_create_mat_info w in
  '(st, buffer_size_A, w) ← with_objects w (Some dA) (Some iA)
     (λ d, rocsparse_dcsrilu0_buffer_size lib n nnz d vals rows cols);
  let error_sum := int_add error_sum st in
  '(st, buffer_size_L, w) ← with_objects w (Some dL) (Some iA)
     (λ d, rocsparse_dcsrsv_buffer_size lib n nnz d vals rows cols);
  let error_sum := int_add error_sum st in
  '(st, buffer_size_U, w) ← with_objects w (Some dU) (Some iA)
     (λ d, rocsparse_dcsrsv_buffer_size lib n nnz d vals rows cols);
  let error_sum := int_add error_sum st in
  let buffer_size := buffer_size_A `max` (buffer_size_L `max` buffer_size_U) in
  '(st, w) ← with_objects w (Some dA) (Some iA)
     (λ d, rocsparse_dcsrilu0_analysis lib n nnz d vals rows cols);
  let error_sum := int_add error_sum st in
  '(st, w) ← with_objects w (Some dL) (Some iA)
     (λ d, rocsparse_dcsrsv_analysis lib n nnz d vals rows cols);
  let error_sum := int_add error_sum st in
  '(st, w) ← with_objects w (Some dU) (Some iA)
     (λ d, rocsparse_dcsrsv_analysis lib n nnz d vals rows cols);
  let error_sum := int_add error_sum st in
  '(st, vals, w) ← with_objects w (Some dA) (Some iA)
     (λ d, rocsparse_dcsrilu0 lib n nnz d vals rows cols);
  let error_sum := int_add error_sum st in
  Done (error_sum,
        mkSolver (Some A) (Some dA) (Some dL) (Some dU) (Some iA)
          (Some vals) (allocateArrayOnDevice real_zero n)
          (Some buffer_size) st (params_list_ s),
        w).

(** [reset(A)] *)
Definition reset (s : t) (w : objects) (A : Sparse)
  : result (Z * t * objects) :=
  let error_sum := 0 in
  let n := getNumRows A in
  let nnz := getNnz A in
  vals ← copyArray (d_ILU_vals_ s) (getValues A DEVICE) nnz;
  vals ← deref_member vals;
  '(st, vals, w) ← with_objects w (descr_A_ s) (info_A_ s)
     (λ d, rocsparse_dcsrilu0 lib n nnz d vals
             (getRowData A DEVICE) (getColData A DEVICE));
  let error_sum := int_add error_sum st in
  Done (error_sum,
        mkSolver (Some A) (descr_A_ s) (descr_L_ s) (descr_U_ s) (info_A_ s)
          (Some vals) (d_aux1_ s) (buffer_ s) st (params_list_ s),
        w).

(** One [rocsparse_dcsrsv_solve] call with the descriptor [descr]:
    reads [x], overwrites [y]. *)
Definition triangular_solve (s : t) (w : objects) (descr : option positive)
    (x y : list real_type) : result (Z * list real_type) :=
  A ← deref_member (A_ s);
  d ← deref_member descr;
  dd ← deref (descrs w) d;
  vals ← deref_member (d_ILU_vals_ s);
  i ← deref_member (info_A_ s);
  ii ← deref (infos w) i;
  Done (rocsparse_dcsrsv_solve lib (getNumRows A) (getNnz A) ONE dd vals
          (getRowData A DEVICE) (getColData A DEVICE) ii x y).

Definition set_solve_result (s : t) (aux : list real_type) (st : Z) : t :=
  mkSolver (A_ s) (descr_A_ s) (descr_L_ s) (descr_U_ s) (info_A_ s)
    (d_ILU_vals_ s) (Some aux) (buffer_ s) st (params_list_ s).

(** [solve(rhs)]: the solution is returned in [rhs]. *)
Definition solve_in_place (s : t) (w : objects) (rhs : vector_ptr)
    (vs : vector_store) : result (Z * t * vector_store) :=
  let error_sum := 0 in
  v_rhs ← deref vs rhs;
  aux ← deref_member (d_aux1_ s);
  '(st, aux) ← triangular_solve s w (descr_L_ s) (Vec.getData v_rhs DEVICE) aux;
  let error_sum := int_add error_sum st in
  '(st, sol) ← triangular_solve s w (descr_U_ s) aux (Vec.getData v_rhs DEVICE);
  let error_sum := int_add error_sum st in
  let v_rhs := Vec.setDataUpdated (Vec.setData v_rhs DEVICE sol) DEVICE in
  Done (error_sum, set_solve_result s aux st, <[rhs := v_rhs]> vs).

(** [solve(rhs, x)] *)
Definition solve (s : t) (w : objects) (rhs x : vector_ptr)
    (vs : vector_store) : result (Z * t * vector_store) :=
  let error_sum := 0 in
  v_rhs ← deref vs rhs;
  aux ← deref_member (d_aux1_ s);
  '(st, aux) ← triangular_solve s w (descr_L_ s) (Vec.getData v_rhs DEVICE) aux;
  let error_sum := int_add error_sum st in
  v_x ← deref vs x;
  '(st, sol) ← triangular_solve s w (descr_U_ s) aux (Vec.getData v_x DEVICE);
  let error_sum := int_add error_sum st in
  let v_x := Vec.setDataUpdated (Vec.setData v_x DEVICE sol) DEVICE in
  Done (error_sum, set_solve_result s aux st, <[x := v_x]> vs).

(** [setCliParam(id, value)]: the [switch] has the [default] label
    only. *)
Definition setCliParam (s : t) (id value : string) : Z * t :=
  match getParamId s id with
  | _ => (0, s)   (* "Setting parameter failed!" *)
  end.

Definition getCliParamString (s : t) (id : string) : string :=
  match getParamId s id with _ => "" end.

Definition getCliParamInt (s : t) (id : string) : Z :=
  match getParamId s id with _ => -1 end.

Definition getCliParamReal (s : t) (id : string) : real_type :=
  match getParamId s id with _ => quiet_NaN end.

Definition getCliParamBool (s : t) (id : string) : bool :=
  match getParamId s id with _ => false end.

(** [printCliParam(id)]: the [switch] has the [default] label only. *)
Definition printCliParam (s : t) (id : string) : Z * list printed :=
  match getParamId s id with _ => (1, []) end.
End Solver.
End RocSparseILU0.

(** ** The matrices of the matrix-handler unit tests *)

Module MatrixHandlerTests.
Import memory.

Section Tests.
(** The memory space the test object was constructed for. *)
Variable memspace_ : MemorySpace.

(** The five row samples of [createCsrMatrix]; every one sums to 30. *)
Definition data : list (list real_type) :=
  [fl <$> [1; 5; 7; 8; 3; 2; 4];
   fl <$> [1; 3; 2; 2; 1; 6; 7; 3; 2; 3];
   fl <$> [11; 15; 4];
   fl <$> [1; 1; 5; 1; 9; 2; 1; 2; 3; 2; 3];
   fl <$> [6; 5; 7; 3; 2; 5; 2]].

(** The three host arrays of the matrix under construction. *)
Record arrays := mkArrays {
  rowptr : list index_type;
  colidx : list index_type;
  val : list real_type
}.

(** [for (i = 0; i < n; ++i) nnz += data[i % 5].size();] *)
Definition count_nnz (n : index_type) : result index_type :=
  for_range 0 n
    (λ i nnz,
       reminder ← int_rem i 5;
       row_sample ← rd data reminder;
       Done (int_add nnz (Z.of_nat (length row_sample)))) 0.

(** The body of the inner loop of [createCsrMatrix]:
    [colidx[j] = (j - rowptr[i]) * n / nnz_per_row + (n % (n / nnz_per_row));
     val[j] = row_sample[j - rowptr[i]];] *)
Definition fill_entry (n i nnz_per_row : index_type)
    (row_sample : list real_type) (j : index_type) (s : arrays)
  : result arrays :=
  first ← rd (rowptr s) i;
  scaled ← int_div (int_mul (int_sub j first) n) nnz_per_row;
  stride ← int_div n nnz_per_row;
  shift ← int_rem n stride;
  ci ← wr (colidx s) j (int_add scaled shift);
  first ← rd (rowptr s) i;
  v ← rd row_sample (int_sub j first);
  vs ← wr (val s) j v;
  Done (mkArrays (rowptr s) ci vs).

(** The body of the outer loop: the row pointer of the next row, then the
    entries of row [i]. *)
Definition fill_row (n i : index_type) (s : arrays) : result arrays :=
  reminder ← int_rem i 5;
  row_sample ← rd data reminder;
  let nnz_per_row := Z.of_nat (length row_sample) in
  first ← rd (rowptr s) i;
  rp ← wr (rowptr s) (int_add i 1) (int_add first nnz_per_row);
  let s := mkArrays rp (colidx s) (val s) in
  lo ← rd (rowptr s) i;
  hi ← rd (rowptr s) (int_add i 1);
  for_range lo hi (fill_entry n i nnz_per_row row_sample) s.

(** [matrix::Csr* createCsrMatrix(const index_type n)] *)
Definition createCsrMatrix (n : index_type) : result Sparse :=
  nnz ← count_nnz n;
  let A := allocateMatrixData_host (new_Csr n n nnz) in
  rp ← wr (getRowData A HOST) 0 0;
  s ← for_range 0 n (fill_row n)
        (mkArrays rp (getColData A HOST) (getValues A HOST));
  let A :=
    setUpdated_host
      (mkSparse (sparse_format A) (n_ A) (m_ A) (nnz_ A)
         (rowptr s) (colidx s) (val s)
         (d_row_data_ A) (d_col_data_ A) (d_val_data_ A)
         (h_data_updated_ A) (d_data_updated_ A)) in
  Done (match memspace_ with
        | DEVICE => syncData_device A
        | HOST => A
        end).
(** [1.0], and [counter++] on a [real_type]: the binary64 sum with 1.0. *)
Definition real_one : real_type := S754_finite false 4503599627370496 (-52).
Definition real_incr (x : real_type) : real_type := SFadd 53 1024 x real_one.

(** The state of [createRectangularCscMatrix] and
    [createRectangularCsrMatrix] while the arrays are filled: the pointer
    array ([colptr], resp. [rowptr]), the index array ([rowidx], resp.
    [colidx]), the values and the running [counter]. *)
Record filling := mkFilling {
  fptr : list index_type;
  fidx : list index_type;
  fval : list real_type;
  counter : real_type
}.

(** [idx[a] = r; val[a] = counter++;] where the address [a] is an
    expression over the pointer array, evaluated in each statement. *)
Definition store (a : list index_type → result index_type) (r : index_type)
    (s : filling) : result filling :=
  p ← a (fptr s);
  ix ← wr (fidx s) p r;
  p ← a (fptr s);
  vs ← wr (fval s) p (counter s);
  Done (mkFilling (fptr s) ix vs (real_incr (counter s))).

(** [ptr[i + 1]++;] *)
Definition bump (i : index_type) (s : filling) : result filling :=
  p ← rd (fptr s) (int_add i 1);
  pt ← wr (fptr s) (int_add i 1) (int_add p 1);
  Done (mkFilling pt (fidx s) (fval s) (counter s)).

(** The loop body of the branch [n == m]; [k] is the dimension that the
    second entry of the first segment halves ([m / 2] in
    [createRectangularCscMatrix], [n / 2] in [createRectangularCsrMatrix]). *)
Definition fill_square (k i : index_type) (s : filling) : result filling :=
  p ← rd (fptr s) i;
  pt ← wr (fptr s) (int_add i 1) (int_add p 2);
  let s := mkFilling pt (fidx s) (fval s) (counter s) in
  if decide (i = 0) then
    s ← store (λ ptr, rd ptr i) i s;
    half ← int_div k 2;
    store (λ ptr, p ← rd ptr i; Done (int_add p 1)) half s
  else
    s ← store (λ ptr, rd ptr i) (int_sub i 1) s;
    store (λ ptr, p ← rd ptr i; Done (int_add p 1)) i s.

(** The loop body of the branch [n > m]. *)
Definition fill_wide (n m i : index_type) (s : filling) : result filling :=
  p ← rd (fptr s) i;
  pt ← wr (fptr s) (int_add i 1) p;
  let s := mkFilling pt (fidx s) (fval s) (counter s) in
  s ← (if decide (int_sub n m ≤ i) then
         s ← store (λ ptr, rd ptr (int_add i 1)) (int_add (int_sub i n) m) s;
         bump i s
       else Done s);
  if decide (i < m) then
    s ← store (λ ptr, rd ptr (int_add i 1)) i s;
    bump i s
  else Done s.

(** The loop body of the branch [n < m]. *)
Definition fill_tall (n m i : index_type) (s : filling) : result filling :=
  p ← rd (fptr s) i;
  pt ← wr (fptr s) (int_add i 1) (int_add p 2);
  let s := mkFilling pt (fidx s) (fval s) (counter s) in
  s ← store (λ ptr, rd ptr i) i s;
  store (λ ptr, p ← rd ptr i; Done (int_add p 1)) (int_sub (int_add i m) n) s.

(** The three branches, the same in both functions. *)
Definition fill_rectangular (k n m : index_type) (s : filling)
  : result filling :=
  if decide (n = m) then for_range 0 n (fill_square k) s
  else if decide (n > m) then for_range 0 n (fill_wide n m) s
  else for_range 0 n (fill_tall n m) s.

(** [matrix::Csc* createRectangularCscMatrix(const index_type n,
    const index_type m)]: [n] columns, [m] rows. *)
Definition createRectangularCscMatrix (n m : index_type) : result Sparse :=
  let nnz := int_mul 2 (Z.min n m) in
  let A := allocateMatrixData_host_csc (new_Csc m n nnz) in
  pt ← wr (getColData A HOST) 0 0;
  s ← fill_rectangular m n m
        (mkFilling pt (getRowData A HOST) (getValues A HOST) real_one);
  let A :=
    setUpdated_host
      (mkSparse (sparse_format A) (n_ A) (m_ A) (nnz_ A)
         (fidx s) (fptr s) (fval s)
         (d_row_data_ A) (d_col_data_ A) (d_val_data_ A)
         (h_data_updated_ A) (d_data_updated_ A)) in
  Done (match memspace_ with
        | DEVICE => syncData_device A
        | HOST => A
        end).

(** [matrix::Csr* createRectangularCsrMatrix(const index_type n,
    const index_type m)]: [n] rows, [m] columns. *)
Definition createRectangularCsrMatrix (n m : index_type) : result Sparse :=
  let nnz := int_mul 2 (Z.min n m) in
  let A := allocateMatrixData_host (new_Csr n m nnz) in
  pt ← wr (getRowData A HOST) 0 0;
  s ← fill_rectangular n n m
        (mkFilling pt (getColData A HOST) (getValues A HOST) real_one);
  let A :=
    setUpdated_host
      (mkSparse (sparse_format A) (n_ A) (m_ A) (nnz_ A)
         (fptr s) (fidx s) (fval s)
         (d_row_data_ A) (d_col_data_ A) (d_val_data_ A)
         (h_data_updated_ A) (d_data_updated_ A)) in
  Done (match memspace_ with
        | DEVICE => syncData_device A
        | HOST => A
        end).
End Tests.
End MatrixHandlerTests.

(** ** Facts about the store, the heap and the host-direct backend *)

Lemma deref_Some {K A} `{Countable K} (m : gmap K A) (p : K) (a : A) :
  m !! p = Some a → deref m p = Done a.
Proof. intros Hp. unfold deref. by rewrite Hp. Qed.

Lemma new_index_array_fresh (h : index_heap) (n : Z) :
  0 ≤ n →
  new_index_array h n
  = Done (fresh (dom h), <[fresh (dom h) := replicate (Z.to_nat n) 0]> h)
  ∧ h !! fresh (dom h) = None.
Proof.
  intros Hn. unfold new_index_array. rewrite decide_False by lia.
  split; [done |]. apply not_elem_of_dom, is_fresh.
Qed.

(** An array made by [new] and filled by [memcpy]. *)
Lemma new_then_memcpy (h : index_heap) (src : list Z) (n : Z) :
  0 ≤ n ≤ Z.of_nat (length src) →
  let p := fresh (dom h) in
  memcpy_index (<[p := replicate (Z.to_nat n) 0]> h) p src n
  = Done (<[p := take (Z.to_nat n) src]> h).
Proof.
  intros Hn p. unfold memcpy_index.
  rewrite (deref_Some _ _ _ (lookup_insert_eq _ _ _)). simpl.
  rewrite decide_True by (rewrite length_replicate; lia).
  rewrite drop_ge by (rewrite length_replicate; lia).
  by rewrite app_nil_r, insert_insert_eq.
Qed.

Section KLUFacts.
Import KLU.
Variable lib : klu_library.
Implicit Types (s : t lib) (h : index_heap) (vs : vector_store).

Lemma getPOrdering_factorized s h A num :
  Numeric_ lib s = Some num → A_ lib s = Some A →
  0 ≤ getNumRows A ≤ Z.of_nat (length (numeric_Pnum lib num)) →
  let p := fresh (dom h) in
  getPOrdering lib s h
  = Done (Some p, set_P_ lib s (Some p),
          <[p := take (Z.to_nat (getNumRows A)) (numeric_Pnum lib num)]> h).
Proof.
  intros Hnum HA Hn p. unfold getPOrdering. rewrite Hnum, HA. simpl.
  destruct (new_index_array_fresh h (getNumRows A)) as [-> _]; [lia |]. simpl.
  by rewrite new_then_memcpy.
Qed.

Lemma getQOrdering_factorized s h A num sym :
  Numeric_ lib s = Some num → Symbolic_ lib s = Some sym →
  A_ lib s = Some A →
  0 ≤ getNumRows A ≤ Z.of_nat (length (symbolic_Q lib sym)) →
  let q := fresh (dom h) in
  getQOrdering lib s h
  = Done (Some q, set_Q_ lib s (Some q),
          <[q := take (Z.to_nat (getNumRows A)) (symbolic_Q lib sym)]> h).
Proof.
  intros Hnum Hsym HA Hn q. unfold getQOrdering. rewrite Hnum, HA. simpl.
  destruct (new_index_array_fresh h (getNumRows A)) as [-> _]; [lia |]. simpl.
  rewrite Hsym. simpl. by rewrite new_then_memcpy.
Qed.

End KLUFacts.

(** ** Facts about the device-refactor backend *)

Section CuSolverRfFacts.
Import CuSolverRf memory.
Variable lib : cusolverRf_library.
Variable c : libc.
Implicit Types (s : t) (w : handles lib) (vs : vector_store).

Lemma on_handle_live w (h : positive) d op :
  w !! h = Some d →
  on_handle lib w h op = Done ((op d).1, <[h := (op d).2]> w).
Proof.
  intros Hh. unfold on_handle. rewrite (deref_Some _ _ _ Hh). simpl.
  by destruct (op d).
Qed.




Lemma rf_refactorize_spec s w d A p q :
  A_ s = Some A → getNumRows A > 0 → getNnz A > 0 →
  d_P_ s = Some p → d_Q_ s = Some q →
  w !! handle_cusolverrf_ s = Some d →
  let r1 := cusolverRfResetValues lib (getNumRows A) (getNnz A)
              (getRowData A DEVICE) (getColData A DEVICE) (getValues A DEVICE)
              (d_P_ s) (d_Q_ s) d in
  let r2 := cusolverRfRefactor lib r1.2 in
  refactorize lib s w
  = Done (int_add (int_add 0 r1.1) r2.1, set_status s r2.1,
          <[handle_cusolverrf_ s := r2.2]> w).
Proof.
  intros HA Hn Hnnz HP HQ Hh r1 r2. subst r1 r2. unfold refactorize.
  rewrite HA, HP, HQ. simpl.
  rewrite !bool_decide_eq_true_2 by (done || by eexists). simpl.
  rewrite (on_handle_live _ _ _ _ Hh). simpl.
  rewrite (on_handle_live _ _ _ _ (lookup_insert_eq _ _ _)). simpl.
  by rewrite insert_insert_eq.
Qed.

(** [setup] up to the [switch] on the format of the factors. *)
Lemma rf_setup_unrecognized s w A L U (P Q : list Z) :
  getSparseFormat A = COMPRESSED_SPARSE_ROW →
  getSparseFormat L = getSparseFormat U →
  getSparseFormat L ≠ COMPRESSED_SPARSE_COLUMN →
  getSparseFormat L ≠ COMPRESSED_SPARSE_ROW →
  (setup_completed_ s = true → is_Some (w !! handle_cusolverrf_ s)) →
  setup lib s w A L U P Q
  = if setup_completed_ s then
      let w1 := delete (handle_cusolverrf_ s) w in
      let h := fresh (dom w1) in
      Done (1, set_handle (set_A_ s (Some A)) h, <[h := rf_created lib]> w1)
    else Done (1, set_A_ s (Some A), w).
Proof.
  intros HA HLU Hcsc Hcsr Hlive. unfold setup.
  rewrite !bool_decide_eq_true_2 by done. simpl.
  assert (factors_to_csr L U = Done None) as Hf.
  { unfold factors_to_csr. by destruct (getSparseFormat L). }
  destruct (setup_completed_ s) eqn:Hc; simpl.
  - unfold cusolverRfDestroy. rewrite decide_True by auto. simpl.
    by rewrite Hf.
  - by rewrite Hf.
Qed.

(** What [setup] loads into a handle that starts as [d0]. *)
Definition loaded (d0 : rf_data lib) (A L_csr U_csr : Sparse)
    (p q : option (list Z)) : Z * rf_data lib :=
  let n := getNumRows A in
  let '(st1, d) := cusolverRfSetResetValuesFastMode lib d0
                     CUSOLVERRF_RESET_VALUES_FAST_MODE_ON in
  let '(st2, d) :=
    cusolverRfSetupDevice lib n (getNnz A)
      (getRowData A DEVICE) (getColData A DEVICE) (getValues A DEVICE)
      (getNnz L_csr) (getRowData L_csr DEVICE)
      (getColData L_csr DEVICE) (getValues L_csr DEVICE)
      (getNnz U_csr) (getRowData U_csr DEVICE)
      (getColData U_csr DEVICE) (getValues U_csr DEVICE) p q d in
  let '(st3, d) := cusolverRfAnalyze lib d in
  (int_add (int_add (int_add 0 st1) st2) st3,
   cusolverRfSetAlgs lib d CUSOLVERRF_FACTORIZATION_ALG0
     CUSOLVERRF_TRIANGULAR_SOLVE_ALG1).

(** The permutation buffers after [setup]. *)
Definition permutation_buffer (old : option (list Z)) (src : list Z) (n : Z)
  : option (list Z) :=
  match old with
  | Some b => Some (take (Z.to_nat n) src ++ drop (Z.to_nat n) b)
  | None => Some (take (Z.to_nat n) src)
  end.

Definition buffer_fits (old : option (list Z)) (n : Z) : Prop :=
  match old with
  | Some b => n ≤ Z.of_nat (length b)
  | None => True
  end.

Lemma copy_permutation (old : option (list Z)) (src : list Z) (n : Z) :
  0 ≤ n ≤ Z.of_nat (length src) → buffer_fits old n →
  copyArray (if old is None then allocateArrayOnDevice 0 n else old) src n
  = Done (permutation_buffer old src n).
Proof.
  intros Hn Hfit. unfold copyArray. destruct old as [b|]; simpl in *.
  - by rewrite decide_True by lia.
  - rewrite decide_True by (rewrite length_replicate; lia).
    rewrite drop_ge by (rewrite length_replicate; lia).
    by rewrite app_nil_r.
Qed.

(** [setup] past the [switch], on an instance whose setup had completed:
    the old handle is destroyed, and what the new handle holds is built
    from a newly created one. *)
Lemma rf_setup_again s w d_old A L U L_csr U_csr (P Q : list Z) :
  setup_completed_ s = true →
  w !! handle_cusolverrf_ s = Some d_old →
  getSparseFormat A = COMPRESSED_SPARSE_ROW →
  getSparseFormat L = getSparseFormat U →
  factors_to_csr L U = Done (Some (L_csr, U_csr)) →
  0 ≤ getNumRows A ≤ Z.of_nat (length P) →
  getNumRows A ≤ Z.of_nat (length Q) →
  buffer_fits (d_P_ s) (getNumRows A) →
  buffer_fits (d_Q_ s) (getNumRows A) →
  let n := getNumRows A in
  let w1 := delete (handle_cusolverrf_ s) w in
  let h := fresh (dom w1) in
  let p := permutation_buffer (d_P_ s) P n in
  let q := permutation_buffer (d_Q_ s) Q n in
  let r := loaded (rf_created lib) A L_csr U_csr p q in
  ∃ st, setup lib s w A L U P Q
        = Done (r.1,
                mkSolver (Some A) h st p q (allocateArrayOnDevice real_zero n)
                  true (zero_pivot_ s) (pivot_boost_ s) (params_list_ s),
                <[h := r.2]> w1).
Proof.
  intros Hc Hlive HA HLU Hf HP HQ HfP HfQ n w1 h p q r. unfold setup.
  rewrite !bool_decide_eq_true_2 by done. simpl. rewrite Hc. simpl.
  unfold cusolverRfDestroy. rewrite decide_True by eauto. simpl.
  rewrite Hf. simpl.
  rewrite copy_permutation by (done || lia). simpl.
  rewrite copy_permutation by (done || lia). simpl.
  fold n w1 h p q.
  rewrite (on_handle_live _ _ _ _ (lookup_insert_eq _ _ _)). simpl.
  rewrite (on_handle_live _ _ _ _ (lookup_insert_eq _ _ _)). simpl.
  rewrite (on_handle_live _ _ _ _ (lookup_insert_eq _ _ _)). simpl.
  unfold setAlgorithms. simpl.
  rewrite (on_handle_live _ _ _ _ (lookup_insert_eq _ _ _)). simpl.
  rewrite !insert_insert_eq.
  subst r. unfold loaded. fold n.
  destruct (cusolverRfSetResetValuesFastMode lib _ _) as [st1 d1]. simpl.
  destruct (cusolverRfSetupDevice lib _ _ _ _ _ _ _ _ _ _ _ _ _ _ _ _)
    as [st2 d2]. simpl.
  destruct (cusolverRfAnalyze lib d2) as [st3 d3]. simpl.
  by exists st3.
Qed.

Lemma rf_setCliParam_unknown s w (id value : string) :
  params_list_ s !! id = None →
  setCliParam lib c s w id value = Done (0, s, w).
Proof. intros Hid. unfold setCliParam, getParamId. by rewrite Hid. Qed.
End CuSolverRfFacts.

(** ** Facts about the incomplete-factorization backend *)

Section ILU0Facts.
Import RocSparseILU0 memory.
Variable lib : rocsparse_library.
Implicit Types (s : t) (w : objects lib) (vs : vector_store).

Lemma with_objects_live {R} w (d i : positive) dd ii
    (op : mat_descr → mat_info lib → R * mat_info lib) :
  descrs lib w !! d = Some dd → infos lib w !! i = Some ii →
  with_objects lib w (Some d) (Some i) op
  = Done ((op dd ii).1,
          mkObjects lib (descrs lib w) (<[i := (op dd ii).2]> (infos lib w))).
Proof.
  intros Hd Hi. unfold with_objects. simpl.
  rewrite (deref_Some _ _ _ Hd), (deref_Some _ _ _ Hi). simpl.
  by destruct (op dd ii).
Qed.

(** The part of the Factorized state the methods rely on: the matrix is
    bound, the buffers are allocated, the descriptors and the info
    object are live. *)
Definition ilu0_factorized s w : Prop :=
  is_Some (A_ s) ∧ is_Some (d_ILU_vals_ s) ∧ is_Some (d_aux1_ s)
  ∧ (∃ d, descr_A_ s = Some d ∧ is_Some (descrs lib w !! d))
  ∧ (∃ d, descr_L_ s = Some d ∧ is_Some (descrs lib w !! d))
  ∧ (∃ d, descr_U_ s = Some d ∧ is_Some (descrs lib w !! d))
  ∧ (∃ i, info_A_ s = Some i ∧ is_Some (infos lib w !! i)).




Lemma ilu0_reset_spec s w A vals (d i : positive) dd ii :
  d_ILU_vals_ s = Some vals →
  0 ≤ getNnz A ≤ Z.of_nat (length (getValues A DEVICE)) →
  getNnz A ≤ Z.of_nat (length vals) →
  descr_A_ s = Some d → descrs lib w !! d = Some dd →
  info_A_ s = Some i → infos lib w !! i = Some ii →
  let vals' := take (Z.to_nat (getNnz A)) (getValues A DEVICE)
               ++ drop (Z.to_nat (getNnz A)) vals in
  let r := rocsparse_dcsrilu0 lib (getNumRows A) (getNnz A) dd vals'
             (getRowData A DEVICE) (getColData A DEVICE) ii in
  reset lib s w A
  = Done (int_add 0 r.1.1,
          mkSolver (Some A) (descr_A_ s) (descr_L_ s) (descr_U_ s) (info_A_ s)
            (Some r.1.2) (d_aux1_ s) (buffer_ s) r.1.1 (params_list_ s),
          mkObjects lib (descrs lib w) (<[i := r.2]> (infos lib w))).
Proof.
  intros Hv Hnnz Hlen Hd Hdd Hi Hii vals' r. subst r vals'.
  unfold reset, copyArray. rewrite Hv. simpl in *.
  rewrite decide_True by lia. simpl. rewrite Hd, Hi.
  rewrite (with_objects_live _ _ _ _ _ _ Hdd Hii). simpl.
  by destruct (rocsparse_dcsrilu0 _ _ _ _ _ _ _ _) as [[st v] ii'].
Qed.

Lemma copyArray_fresh {X} (filler : X) (src : list X) (n : Z) :
  0 ≤ n ≤ Z.of_nat (length src) →
  copyArray (allocateArrayOnDevice filler n) src n
  = Done (Some (take (Z.to_nat n) src)).
Proof.
  intros Hn. unfold copyArray, allocateArrayOnDevice. simpl.
  rewrite decide_True by (rewrite length_replicate; lia).
  rewrite drop_ge by (rewrite length_replicate; lia).
  by rewrite app_nil_r.
Qed.

(** The objects [setup] works on: the descriptors [D], and the info
    objects [I] plus the new one [i]. *)
Definition during_setup (D : gmap positive mat_descr)
    (I : gmap positive (mat_info lib)) (i : positive) w : Prop :=
  descrs lib w = D ∧ ∃ ii, infos lib w = <[i := ii]> I.

Lemma with_objects_during {R} D I (i d : positive) dd w
    (op : mat_descr → mat_info lib → R * mat_info lib) :
  during_setup D I i w → D !! d = Some dd →
  ∃ r w', with_objects lib w (Some d) (Some i) op = Done (r, w')
          ∧ during_setup D I i w'.
Proof.
  intros [HD [ii HI]] Hd.
  rewrite (with_objects_live w d i dd ii); [| by rewrite HD |];
    last by rewrite HI, lookup_insert_eq.
  eexists _, _. split; [done |]. split; [done |]. simpl.
  eexists. by rewrite HI, insert_insert_eq.
Qed.

(** Runs the library call at the head of the goal. *)
Ltac run_with_objects Hw Hd :=
  match goal with
  | |- context [with_objects _ ?w0 (Some _) (Some _) ?op] =>
      let r := fresh "r" in
      let w' := fresh "w" in
      let E := fresh "E" in
      let Hw' := fresh "Hw" in
      destruct (with_objects_during _ _ _ _ _ w0 op Hw Hd)
        as (r & w' & E & Hw');
      rewrite E; clear E Hw; rename Hw' into Hw;
      repeat (let a := fresh "st" in let b := fresh "v" in destruct r as [a b]);
      simpl
  end.

(** [setup] creates its descriptors and its info object next to the
    ones that are live; it destroys none. *)
Lemma ilu0_setup_keeps s w A :
  0 ≤ getNnz A ≤ Z.of_nat (length (getValues A DEVICE)) →
  ∃ ret s' w',
    setup lib s w A = Done (ret, s', w')
    ∧ descrs lib w ⊆ descrs lib w'
    ∧ infos lib w ⊆ infos lib w'
    ∧ (∃ d, descr_A_ s' = Some d ∧ descrs lib w !! d = None)
    ∧ (∃ d, descr_L_ s' = Some d ∧ descrs lib w !! d = None)
    ∧ (∃ d, descr_U_ s' = Some d ∧ descrs lib w !! d = None)
    ∧ (∃ i, info_A_ s' = Some i ∧ infos lib w !! i = None).
Proof.
  intros Hnnz. unfold setup. rewrite copyArray_fresh by done. simpl.
  unfold rocsparse_create_mat_descr, rocsparse_set_mat_fill_mode,
    rocsparse_set_mat_diag_type, rocsparse_create_mat_info. simpl.
  set (D := descrs lib w). set (I := infos lib w).
  set (dA := fresh (dom D)).
  rewrite (deref_Some _ _ _ (lookup_insert_eq _ _ _)). simpl.
  rewrite (deref_Some _ _ _ (lookup_insert_eq _ _ _)). simpl.
  rewrite !insert_insert_eq.
  set (dL := fresh (dom (<[dA := created_descr lib]> D))).
  rewrite (deref_Some _ _ _ (lookup_insert_eq _ _ _)). simpl.
  rewrite (deref_Some _ _ _ (lookup_insert_eq _ _ _)). simpl.
  rewrite !insert_insert_eq.
  set (DL := <[dL := mkDescr rocsparse_fill_mode_lower rocsparse_diag_type_unit]>
               (<[dA := created_descr lib]> D)).
  set (dU := fresh (dom DL)).
  set (DU := <[dU := mkDescr rocsparse_fill_mode_upper rocsparse_diag_type_non_unit]> DL).
  set (iA := fresh (dom I)).
  assert (D !! dA = None) as HdA by apply not_elem_of_dom, is_fresh.
  assert (<[dA := created_descr lib]> D !! dL = None) as HdL
      by apply not_elem_of_dom, is_fresh.
  assert (DL !! dU = None) as HdU by apply not_elem_of_dom, is_fresh.
  assert (I !! iA = None) as HiA by apply not_elem_of_dom, is_fresh.
  apply lookup_insert_None in HdL as [HdL HLA].
  unfold DL in HdU.
  apply lookup_insert_None in HdU as [HdU HUL].
  apply lookup_insert_None in HdU as [HdU HUA].
  assert (∃ dd, DU !! dA = Some dd) as [ddA HA].
  { eexists. unfold DU, DL.
    rewrite lookup_insert_ne, lookup_insert_ne, lookup_insert_eq; done. }
  assert (∃ dd, DU !! dL = Some dd) as [ddL HL].
  { eexists. unfold DU, DL. rewrite lookup_insert_ne, lookup_insert_eq; done. }
  assert (∃ dd, DU !! dU = Some dd) as [ddU HU].
  { eexists. unfold DU. by rewrite lookup_insert_eq. }
  assert (during_setup DU I iA (mkObjects lib DU (<[iA := created_info lib]> I)))
    as Hw0 by (split; [done | by eexists]).
  run_with_objects Hw0 HA. run_with_objects Hw0 HL. run_with_objects Hw0 HU.
  run_with_objects Hw0 HA. run_with_objects Hw0 HL. run_with_objects Hw0 HU.
  run_with_objects Hw0 HA.
  destruct Hw0 as [HD7 [ii7 HI7]].
  do 3 eexists. split; [reflexivity |]. simpl. rewrite HD7, HI7.
  repeat split.
  - unfold DU, DL.
    etrans; [| apply insert_subseteq; by rewrite !lookup_insert_ne].
    etrans; [| apply insert_subseteq; by rewrite lookup_insert_ne].
    by apply insert_subseteq.
  - by apply insert_subseteq.
  - by exists dA.
  - by exists dL.
  - by exists dU.
  - by exists iA.
Qed.
End ILU0Facts.

(** ** Stand-in libraries and states for the examples *)

Definition example_libc : libc := mkLibc (λ _, fl 0) (λ _, 0).

(** A KLU stand-in whose symbolic object is the column permutation and
    whose numeric object is the row permutation; its solve succeeds and
    reverses the right-hand side. *)
Definition example_klu : KLU.klu_library :=
  KLU.mkLibrary (list Z) (list Z) id id (λ _, 2) (λ _, 3)
    (KLU.mkCommon 1 2 0 (fl 0) true 0 (fl 0))
    (λ n _ _ cm, (Some (seqZ 0 n), cm))
    (λ rows _ _ _ cm, (Some (reverse (seqZ 0 (Z.of_nat (length rows) - 1))), cm))
    (λ _ _ _ _ num cm, (1, num, cm))
    (λ _ _ _ _ b cm, (1, reverse b, cm))
    (λ _ _, (([0; 1; 2], [0; 1], fl <$> [1; 1]),
             ([0; 1; 3], [0; 0; 1], fl <$> [1; 2; 3]))).

(** The 2 x 2 matrix [[1 2] [0 3]] in CSR format, on host and device. *)
Definition example_A : Sparse :=
  mkSparse COMPRESSED_SPARSE_ROW 2 2 3
    [0; 2; 3] [0; 1; 1] (fl <$> [1; 2; 3])
    [0; 2; 3] [0; 1; 1] (fl <$> [1; 2; 3]) true true.

(** A second 2 x 2 matrix, [[4 0] [0 5]]. *)
Definition example_A' : Sparse :=
  mkSparse COMPRESSED_SPARSE_ROW 2 2 2
    [0; 1; 2] [0; 1] (fl <$> [4; 5])
    [0; 1; 2] [0; 1] (fl <$> [4; 5]) true true.

(** A host-direct solver after [setup], [analyze] and [factorize]. *)
Definition example_klu_factorized : KLU.t example_klu :=
  KLU.mkSolver example_klu (Some example_A) (Some [0; 1]) (Some [1; 0])
    (KLU.mkCommon 0 (-1) 1 (fl 0) true 0 (fl 0)) None None None None false
    (fl 0) 1 true (KLU.initParamList).

(** The same solver before any factorization. *)
Definition example_klu_configured : KLU.t example_klu :=
  KLU.mkSolver example_klu (Some example_A) None None
    (KLU.mkCommon 0 (-1) 1 (fl 0) true 0 (fl 0)) None None None None false
    (fl 0) 1 true (KLU.initParamList).

Example example_klu_lifecycle :
  (r ← KLU.analyze example_klu (KLU.setup example_klu example_klu_configured example_A).2;
   KLU.factorize example_klu r.2)
  = Done (0, example_klu_factorized).
Proof. reflexivity. Qed.

(** Two vectors of size 2 in a store: a right-hand side at 0, an output
    vector at 1. *)
Definition example_vectors : vector_store :=
  <[1%nat := Vec.mkVector 2 (fl <$> [0; 0]) (fl <$> [0; 0]) true true]>
    (<[0%nat := Vec.mkVector 2 (fl <$> [7; 8]) (fl <$> [7; 8]) true true]> ∅).

(** ** The host-direct backend: orderings *)

(** C10. While no numeric factorization exists ([Numeric_] is null),
    [getPOrdering] and [getQOrdering] return the null pointer, allocate
    nothing and leave the solver as it was. *)
Theorem klu_orderings_null_before_factorize
    (lib : KLU.klu_library) (s : KLU.t lib) (h : index_heap) :
  KLU.Numeric_ lib s = None →
  KLU.getPOrdering lib s h = Done (None, s, h)
  ∧ KLU.getQOrdering lib s h = Done (None, s, h).
Proof.
  intros Hnum. unfold KLU.getPOrdering, KLU.getQOrdering. by rewrite Hnum.
Qed.

Lemma klu_orderings_null_before_factorize_witness :
  KLU.Numeric_ example_klu example_klu_configured = None
  ∧ KLU.getPOrdering example_klu example_klu_configured ∅
    = Done (None, example_klu_configured, ∅)
  ∧ KLU.getQOrdering example_klu example_klu_configured ∅
    = Done (None, example_klu_configured, ∅).
Proof.
  split; [reflexivity |].
  apply (klu_orderings_null_before_factorize example_klu
           example_klu_configured ∅).
  reflexivity.
Defined.

(** The destructor frees the arrays behind [P_] and [Q_] exactly when
    [factors_extracted_] is set. *)
Lemma klu_destructor_frees (lib : KLU.klu_library) (s : KLU.t lib)
    (h : index_heap) (p q : positive) :
  KLU.factors_extracted_ lib s = true →
  KLU.P_ lib s = Some p → KLU.Q_ lib s = Some q →
  is_Some (h !! p) → is_Some (h !! q) → p ≠ q →
  KLU.destructor lib s h = Done (delete q (delete p h)).
Proof.
  intros He HP HQ Hp Hq Hne. unfold KLU.destructor, delete_index_array.
  rewrite He, HP, HQ. rewrite decide_True by done. simpl.
  by rewrite decide_True by by rewrite lookup_delete_ne.
Qed.

(** C9, as amended.  After a numeric factorization every call of
    [getPOrdering] (resp. [getQOrdering]) returns a block that was not
    allocated before, holding the first n entries of the row (resp. column)
    permutation, where n is the row count; the other blocks are untouched,
    so an earlier result is never reused.  The solver keeps the returned
    pointer in [P_] (resp. [Q_]), and its destructor frees the blocks behind
    [P_] and [Q_] when [factors_extracted_] is set, and none otherwise. *)
Theorem klu_orderings_fresh_copy
    (lib : KLU.klu_library) (s : KLU.t lib) (h : index_heap) A num sym :
  KLU.Numeric_ lib s = Some num → KLU.Symbolic_ lib s = Some sym →
  KLU.A_ lib s = Some A →
  0 ≤ getNumRows A ≤ Z.of_nat (length (KLU.numeric_Pnum lib num)) →
  getNumRows A ≤ Z.of_nat (length (KLU.symbolic_Q lib sym)) →
  (∃ p, KLU.getPOrdering lib s h
        = Done (Some p, KLU.set_P_ lib s (Some p),
                <[p := take (Z.to_nat (getNumRows A)) (KLU.numeric_Pnum lib num)]> h)
        ∧ h !! p = None)
  ∧ (∃ q, KLU.getQOrdering lib s h
          = Done (Some q, KLU.set_Q_ lib s (Some q),
                  <[q := take (Z.to_nat (getNumRows A)) (KLU.symbolic_Q lib sym)]> h)
          ∧ h !! q = None)
  ∧ (∀ (s' : KLU.t lib) h' p q,
       KLU.P_ lib s' = Some p → KLU.Q_ lib s' = Some q →
       is_Some (h' !! p) → is_Some (h' !! q) → p ≠ q →
       KLU.destructor lib s' h'
       = Done (if KLU.factors_extracted_ lib s' then delete q (delete p h')
               else h')).
Proof.
  intros Hnum Hsym HA HP HQ. split; [| split].
  - exists (fresh (dom h)). split.
    + by apply (getPOrdering_factorized lib s h A num).
    + apply not_elem_of_dom, is_fresh.
  - exists (fresh (dom h)). split.
    + apply (getQOrdering_factorized lib s h A num sym); (done || lia).
    + apply not_elem_of_dom, is_fresh.
  - intros s' h' p q Hp Hq Hlp Hlq Hne.
    destruct (KLU.factors_extracted_ lib s') eqn:He.
    + by apply klu_destructor_frees.
    + unfold KLU.destructor. by rewrite He.
Qed.

Lemma klu_orderings_fresh_copy_witness :
  ∃ p, KLU.getPOrdering example_klu example_klu_factorized ∅
       = Done (Some p, KLU.set_P_ example_klu example_klu_factorized (Some p),
               <[p := [1; 0]]> ∅).
Proof.
  destruct (klu_orderings_fresh_copy example_klu example_klu_factorized ∅
              example_A [1; 0] [0; 1]) as [(p & Hp & _) _];
    [reflexivity | reflexivity | reflexivity | simpl; lia | simpl; lia |].
  exists p. exact Hp.
Defined.

(** A solver that extracted its factors and handed out a row ordering
    has that ordering freed by its destructor. *)
Lemma klu_destructor_frees_returned_ordering :
  ∃ L s1 p s2 h1 h2,
    KLU.getLFactor example_klu example_klu_factorized = Done (L, s1)
    ∧ KLU.getPOrdering example_klu s1 ∅ = Done (Some p, s2, h1)
    ∧ h1 !! p = Some [1; 0]
    ∧ KLU.destructor example_klu s2 h1 = Done h2
    ∧ h2 !! p = None.
Proof.
  eexists _, _, (fresh (dom (∅ : index_heap))), _, _, _.
  split; [reflexivity |]. split; [reflexivity |].
  split; [apply lookup_insert_eq |]. split.
  - unfold KLU.destructor, delete_index_array. simpl.
    rewrite decide_True; [reflexivity |]. rewrite lookup_insert_eq. by eexists.
  - apply lookup_delete_eq.
Qed.

(** A cuSolverRf stand-in whose handle records the calls made on it; its
    solve succeeds and reverses the right-hand side. *)
Definition example_rf : CuSolverRf.cusolverRf_library :=
  CuSolverRf.mkLibrary (list Z) []
    (λ d _, (0, 1 :: d))
    (λ _ _ _ _ _ _ _ _ _ _ _ _ _ _ _ d, (0, 2 :: d))
    (λ d, (0, 3 :: d))
    (λ d _ _, 4 :: d)
    (λ _ _ _ _ _ _ _ d, (0, 5 :: d))
    (λ d, (0, 6 :: d))
    (λ _ _ _ _ tmp _ xf _, (0, tmp, reverse xf))
    (λ d _ _, (0, 7 :: d)).

(** A device-refactor solver whose setup has completed: handle 1 holds the
    loaded factorization. *)
Definition example_rf_solver : CuSolverRf.t :=
  CuSolverRf.mkSolver (Some example_A) 1%positive 0 (Some [0; 1]) (Some [0; 1])
    (Some (fl <$> [0; 0])) true (fl 0) (fl 0) CuSolverRf.initParamList.

Definition example_rf_handles : CuSolverRf.handles example_rf :=
  {[1%positive := [4; 3; 2; 1]]}.

(** Factors in a format that is neither CSC nor CSR. *)
Definition example_L_triplet : Sparse :=
  mkSparse TRIPLET 2 2 2 [0; 1] [0; 1] (fl <$> [1; 1]) [] [] [] true false.
Definition example_U_triplet : Sparse :=
  mkSparse TRIPLET 2 2 3 [0; 0; 1] [0; 1; 1] (fl <$> [4; 0; 5]) [] [] [] true false.

(** A rocSPARSE stand-in whose info object counts the analyses; the lower
    solve copies and the upper solve reverses the right-hand side. *)
Definition example_rs : RocSparseILU0.rocsparse_library :=
  RocSparseILU0.mkLibrary nat
    (RocSparseILU0.mkDescr RocSparseILU0.rocsparse_fill_mode_lower
       RocSparseILU0.rocsparse_diag_type_non_unit)
    0%nat
    (λ _ _ _ _ _ _ i, (0, 16, i))
    (λ _ _ _ _ _ _ i, (0, 8, i))
    (λ _ _ _ _ _ _ i, (0, S i))
    (λ _ _ _ _ _ _ i, (0, S i))
    (λ _ _ _ vals _ _ i, (0, vals, i))
    (λ _ _ _ d _ _ _ _ x _,
       (0, match RocSparseILU0.fill_mode d with
           | RocSparseILU0.rocsparse_fill_mode_lower => x
           | RocSparseILU0.rocsparse_fill_mode_upper => reverse x
           end)).

(** Triangular factors of [example_A] in CSR format: L = I, U = A. *)
Definition example_L : Sparse :=
  mkSparse COMPRESSED_SPARSE_ROW 2 2 2
    [0; 1; 2] [0; 1] (fl <$> [1; 1]) [0; 1; 2] [0; 1] (fl <$> [1; 1]) true true.
Definition example_U : Sparse := example_A.

Example example_rf_lifecycle :
  (let '(s, w) := CuSolverRf.constructor example_rf (fl 0) (fl 0) ∅ in
   CuSolverRf.setup example_rf s w example_A example_L example_U [0; 1] [0; 1])
  = Done (0, example_rf_solver, example_rf_handles).
Proof. vm_compute. reflexivity. Qed.

(** An incomplete-factorization solver after [setup]. *)
Definition example_rs_solver : RocSparseILU0.t :=
  RocSparseILU0.mkSolver (Some example_A) (Some 1%positive) (Some 2%positive)
    (Some 3%positive) (Some 1%positive) (Some (fl <$> [1; 2; 3]))
    (Some (fl <$> [0; 0])) (Some 16) 0 ∅.

Definition example_rs_objects : RocSparseILU0.objects example_rs :=
  RocSparseILU0.mkObjects example_rs
    (<[3%positive := RocSparseILU0.mkDescr RocSparseILU0.rocsparse_fill_mode_upper
                       RocSparseILU0.rocsparse_diag_type_non_unit]>
       (<[2%positive := RocSparseILU0.mkDescr RocSparseILU0.rocsparse_fill_mode_lower
                          RocSparseILU0.rocsparse_diag_type_unit]>
          (<[1%positive := RocSparseILU0.mkDescr RocSparseILU0.rocsparse_fill_mode_lower
                             RocSparseILU0.rocsparse_diag_type_non_unit]> ∅)))
    {[1%positive := 3%nat]}.

Example example_rs_lifecycle :
  RocSparseILU0.setup example_rs RocSparseILU0.constructor
    (RocSparseILU0.mkObjects example_rs ∅ ∅) example_A
  = Done (0, example_rs_solver, example_rs_objects).
Proof. vm_compute. reflexivity. Qed.

(** ** Parameters by name *)

(** C7. For an id that is not registered in the parameter list of a
    backend, [getCliParamReal] returns NaN, [getCliParamInt] returns -1,
    [getCliParamString] returns the empty string, and [setCliParam] returns
    0 and leaves the solver (and the library objects) as they were. *)
Theorem unknown_param_id :
  (∀ (lib : KLU.klu_library) (c : libc) (s : KLU.t lib) (id value : string),
     KLU.params_list_ lib s !! id = None →
     KLU.getCliParamReal lib s id = quiet_NaN
     ∧ KLU.getCliParamInt lib s id = -1
     ∧ KLU.getCliParamString lib s id = ""
     ∧ KLU.setCliParam lib c s id value = (0, s))
  ∧ (∀ (lib : CuSolverRf.cusolverRf_library) (c : libc) (s : CuSolverRf.t)
       (w : CuSolverRf.handles lib) (id value : string),
       CuSolverRf.params_list_ s !! id = None →
       CuSolverRf.getCliParamReal s id = quiet_NaN
       ∧ CuSolverRf.getCliParamInt s id = -1
       ∧ CuSolverRf.getCliParamString s id = ""
       ∧ CuSolverRf.setCliParam lib c s w id value = Done (0, s, w))
  ∧ (∀ (s : RocSparseILU0.t) (id value : string),
       RocSparseILU0.params_list_ s !! id = None →
       RocSparseILU0.getCliParamReal s id = quiet_NaN
       ∧ RocSparseILU0.getCliParamInt s id = -1
       ∧ RocSparseILU0.getCliParamString s id = ""
       ∧ RocSparseILU0.setCliParam s id value = (0, s)).
Proof.
  split; [| split].
  - intros lib c s id value Hid.
    unfold KLU.getCliParamReal, KLU.getCliParamInt, KLU.getCliParamString,
      KLU.setCliParam, KLU.getParamId. by rewrite Hid.
  - intros lib c s w id value Hid.
    unfold CuSolverRf.getCliParamReal, CuSolverRf.getCliParamInt,
      CuSolverRf.getCliParamString, CuSolverRf.setCliParam,
      CuSolverRf.getParamId. by rewrite Hid.
  - intros s id value Hid.
    unfold RocSparseILU0.getCliParamReal, RocSparseILU0.getCliParamInt,
      RocSparseILU0.getCliParamString, RocSparseILU0.setCliParam,
      RocSparseILU0.getParamId. done.
Qed.

Lemma unknown_param_id_witness :
  KLU.getCliParamReal example_klu example_klu_factorized "not_a_key" = quiet_NaN
  ∧ CuSolverRf.setCliParam example_rf example_libc example_rf_solver
      example_rf_handles "not_a_key" "1.0"
    = Done (0, example_rf_solver, example_rf_handles)
  ∧ RocSparseILU0.getCliParamInt RocSparseILU0.constructor "not_a_key" = -1.
Proof.
  destruct unknown_param_id as (Hklu & Hrf & Hrs).
  split; [| split].
  - apply (Hklu example_klu example_libc example_klu_factorized
             "not_a_key" "1.0"). vm_compute. reflexivity.
  - apply (Hrf example_rf example_libc example_rf_solver example_rf_handles
             "not_a_key" "1.0"). vm_compute. reflexivity.
  - apply (Hrs RocSparseILU0.constructor "not_a_key" "1.0").
    vm_compute. reflexivity.
Defined.

(** ** Accumulated error codes *)

(** A status code of a library call: an enumerator, a small non-negative
    [int]. *)
Definition vendor_status (st : Z) : Prop := 0 ≤ st < 2 ^ 30.

(** C8. [refactorize] of the device-refactor backend returns the sum of
    the status codes of its two library calls, and [reset] of the
    incomplete-factorization backend the status code of its single call;
    the sum is 0 when every status is 0, and a nonzero sum means that some
    status is nonzero. *)
Theorem error_code_is_sum :
  (∀ (lib : CuSolverRf.cusolverRf_library) (s : CuSolverRf.t)
     (w : CuSolverRf.handles lib) d A p q,
     CuSolverRf.A_ s = Some A → getNumRows A > 0 → getNnz A > 0 →
     CuSolverRf.d_P_ s = Some p → CuSolverRf.d_Q_ s = Some q →
     w !! CuSolverRf.handle_cusolverrf_ s = Some d →
     let r1 := CuSolverRf.cusolverRfResetValues lib (getNumRows A) (getNnz A)
                 (getRowData A memory.DEVICE) (getColData A memory.DEVICE)
                 (getValues A memory.DEVICE)
                 (CuSolverRf.d_P_ s) (CuSolverRf.d_Q_ s) d in
     let r2 := CuSolverRf.cusolverRfRefactor lib r1.2 in
     vendor_status r1.1 → vendor_status r2.1 →
     ∃ s' w', CuSolverRf.refactorize lib s w = Done (r1.1 + r2.1, s', w')
              ∧ (r1.1 = 0 → r2.1 = 0 → r1.1 + r2.1 = 0)
              ∧ (r1.1 + r2.1 ≠ 0 → r1.1 ≠ 0 ∨ r2.1 ≠ 0))
  ∧ (∀ (lib : RocSparseILU0.rocsparse_library) (s : RocSparseILU0.t)
       (w : RocSparseILU0.objects lib) A vals (d i : positive) dd ii,
       RocSparseILU0.d_ILU_vals_ s = Some vals →
       0 ≤ getNnz A ≤ Z.of_nat (length (getValues A memory.DEVICE)) →
       getNnz A ≤ Z.of_nat (length vals) →
       RocSparseILU0.descr_A_ s = Some d →
       RocSparseILU0.descrs lib w !! d = Some dd →
       RocSparseILU0.info_A_ s = Some i →
       RocSparseILU0.infos lib w !! i = Some ii →
       let vals' := take (Z.to_nat (getNnz A)) (getValues A memory.DEVICE)
                    ++ drop (Z.to_nat (getNnz A)) vals in
       let r := RocSparseILU0.rocsparse_dcsrilu0 lib (getNumRows A) (getNnz A)
                  dd vals' (getRowData A memory.DEVICE)
                  (getColData A memory.DEVICE) ii in
       vendor_status r.1.1 →
       ∃ s' w', RocSparseILU0.reset lib s w A = Done (r.1.1, s', w')).
Proof.
  split.
  - intros lib s w d A p q HA Hn Hnnz HP HQ Hh r1 r2 [H1 H1'] [H2 H2'].
    do 2 eexists. split; [| split].
    + rewrite (rf_refactorize_spec lib s w d A p q) by done.
      fold r1 r2. rewrite (int_add_exact 0) by (unfold INT_MAX; lia).
      rewrite int_add_exact by (unfold INT_MAX; lia). reflexivity.
    + lia.
    + lia.
  - intros lib s w A vals d i dd ii Hv Hnnz Hlen Hd Hdd Hi Hii vals' r [H1 H1'].
    do 2 eexists.
    rewrite (ilu0_reset_spec lib s w A vals d i dd ii) by done.
    fold vals' r. rewrite int_add_exact by (unfold INT_MAX; lia). reflexivity.
Qed.

Lemma error_code_is_sum_witness :
  (∃ s' w', CuSolverRf.refactorize example_rf example_rf_solver example_rf_handles
            = Done (0, s', w'))
  ∧ (∃ s' w', RocSparseILU0.reset example_rs example_rs_solver
                example_rs_objects example_A' = Done (0, s', w')).
Proof.
  destruct error_code_is_sum as [Hrf Hrs]. split.
  - destruct (Hrf example_rf example_rf_solver example_rf_handles [4; 3; 2; 1]
                example_A [0; 1] [0; 1]) as (s' & w' & Hrun & _);
      [reflexivity | simpl; lia | simpl; lia | reflexivity | reflexivity
      | reflexivity | vm_compute; split; [discriminate | reflexivity]
      | vm_compute; split; [discriminate | reflexivity] |].
    exists s', w'. exact Hrun.
  - destruct (Hrs example_rs example_rs_solver example_rs_objects example_A'
                (fl <$> [1; 2; 3]) 1%positive 1%positive
                (RocSparseILU0.mkDescr RocSparseILU0.rocsparse_fill_mode_lower
                   RocSparseILU0.rocsparse_diag_type_non_unit) 3%nat)
      as (s' & w' & Hrun);
      [reflexivity | simpl; lia | simpl; lia | reflexivity | reflexivity
      | reflexivity | reflexivity
      | vm_compute; split; [discriminate | reflexivity] |].
    exists s', w'. exact Hrun.
Defined.

(** ** Solving *)











(** ** Setup *)

(** [setup] of the device-refactor backend with factors in triplet format,
    on a solver whose setup had completed: it returns 1, but the solver now
    points to the new matrix and its handle holds a newly created, empty
    object instead of the loaded factorization. *)
Lemma rf_setup_unrecognized_mutates :
  ∃ s' w',
    CuSolverRf.setup example_rf example_rf_solver example_rf_handles
      example_A' example_L_triplet example_U_triplet [0; 1] [0; 1]
    = Done (1, s', w')
    ∧ CuSolverRf.A_ example_rf_solver = Some example_A
    ∧ CuSolverRf.A_ s' = Some example_A'
    ∧ example_rf_handles !! CuSolverRf.handle_cusolverrf_ example_rf_solver
      = Some [4; 3; 2; 1]
    ∧ w' !! CuSolverRf.handle_cusolverrf_ s' = Some []
    ∧ (s', w') ≠ (example_rf_solver, example_rf_handles).
Proof.
  do 2 eexists. split; [vm_compute; reflexivity |].
  split; [reflexivity |]. split; [reflexivity |]. split; [reflexivity |].
  split; [reflexivity |]. intros H. by injection H.
Qed.

(** C5, as amended.  When the L and U factors are in one format that is
    neither CSC nor CSR (and A is in CSR format), [setup] of the
    device-refactor backend returns the error 1.  By then it has bound the
    solver to the new matrix A and, when an earlier setup had completed,
    destroyed the handle and created a new one; the permutation and
    scratch buffers, [setup_completed_], the status and the parameters are
    as before the call. *)
Theorem rf_setup_unrecognized_state
    (lib : CuSolverRf.cusolverRf_library) (s : CuSolverRf.t)
    (w : CuSolverRf.handles lib) (A L U : Sparse) (P Q : list Z) :
  getSparseFormat A = COMPRESSED_SPARSE_ROW →
  getSparseFormat L = getSparseFormat U →
  getSparseFormat L ≠ COMPRESSED_SPARSE_COLUMN →
  getSparseFormat L ≠ COMPRESSED_SPARSE_ROW →
  (CuSolverRf.setup_completed_ s = true →
   is_Some (w !! CuSolverRf.handle_cusolverrf_ s)) →
  ∃ s' w',
    CuSolverRf.setup lib s w A L U P Q = Done (1, s', w')
    ∧ CuSolverRf.A_ s' = Some A
    ∧ CuSolverRf.d_P_ s' = CuSolverRf.d_P_ s
    ∧ CuSolverRf.d_Q_ s' = CuSolverRf.d_Q_ s
    ∧ CuSolverRf.d_T_ s' = CuSolverRf.d_T_ s
    ∧ CuSolverRf.setup_completed_ s' = CuSolverRf.setup_completed_ s
    ∧ CuSolverRf.status_cusolverrf_ s' = CuSolverRf.status_cusolverrf_ s
    ∧ CuSolverRf.zero_pivot_ s' = CuSolverRf.zero_pivot_ s
    ∧ CuSolverRf.pivot_boost_ s' = CuSolverRf.pivot_boost_ s
    ∧ CuSolverRf.params_list_ s' = CuSolverRf.params_list_ s
    ∧ (CuSolverRf.setup_completed_ s = false →
       CuSolverRf.handle_cusolverrf_ s' = CuSolverRf.handle_cusolverrf_ s
       ∧ w' = w)
    ∧ (CuSolverRf.setup_completed_ s = true →
       w' = <[CuSolverRf.handle_cusolverrf_ s' := CuSolverRf.rf_created lib]>
              (delete (CuSolverRf.handle_cusolverrf_ s) w)).
Proof.
  intros HA HLU Hcsc Hcsr Hlive.
  rewrite (rf_setup_unrecognized lib s w A L U P Q) by done.
  destruct (CuSolverRf.setup_completed_ s) eqn:Hc; simpl.
  - do 2 eexists. split; [reflexivity |]. simpl. rewrite Hc.
    repeat split; done.
  - do 2 eexists. split; [reflexivity |]. simpl. rewrite Hc.
    repeat split; done.
Qed.

Lemma rf_setup_unrecognized_state_witness :
  ∃ s' w',
    CuSolverRf.setup example_rf example_rf_solver example_rf_handles
      example_A' example_L_triplet example_U_triplet [0; 1] [0; 1]
    = Done (1, s', w')
    ∧ CuSolverRf.A_ s' = Some example_A'
    ∧ CuSolverRf.d_P_ s' = Some [0; 1].
Proof.
  destruct (rf_setup_unrecognized_state example_rf example_rf_solver
              example_rf_handles example_A' example_L_triplet
              example_U_triplet [0; 1] [0; 1])
    as (s' & w' & Hrun & HA & HP & _);
    [reflexivity | reflexivity | discriminate | discriminate
    | intros _; by eexists |].
  exists s', w'. split; [exact Hrun |]. split; [exact HA | exact HP].
Defined.

(** The host-direct backend after a second [setup]: the numeric and
    symbolic objects computed for the first matrix are still in place. *)
Lemma klu_setup_keeps_factorization :
  let r := KLU.setup example_klu example_klu_factorized example_A' in
  r.1 = 0
  ∧ KLU.A_ example_klu r.2 = Some example_A'
  ∧ KLU.Numeric_ example_klu r.2 = Some [1; 0]
  ∧ KLU.Numeric_ example_klu r.2
    = (KLU.klu_factor example_klu (getRowData example_A memory.HOST)
         (getColData example_A memory.HOST) (getValues example_A memory.HOST)
         (Some [0; 1]) (KLU.Common_ example_klu example_klu_factorized)).1.
Proof. repeat split. Qed.

(** C6, as amended.  When [setup] of the device-refactor backend is
    invoked on an instance whose setup had completed, the previous handle
    is destroyed and a new one is created before the factors are loaded:
    what the handle holds afterwards is what the library loads into a newly
    created handle from the new matrix, factors and orderings.  [setup] of
    the host-direct backend only binds the new matrix and keeps the
    symbolic and numeric objects.  [setup] of the incomplete-factorization
    backend creates new descriptors and a new info object next to the
    previous ones, which stay live. *)
Theorem setup_again_factorization_state :
  (∀ (lib : CuSolverRf.cusolverRf_library) (s : CuSolverRf.t)
     (w : CuSolverRf.handles lib) d_old A L U L_csr U_csr (P Q : list Z),
     CuSolverRf.setup_completed_ s = true →
     w !! CuSolverRf.handle_cusolverrf_ s = Some d_old →
     getSparseFormat A = COMPRESSED_SPARSE_ROW →
     getSparseFormat L = getSparseFormat U →
     CuSolverRf.factors_to_csr L U = Done (Some (L_csr, U_csr)) →
     0 ≤ getNumRows A ≤ Z.of_nat (length P) →
     getNumRows A ≤ Z.of_nat (length Q) →
     buffer_fits (CuSolverRf.d_P_ s) (getNumRows A) →
     buffer_fits (CuSolverRf.d_Q_ s) (getNumRows A) →
     let n := getNumRows A in
     let w1 := delete (CuSolverRf.handle_cusolverrf_ s) w in
     let p := permutation_buffer (CuSolverRf.d_P_ s) P n in
     let q := permutation_buffer (CuSolverRf.d_Q_ s) Q n in
     let r := loaded lib (CuSolverRf.rf_created lib) A L_csr U_csr p q in
     ∃ s', CuSolverRf.setup lib s w A L U P Q
           = Done (r.1, s', <[CuSolverRf.handle_cusolverrf_ s' := r.2]> w1)
           ∧ CuSolverRf.handle_cusolverrf_ s' = fresh (dom w1)
           ∧ CuSolverRf.setup_completed_ s' = true)
  ∧ (∀ (lib : KLU.klu_library) (s : KLU.t lib) (A : Sparse),
       let r := KLU.setup lib s A in
       r.1 = 0
       ∧ KLU.A_ lib r.2 = Some A
       ∧ KLU.Symbolic_ lib r.2 = KLU.Symbolic_ lib s
       ∧ KLU.Numeric_ lib r.2 = KLU.Numeric_ lib s)
  ∧ (∀ (lib : RocSparseILU0.rocsparse_library) (s : RocSparseILU0.t)
       (w : RocSparseILU0.objects lib) (A : Sparse),
       0 ≤ getNnz A ≤ Z.of_nat (length (getValues A memory.DEVICE)) →
       ∃ ret s' w',
         RocSparseILU0.setup lib s w A = Done (ret, s', w')
         ∧ RocSparseILU0.descrs lib w ⊆ RocSparseILU0.descrs lib w'
         ∧ RocSparseILU0.infos lib w ⊆ RocSparseILU0.infos lib w'
         ∧ (∃ d, RocSparseILU0.descr_A_ s' = Some d
                 ∧ RocSparseILU0.descrs lib w !! d = None)
         ∧ (∃ d, RocSparseILU0.descr_L_ s' = Some d
                 ∧ RocSparseILU0.descrs lib w !! d = None)
         ∧ (∃ d, RocSparseILU0.descr_U_ s' = Some d
                 ∧ RocSparseILU0.descrs lib w !! d = None)
         ∧ (∃ i, RocSparseILU0.info_A_ s' = Some i
                 ∧ RocSparseILU0.infos lib w !! i = None)).
Proof.
  split; [| split].
  - intros lib s w d_old A L U L_csr U_csr P Q Hc Hlive HA HLU Hf HP HQ HfP HfQ
           n w1 p q r.
    destruct (rf_setup_again lib s w d_old A L U L_csr U_csr P Q)
      as (st & Hrun); try done.
    eexists. split; [exact Hrun |]. done.
  - intros lib s A. repeat split.
  - intros lib s w A Hnnz. by apply ilu0_setup_keeps.
Qed.

Lemma setup_again_factorization_state_witness :
  (∃ s', CuSolverRf.setup example_rf example_rf_solver
           {[1%positive := [6; 5; 4; 3; 2; 1]]}
           example_A' example_L example_U [1; 0] [1; 0]
         = Done (0, s', {[1%positive := [4; 3; 2; 1]]})
         ∧ CuSolverRf.setup_completed_ s' = true)
  ∧ (∃ ret s' w',
       RocSparseILU0.setup example_rs example_rs_solver example_rs_objects
         example_A' = Done (ret, s', w')
       ∧ RocSparseILU0.descrs example_rs example_rs_objects
         ⊆ RocSparseILU0.descrs example_rs w').
Proof.
  destruct setup_again_factorization_state as (Hrf & _ & Hrs).
  split.
  - destruct (Hrf example_rf example_rf_solver
                {[1%positive := [6; 5; 4; 3; 2; 1]]} [6; 5; 4; 3; 2; 1]
                example_A' example_L example_U example_L example_U
                [1; 0] [1; 0])
      as (s' & Hrun & Hh & Hc);
      [reflexivity | reflexivity | reflexivity | reflexivity | reflexivity
      | simpl; lia | simpl; lia | simpl; lia | simpl; lia |].
    exists s'. split; [| exact Hc].
    rewrite Hrun, Hh. vm_compute. reflexivity.
  - destruct (Hrs example_rs example_rs_solver example_rs_objects example_A')
      as (ret & s' & w' & Hrun & Hd & _); [simpl; lia |].
    exists ret, s', w'. split; [exact Hrun | exact Hd].
Defined.

(** * The conversion: further properties *)

Lemma csc2csr_square_correct_witness :
  ∃ B, Csc2Csr.csc2csr square3 (new_Csr 3 3 5) = Done (0, B)
       ∧ csr_valid B ∧ csr_triples B ≡ₚ csc_triples square3.
Proof.
  destruct (csc2csr_square_correct square3 (new_Csr 3 3 5) square3_valid)
    as (B & Hrun & Hv & _ & _ & _ & Hp); [reflexivity .. |].
  exists B. split; [exact Hrun |]. split; [exact Hv | exact Hp].
Defined.

Lemma csc2csr_stable_witness :
  ∃ B, Csc2Csr.csc2csr square3 (new_Csr 3 3 5) = Done (0, B)
       ∧ rows_preserved square3 B ∧ row_order_kept B.
Proof.
  apply (csc2csr_stable square3 (new_Csr 3 3 5) square3_valid); reflexivity.
Defined.

(** ** The destination arrays keep their lengths *)

Lemma wr_length {X} (a a' : list X) (i : Z) (x : X) :
  wr a i x = Done a' → length a' = length a.
Proof.
  unfold wr. destruct (decide _); [| done]. intros [= <-].
  apply length_insert.
Qed.

(** A loop whose body keeps [P] keeps [P]. *)
Lemma for_loop_preserves {S} (P : S → Prop) (k : nat) (i : Z)
    (body : Z → S → result S) (s s' : S) :
  (∀ j s1 s2, P s1 → body j s1 = Done s2 → P s2) →
  P s → for_loop k i body s = Done s' → P s'.
Proof.
  intros Hbody. revert i s. induction k as [|k IH]; intros i s Hs; simpl.
  - by intros [= <-].
  - destruct (body i s) as [s1| |] eqn:Hb; simpl; [| done | done].
    apply IH. by eapply Hbody.
Qed.

Section ConversionLengths.
Import Csc2Csr.

Definition same_lengths (s s' : csr_arrays) : Prop :=
  length (rowPtrCsr s') = length (rowPtrCsr s)
  ∧ length (colIdxCsr s') = length (colIdxCsr s)
  ∧ length (valuesCsr s') = length (valuesCsr s).

Lemma same_lengths_refl s : same_lengths s s.
Proof. done. Qed.

Lemma same_lengths_trans s1 s2 s3 :
  same_lengths s1 s2 → same_lengths s2 s3 → same_lengths s1 s3.
Proof. intros (? & ? & ?) (? & ? & ?). repeat split; congruence. Qed.

(** Runs the array accesses at the head of a body that returned. *)
Ltac run_body H :=
  repeat match type of H with
  | context [rd ?a ?i] =>
      let E := fresh "E" in
      destruct (rd a i) eqn:E; simpl in H; try discriminate
  | context [wr ?a ?i ?x] =>
      let E := fresh "E" in
      destruct (wr a i x) eqn:E; simpl in H; try discriminate;
      apply wr_length in E
  end.

Lemma zero_row_pointers_lengths n s s' :
  zero_row_pointers n s = Done s' → same_lengths s s'.
Proof.
  apply (for_loop_preserves (same_lengths s)); [| done].
  intros j s1 s2 (L1 & L2 & L3) H. run_body H. injection H as <-.
  repeat split; simpl; congruence.
Qed.

Lemma zero_entries_lengths nnz s s' :
  zero_entries nnz s = Done s' → same_lengths s s'.
Proof.
  apply (for_loop_preserves (same_lengths s)); [| done].
  intros j s1 s2 (L1 & L2 & L3) H. run_body H. injection H as <-.
  repeat split; simpl; congruence.
Qed.

Lemma count_entries_lengths nnz R s s' :
  count_entries nnz R s = Done s' → same_lengths s s'.
Proof.
  apply (for_loop_preserves (same_lengths s)); [| done].
  intros j s1 s2 (L1 & L2 & L3) H. run_body H. injection H as <-.
  repeat split; simpl; congruence.
Qed.

Lemma cumulative_sum_lengths n nnz s s' :
  cumulative_sum n nnz s = Done s' → same_lengths s s'.
Proof.
  unfold cumulative_sum. intros H.
  destruct (for_range _ _ _ _) as [[s1 rowsum]| |] eqn:Hloop; simpl in H;
    [| done | done].
  apply (for_loop_preserves (λ st, same_lengths s st.1)) in Hloop; [| | done].
  - destruct Hloop as (L1 & L2 & L3). simpl in *. run_body H. injection H as <-.
    repeat split; simpl; congruence.
  - intros j [s2 rs] [s3 rs'] (L1 & L2 & L3) Hb. simpl in *. run_body Hb.
    injection Hb as <- <-. repeat split; simpl; congruence.
Qed.

Lemma scatter_lengths n R CP V s s' :
  scatter n R CP V s = Done s' → same_lengths s s'.
Proof.
  apply (for_loop_preserves (same_lengths s)); [| done].
  intros col s1 s2 Hs1 H. run_body H.
  eapply same_lengths_trans; [exact Hs1 |].
  revert H. apply (for_loop_preserves (same_lengths s1)); [| done].
  intros jj s3 s4 (L1 & L2 & L3) Hb. unfold scatter_entry in Hb. run_body Hb.
  injection Hb as <-. repeat split; simpl; congruence.
Qed.

Lemma restore_row_pointers_lengths n s s' :
  restore_row_pointers n s = Done s' → same_lengths s s'.
Proof.
  unfold restore_row_pointers. intros H.
  destruct (for_range _ _ _ _) as [[s1 last]| |] eqn:Hloop; simpl in H;
    [| done | done].
  injection H as <-.
  apply (for_loop_preserves (λ st, same_lengths s st.1)) in Hloop; [done | | done].
  intros j [s2 l2] [s3 l3] (L1 & L2 & L3) Hb. simpl in *. run_body Hb.
  injection Hb as <- <-. repeat split; simpl; congruence.
Qed.

Lemma convert_lengths n nnz R CP V s s' :
  convert n nnz R CP V s = Done s' → same_lengths s s'.
Proof.
  unfold convert. intros H.
  destruct (zero_row_pointers n s) as [s1| |] eqn:H1; simpl in H; [| done | done].
  destruct (zero_entries nnz s1) as [s2| |] eqn:H2; simpl in H; [| done | done].
  destruct (count_entries nnz R s2) as [s3| |] eqn:H3; simpl in H; [| done | done].
  destruct (cumulative_sum n nnz s3) as [s4| |] eqn:H4; simpl in H; [| done | done].
  destruct (scatter n R CP V s4) as [s5| |] eqn:H5; simpl in H; [| done | done].
  apply zero_row_pointers_lengths in H1. apply zero_entries_lengths in H2.
  apply count_entries_lengths in H3. apply cumulative_sum_lengths in H4.
  apply scatter_lengths in H5. apply restore_row_pointers_lengths in H.
  repeat (eapply same_lengths_trans; [eassumption |]). done.
Qed.
End ConversionLengths.

(** X3. Whenever [csc2csr] returns, on any source and destination, it
    returns 0; the destination keeps its format, its dimensions and its
    device arrays, its host arrays have the allocated lengths (rows + 1,
    nnz, nnz), and the host copy is marked as the fresh one. *)
Theorem csc2csr_returns_zero (A_csc A_csr B : Sparse) (ret : Z) :
  Csc2Csr.csc2csr A_csc A_csr = Done (ret, B) →
  ret = 0
  ∧ sparse_format B = sparse_format A_csr
  ∧ n_ B = n_ A_csr ∧ m_ B = m_ A_csr ∧ nnz_ B = nnz_ A_csr
  ∧ length (h_row_data_ B) = Z.to_nat (n_ A_csr + 1)
  ∧ length (h_col_data_ B) = Z.to_nat (nnz_ A_csr)
  ∧ length (h_val_data_ B) = Z.to_nat (nnz_ A_csr)
  ∧ d_row_data_ B = d_row_data_ A_csr
  ∧ d_col_data_ B = d_col_data_ A_csr
  ∧ d_val_data_ B = d_val_data_ A_csr
  ∧ h_data_updated_ B = true ∧ d_data_updated_ B = false.
Proof.
  unfold Csc2Csr.csc2csr. intros H.
  repeat match type of H with
         | assert_that ?b ≫= _ = _ => destruct b; simpl in H; [| done]
         end.
  destruct (Csc2Csr.convert _ _ _ _ _ _) as [s| |] eqn:Hc; simpl in H;
    [| done | done].
  apply convert_lengths in Hc as (Hrp & Hci & Hvs). simpl in *.
  rewrite length_resize in Hrp. rewrite length_resize in Hci.
  rewrite length_resize in Hvs.
  injection H as <- <-. simpl. repeat split; done.
Qed.

Lemma csc2csr_returns_zero_witness :
  ∃ B, Csc2Csr.csc2csr tall52 (new_Csr 5 2 4) = Done (0, B)
       ∧ length (h_row_data_ B) = 6%nat ∧ d_row_data_ B = [].
Proof.
  eexists. split; [vm_compute; reflexivity |].
  destruct (csc2csr_returns_zero tall52 (new_Csr 5 2 4) _ 0
              ltac:(vm_compute; reflexivity))
    as (_ & _ & _ & _ & _ & Hl & _ & _ & Hd & _).
  split; [exact Hl | exact Hd].
Defined.

(** ** More columns than rows *)

(** A loop that writes position [i], [i + 1], ... of an array runs past
    its end when it is to make more steps than there are positions
    left. *)
Lemma zero_row_pointers_short (n : Z) (s : Csc2Csr.csr_arrays) :
  Z.of_nat (length (Csc2Csr.rowPtrCsr s)) ≤ n →
  Csc2Csr.zero_row_pointers n s = Undefined.
Proof.
  intros Hlen. unfold Csc2Csr.zero_row_pointers, for_range.
  assert (∀ (k : nat) (i : Z) s,
            0 ≤ i ≤ Z.of_nat (length (Csc2Csr.rowPtrCsr s)) →
            Z.of_nat (length (Csc2Csr.rowPtrCsr s)) < i + Z.of_nat k →
            for_loop k i
              (λ i s, rp ← wr (Csc2Csr.rowPtrCsr s) i 0;
                      Done (Csc2Csr.set_rowPtr s rp)) s = Undefined) as Hloop.
  { clear. induction k as [|k IH]; intros i s Hi Hk; [lia |]. simpl.
    destruct (decide (i < Z.of_nat (length (Csc2Csr.rowPtrCsr s)))) as [Hlt|Hge].
    - rewrite wr_Done by lia. simpl. apply IH; simpl; rewrite length_insert; lia.
    - by rewrite wr_Undefined by lia. }
  apply Hloop; lia.
Qed.

(** X4. When the source has more columns than rows (and the dimensions
    and nnz of source and destination agree, so that the assertions pass),
    [csc2csr] writes past the end of the destination's row pointers: the
    zeroing loop runs over columns + 1 positions of an array of rows + 1. *)
Theorem csc2csr_wide_overrun (A_csc A_csr : Sparse) :
  getNnz A_csc = getNnz A_csr →
  getNumRows A_csc = getNumRows A_csr →
  getNumColumns A_csr = getNumColumns A_csc →
  0 ≤ getNumRows A_csc < getNumColumns A_csc →
  Csc2Csr.csc2csr A_csc A_csr = Undefined.
Proof.
  unfold getNnz, getNumRows, getNumColumns. intros Hnnz Hn Hm Hwide.
  unfold Csc2Csr.csc2csr, Csc2Csr.convert, getNnz, getNumRows, getNumColumns.
  rewrite !bool_decide_eq_true_2 by done. simpl.
  rewrite zero_row_pointers_short; [done |]. simpl.
  rewrite length_resize. lia.
Qed.

Lemma csc2csr_wide_overrun_witness :
  Csc2Csr.csc2csr wide12 (new_Csr 1 2 2) = Undefined.
Proof.
  apply csc2csr_wide_overrun; [reflexivity | reflexivity | reflexivity |].
  simpl. lia.
Defined.

(** ** What the destination held *)

(** X5. On a valid square source the host arrays that [csc2csr] leaves do
    not depend on what the destination arrays held before the call: two
    destinations of the right format and shape receive the same row
    pointers, column indices and values. *)
Theorem csc2csr_overwrites_destination (A_csc B1 B2 : Sparse) :
  csc_valid A_csc → n_ A_csc = m_ A_csc →
  sparse_format B1 = COMPRESSED_SPARSE_ROW →
  n_ B1 = n_ A_csc → m_ B1 = m_ A_csc → nnz_ B1 = nnz_ A_csc →
  sparse_format B2 = COMPRESSED_SPARSE_ROW →
  n_ B2 = n_ A_csc → m_ B2 = m_ A_csc → nnz_ B2 = nnz_ A_csc →
  ∃ R1 R2,
    Csc2Csr.csc2csr A_csc B1 = Done (0, R1)
    ∧ Csc2Csr.csc2csr A_csc B2 = Done (0, R2)
    ∧ h_row_data_ R1 = h_row_data_ R2
    ∧ h_col_data_ R1 = h_col_data_ R2
    ∧ h_val_data_ R1 = h_val_data_ R2.
Proof.
  intros Hv Hsq Hf1 Hn1 Hm1 Hz1 Hf2 Hn2 Hm2 Hz2.
  destruct (csc2csr_square_run A_csc B1 Hv Hsq Hf1 Hn1 Hm1 Hz1)
    as (rp1 & Hrun1 & Hlen1 & Hrp1).
  destruct (csc2csr_square_run A_csc B2 Hv Hsq Hf2 Hn2 Hm2 Hz2)
    as (rp2 & Hrun2 & Hlen2 & Hrp2).
  exists (converted A_csc B1 rp1), (converted A_csc B2 rp2).
  split; [exact Hrun1 |]. split; [exact Hrun2 |]. simpl.
  split; [| done].
  apply list_eq. intros r.
  destruct (decide (r ≤ Z.to_nat (n_ A_csc))%nat) as [Hr|Hr].
  - by rewrite Hrp1, Hrp2.
  - rewrite !lookup_ge_None_2 by lia. done.
Qed.

Lemma csc2csr_overwrites_destination_witness :
  ∃ R1 R2,
    Csc2Csr.csc2csr square3 (new_Csr 3 3 5) = Done (0, R1)
    ∧ Csc2Csr.csc2csr square3
        (mkSparse COMPRESSED_SPARSE_ROW 3 3 5 [7; 7; 7; 7] [9; 9; 9; 9; 9]
           (fl <$> [8; 8; 8; 8; 8]) [] [] [] false false) = Done (0, R2)
    ∧ h_row_data_ R1 = h_row_data_ R2
    ∧ h_col_data_ R1 = h_col_data_ R2
    ∧ h_val_data_ R1 = h_val_data_ R2.
Proof.
  apply csc2csr_overwrites_destination;
    [exact square3_valid | reflexivity ..].
Defined.

(** ** A matrix without nonzeros *)

Lemma group_by_row_nil (n : nat) : group_by_row n [] = [].
Proof.
  unfold group_by_row. induction n as [|n IH]; [done |].
  by rewrite seq_S, flat_map_app, IH.
Qed.

(** X6. On a valid square source without nonzeros [csc2csr] returns 0 and
    leaves rows + 1 row pointers that are all 0, and no column index and no
    value. *)
Theorem csc2csr_empty (A_csc A_csr : Sparse) :
  csc_valid A_csc → n_ A_csc = m_ A_csc → nnz_ A_csc = 0 →
  sparse_format A_csr = COMPRESSED_SPARSE_ROW →
  n_ A_csr = n_ A_csc → m_ A_csr = m_ A_csc → nnz_ A_csr = nnz_ A_csc →
  ∃ B, Csc2Csr.csc2csr A_csc A_csr = Done (0, B)
       ∧ h_row_data_ B = replicate (S (Z.to_nat (n_ A_csc))) 0
       ∧ h_col_data_ B = [] ∧ h_val_data_ B = [].
Proof.
  intros Hv Hsq Hz Hf Hn Hm Hnnz.
  destruct (csc2csr_square_run A_csc A_csr Hv Hsq Hf Hn Hm Hnnz)
    as (rp & Hrun & Hlen & Hrp).
  assert (csc_triples A_csc = []) as Hts.
  { apply nil_length_inv.
    pose proof (grouped_length A_csc Hv Hsq) as Hg. unfold grouped in Hg.
    rewrite group_by_row_perm in Hg.
    - rewrite Hg, Hz. done.
    - eapply Forall_impl; [exact (csc_triples_range A_csc Hv) |].
      simpl. pose proof (csc_rows _ Hv). lia. }
  exists (converted A_csc A_csr rp). split; [exact Hrun |].
  unfold converted. cbn [h_row_data_ h_col_data_ h_val_data_].
  unfold grouped. rewrite Hts, group_by_row_nil. split; [| done].
  apply list_eq. intros r.
  destruct (decide (r ≤ Z.to_nat (n_ A_csc))%nat) as [Hr|Hr].
  - rewrite Hrp, Hts, group_by_row_nil by done.
    symmetry. apply lookup_replicate_2. lia.
  - rewrite lookup_ge_None_2 by lia. symmetry.
    apply lookup_replicate_None. lia.
Qed.

(** The 2 x 2 matrix without nonzeros. *)
Definition empty2 : Sparse := mkCsc 2 2 0 [0; 0; 0] [] [].

Lemma empty2_valid : csc_valid empty2.
Proof.
  split; simpl; unfold INT_MAX; try done; try lia.
  apply ptr_valid_dec_0; try done. repeat (constructor; [| repeat constructor; lia]).
  constructor.
Qed.

Lemma csc2csr_empty_witness :
  ∃ B, Csc2Csr.csc2csr empty2 (new_Csr 2 2 0) = Done (0, B)
       ∧ h_row_data_ B = [0; 0; 0]
       ∧ h_col_data_ B = [] ∧ h_val_data_ B = [].
Proof.
  apply (csc2csr_empty empty2 (new_Csr 2 2 0) empty2_valid); reflexivity.
Defined.

(** * The host-direct backend: parameters *)

Lemma klu_registered (id : string) :
  KLU.initParamList !! id
  = if decide (id = "halt_if_singular") then Some KLU.HALT_IF_SINGULAR
    else if decide (id = "ordering") then Some KLU.ORDERING
    else if decide (id = "pivot_tol") then Some KLU.PIVOT_TOL
    else None.
Proof.
  unfold KLU.initParamList.
  repeat (destruct (decide _) as [->|];
          [by rewrite ?lookup_insert_eq, ?lookup_insert_ne by done |]).
  by rewrite !lookup_insert_ne, lookup_empty by done.
Qed.

(** X7. A value set through [setCliParam] under one of the three
    registered ids is what the typed getter of that id returns and what
    [printCliParam] prints afterwards, and it is the value KLU will see in
    [Common_]; ["halt_if_singular"] becomes true for the value ["yes"] and
    false for every other string. *)
Theorem klu_param_round_trip
    (lib : KLU.klu_library) (c : libc) (s : KLU.t lib) (value : string) :
  KLU.params_list_ lib s = KLU.initParamList →
  (let r := KLU.setCliParam lib c s "pivot_tol" value in
   r.1 = 0
   ∧ KLU.getCliParamReal lib r.2 "pivot_tol" = atof c value
   ∧ KLU.tol (KLU.Common_ lib r.2) = atof c value
   ∧ KLU.printCliParam lib r.2 "pivot_tol" = (0, [print_real (atof c value)]))
  ∧ (let r := KLU.setCliParam lib c s "ordering" value in
     r.1 = 0
     ∧ KLU.getCliParamInt lib r.2 "ordering" = atoi c value
     ∧ KLU.ordering (KLU.Common_ lib r.2) = atoi c value
     ∧ KLU.printCliParam lib r.2 "ordering" = (0, [print_int (atoi c value)]))
  ∧ (let r := KLU.setCliParam lib c s "halt_if_singular" value in
     r.1 = 0
     ∧ KLU.getCliParamBool lib r.2 "halt_if_singular"
       = bool_decide (value = "yes")
     ∧ KLU.halt_if_singular (KLU.Common_ lib r.2) = bool_decide (value = "yes")
     ∧ KLU.printCliParam lib r.2 "halt_if_singular"
       = (0, [print_bool (bool_decide (value = "yes"))])).
Proof.
  intros Hreg.
  unfold KLU.setCliParam, KLU.getCliParamReal, KLU.getCliParamInt,
    KLU.getCliParamBool, KLU.printCliParam, KLU.getParamId.
  rewrite Hreg, !klu_registered. simpl. rewrite Hreg, !klu_registered. simpl.
  repeat split.
Qed.

Lemma klu_param_round_trip_witness :
  KLU.getCliParamBool example_klu
    (KLU.setCliParam example_klu example_libc
       (KLU.constructor example_klu (fl 0) 1 true) "halt_if_singular" "no").2
    "halt_if_singular"
  = false.
Proof.
  destruct (klu_param_round_trip example_klu example_libc
              (KLU.constructor example_klu (fl 0) 1 true) "no")
    as (_ & _ & _ & H & _); [reflexivity |].
  exact H.
Defined.

(** * The host-direct backend: the extracted factors *)

Section KLUFactors.
Import KLU memory.
Variable lib : klu_library.
Implicit Types (s : t lib) (h : index_heap).

(** The two CSC matrices that [getLFactor]/[getUFactor] build from what
    [klu_extract] returns for the numeric object [num]. *)
Definition klu_factors (num : klu_numeric lib)
    (sym : option (klu_symbolic lib)) (A : Sparse) : Sparse * Sparse :=
  let '((Lp, Li, Lx), (Up, Ui, Ux)) := klu_extract lib num sym in
  (mkSparse COMPRESSED_SPARSE_COLUMN (getNumRows A) (getNumColumns A)
     (numeric_lnz lib num) Li Lp Lx [] [] [] true false,
   mkSparse COMPRESSED_SPARSE_COLUMN (getNumRows A) (getNumColumns A)
     (numeric_unz lib num) Ui Up Ux [] [] [] true false).

Lemma extract_factors_cached s :
  factors_extracted_ lib s = true → extract_factors lib s = Done s.
Proof. intros He. unfold extract_factors. by rewrite He. Qed.

Lemma extract_factors_first s num A :
  factors_extracted_ lib s = false →
  Numeric_ lib s = Some num → A_ lib s = Some A →
  let LU := klu_factors num (Symbolic_ lib s) A in
  extract_factors lib s
  = Done (mkSolver lib (A_ lib s) (Symbolic_ lib s) (Numeric_ lib s)
            (Common_ lib s) (Some LU.1) (Some LU.2) (P_ lib s) (Q_ lib s) true
            (pivot_threshold_tol_ lib s) (ordering_ lib s)
            (halt_if_singular_ lib s) (params_list_ lib s)).
Proof.
  intros He Hnum HA. unfold extract_factors, klu_factors.
  rewrite He, Hnum, HA. simpl.
  by destruct (klu_extract lib num (Symbolic_ lib s)) as [[[Lp Li] Lx] [[Up Ui] Ux]].
Qed.

Lemma extract_factors_Done s s' :
  extract_factors lib s = Done s' →
  factors_extracted_ lib s' = true
  ∧ Numeric_ lib s' = Numeric_ lib s ∧ Symbolic_ lib s' = Symbolic_ lib s
  ∧ A_ lib s' = A_ lib s ∧ P_ lib s' = P_ lib s ∧ Q_ lib s' = Q_ lib s
  ∧ Common_ lib s' = Common_ lib s.
Proof.
  unfold extract_factors. destruct (factors_extracted_ lib s) eqn:He.
  - by intros [= <-].
  - destruct (Numeric_ lib s) as [num|]; [| done]. simpl.
    destruct (A_ lib s) as [A|]; [| done]. simpl.
    destruct (klu_extract lib num (Symbolic_ lib s)) as [[[Lp Li] Lx] [[Up Ui] Ux]].
    by intros [= <-].
Qed.

End KLUFactors.

(** X8. The first call of [getLFactor] or [getUFactor] extracts both
    factors; every later call of either returns the factor kept by the
    solver and changes nothing, so the two factors a caller fetches come
    from one [klu_extract] call. *)
Theorem klu_factor_cache (lib : KLU.klu_library) (s s1 : KLU.t lib)
    (F : option Sparse) :
  KLU.getLFactor lib s = Done (F, s1) ∨ KLU.getUFactor lib s = Done (F, s1) →
  KLU.factors_extracted_ lib s1 = true
  ∧ KLU.getLFactor lib s1 = Done (KLU.L_ lib s1, s1)
  ∧ KLU.getUFactor lib s1 = Done (KLU.U_ lib s1, s1)
  ∧ (KLU.getLFactor lib s = Done (F, s1) → F = KLU.L_ lib s1)
  ∧ (KLU.getUFactor lib s = Done (F, s1) → F = KLU.U_ lib s1).
Proof.
  intros H.
  assert (KLU.extract_factors lib s = Done s1) as Hx.
  { unfold KLU.getLFactor, KLU.getUFactor in H.
    destruct (KLU.extract_factors lib s) as [s2| |]; simpl in H;
      destruct H as [H|H]; by simplify_eq. }
  destruct (extract_factors_Done lib s s1 Hx) as (He & _).
  unfold KLU.getLFactor, KLU.getUFactor.
  rewrite Hx, (extract_factors_cached lib s1 He). simpl.
  split; [done |]. split; [done |]. split; [done |].
  split; by intros [= <-].
Qed.

Lemma klu_factor_cache_witness :
  ∃ s1, KLU.getUFactor example_klu s1 = Done (KLU.U_ example_klu s1, s1)
        ∧ KLU.factors_extracted_ example_klu s1 = true.
Proof.
  eexists.
  destruct (klu_factor_cache example_klu example_klu_factorized _ _
              (or_introl eq_refl)) as (He & _ & HU & _).
  split; [exact HU | exact He].
Defined.

(** X9. [factorize] returns 0 exactly when it leaves a numeric object,
    and 1 otherwise.  After a [factorize] that returned 1 the solver holds
    no numeric object and no extracted factors: [getLFactor] and
    [getUFactor] then read through the null [Numeric_], while
    [getPOrdering] and [getQOrdering] return the null pointer. *)
Theorem klu_failed_factorize (lib : KLU.klu_library) (s s' : KLU.t lib)
    (ret : Z) :
  KLU.factorize lib s = Done (ret, s') →
  (ret = 0 ∨ ret = 1)
  ∧ (ret = 0 ↔ is_Some (KLU.Numeric_ lib s'))
  ∧ KLU.factors_extracted_ lib s' = false
  ∧ (ret = 1 →
     KLU.getLFactor lib s' = Undefined
     ∧ KLU.getUFactor lib s' = Undefined
     ∧ ∀ h, KLU.getPOrdering lib s' h = Done (None, s', h)
            ∧ KLU.getQOrdering lib s' h = Done (None, s', h)).
Proof.
  unfold KLU.factorize. destruct (KLU.A_ lib s) as [A|]; [| done]. simpl.
  destruct (KLU.klu_factor lib _ _ _ _ _) as [[num|] cm]; intros [= <- <-];
    simpl.
  - split; [by left |]. split; [split; [by eexists | done] |].
    split; [done |]. done.
  - split; [by right |]. split; [split; [done | by intros [? ?]] |].
    split; [done |]. intros _.
    unfold KLU.getLFactor, KLU.getUFactor, KLU.extract_factors,
      KLU.getPOrdering, KLU.getQOrdering. simpl. done.
Qed.

(** A KLU stand-in whose numeric factorization fails. *)
Definition example_klu_singular : KLU.klu_library :=
  KLU.mkLibrary (list Z) (list Z) id id (λ _, 2) (λ _, 3)
    (KLU.mkCommon 1 2 0 (fl 0) true 0 (fl 0))
    (λ n _ _ cm, (Some (seqZ 0 n), cm))
    (λ _ _ _ _ cm, (None, cm))
    (λ _ _ _ _ num cm, (0, num, cm))
    (λ _ _ _ _ b cm, (0, b, cm))
    (λ _ _, (([], [], []), ([], [], []))).

Lemma klu_failed_factorize_witness :
  ∃ s', KLU.factorize example_klu_singular
          (KLU.setup example_klu_singular
             (KLU.constructor example_klu_singular (fl 0) 1 true) example_A).2
        = Done (1, s')
        ∧ KLU.getLFactor example_klu_singular s' = Undefined.
Proof.
  eexists. split; [reflexivity |].
  destruct (klu_failed_factorize example_klu_singular
              (KLU.setup example_klu_singular
                 (KLU.constructor example_klu_singular (fl 0) 1 true)
                 example_A).2 _ 1 eq_refl) as (_ & _ & _ & H).
  destruct (H eq_refl) as (HL & _). exact HL.
Defined.

(** * The host-direct backend: sequences of calls *)

Section KLUCalls.
Import KLU memory.
Variable lib : klu_library.
Variable c : libc.
(** [klu_rcond] of the library, used by [getMatrixConditionNumber]. *)
Variable klu_rcond : option (klu_symbolic lib) → option (klu_numeric lib)
                     → klu_common → klu_common.

(** The calls a client can make on a solver. *)
Inductive klu_call :=
| call_setup (A : Sparse)
| call_analyze
| call_factorize
| call_refactorize
| call_solve (rhs x : vector_ptr)
| call_solve_in_place (rhs : vector_ptr)
| call_getLFactor
| call_getUFactor
| call_getPOrdering
| call_getQOrdering
| call_setPivotThreshold (tol : real_type)
| call_setOrdering (ord : Z)
| call_setHaltIfSingular (isHalt : bool)
| call_getMatrixConditionNumber
| call_setCliParam (id value : string).

(** The solver, the heap of index arrays and the vectors of the client. *)
Record klu_state := mkKluState {
  klu_solver : t lib;
  klu_heap : index_heap;
  klu_vectors : vector_store
}.

(** One call; what it returns to the client is dropped. *)
Definition klu_exec (call : klu_call) (st : klu_state) : result klu_state :=
  let s := klu_solver st in
  let h := klu_heap st in
  let vs := klu_vectors st in
  match call with
  | call_setup A => Done (mkKluState (setup lib s A).2 h vs)
  | call_analyze => '(_, s) ← analyze lib s; Done (mkKluState s h vs)
  | call_factorize => '(_, s) ← factorize lib s; Done (mkKluState s h vs)
  | call_refactorize => '(_, s) ← refactorize lib s; Done (mkKluState s h vs)
  | call_solve rhs x =>
      '(_, s, vs) ← solve lib s rhs x vs; Done (mkKluState s h vs)
  | call_solve_in_place rhs =>
      '(_, s, vs) ← solve_in_place lib s rhs vs; Done (mkKluState s h vs)
  | call_getLFactor => '(_, s) ← getLFactor lib s; Done (mkKluState s h vs)
  | call_getUFactor => '(_, s) ← getUFactor lib s; Done (mkKluState s h vs)
  | call_getPOrdering =>
      '(_, s, h) ← getPOrdering lib s h; Done (mkKluState s h vs)
  | call_getQOrdering =>
      '(_, s, h) ← getQOrdering lib s h; Done (mkKluState s h vs)
  | call_setPivotThreshold tol => Done (mkKluState (setPivotThreshold lib s tol) h vs)
  | call_setOrdering ord => Done (mkKluState (setOrdering lib s ord) h vs)
  | call_setHaltIfSingular b => Done (mkKluState (setHaltIfSingular lib s b) h vs)
  | call_getMatrixConditionNumber =>
      Done (mkKluState (getMatrixConditionNumber lib klu_rcond s).2 h vs)
  | call_setCliParam id value =>
      Done (mkKluState (setCliParam lib c s id value).2 h vs)
  end.

Fixpoint klu_run (calls : list klu_call) (st : klu_state) : result klu_state :=
  match calls with
  | [] => Done st
  | call :: calls => st ← klu_exec call st; klu_run calls st
  end.

(** An invariant of every call is an invariant of every sequence. *)
Lemma klu_run_invariant (P : klu_state → Prop) :
  (∀ call st st', P st → klu_exec call st = Done st' → P st') →
  ∀ calls st st', P st → klu_run calls st = Done st' → P st'.
Proof.
  intros Hstep. induction calls as [|call calls IH]; intros st st' Hst; simpl.
  - by intros [= <-].
  - destruct (klu_exec call st) as [st1| |] eqn:Hc; simpl; [| done | done].
    apply IH. by eapply Hstep.
Qed.

(** ** The factors are those of the current numeric object *)

(** The matrix the solver is bound to is one of [M]; when the solver holds
    extracted factors, they are what [klu_extract] gives for the numeric
    and symbolic objects it holds now, in the dimensions of a matrix of
    [M]. *)
Definition cache_from (M : Sparse → Prop) (s : t lib) : Prop :=
  (∀ A, A_ lib s = Some A → M A)
  ∧ (factors_extracted_ lib s = true →
     ∃ num A,
       M A
       ∧ Numeric_ lib s = Some num
       ∧ L_ lib s = Some (klu_factors lib num (Symbolic_ lib s) A).1
       ∧ U_ lib s = Some (klu_factors lib num (Symbolic_ lib s) A).2).

Lemma setCliParam_frame (s : t lib) (id value : string) :
  let s' := (setCliParam lib c s id value).2 in
  A_ lib s' = A_ lib s ∧ Symbolic_ lib s' = Symbolic_ lib s
  ∧ Numeric_ lib s' = Numeric_ lib s ∧ L_ lib s' = L_ lib s
  ∧ U_ lib s' = U_ lib s ∧ P_ lib s' = P_ lib s ∧ Q_ lib s' = Q_ lib s
  ∧ factors_extracted_ lib s' = factors_extracted_ lib s.
Proof.
  unfold setCliParam. destruct (getParamId lib s id) as [[]|]; repeat split.
Qed.

Lemma getPOrdering_Done (s s' : t lib) h h' r :
  getPOrdering lib s h = Done (r, s', h') →
  (r = None ∧ s' = s ∧ h' = h ∧ Numeric_ lib s = None)
  ∨ (∃ blk, r = Some (fresh (dom h)) ∧ s' = set_P_ lib s r
            ∧ h' = <[fresh (dom h) := blk]> h ∧ is_Some (Numeric_ lib s)).
Proof.
  unfold getPOrdering. destruct (Numeric_ lib s) as [num|]; [| left; by simplify_eq].
  destruct (A_ lib s) as [A|]; [| done]. simpl.
  unfold new_index_array. destruct (decide _); [done |]. simpl.
  unfold memcpy_index. rewrite (deref_Some _ _ _ (lookup_insert_eq _ _ _)). simpl.
  destruct (decide _); [| done]. intros [= <- <- <-]. right.
  eexists. rewrite insert_insert_eq. repeat split. by eexists.
Qed.

Lemma getQOrdering_Done (s s' : t lib) h h' r :
  getQOrdering lib s h = Done (r, s', h') →
  (r = None ∧ s' = s ∧ h' = h ∧ Numeric_ lib s = None)
  ∨ (∃ blk, r = Some (fresh (dom h)) ∧ s' = set_Q_ lib s r
            ∧ h' = <[fresh (dom h) := blk]> h ∧ is_Some (Numeric_ lib s)).
Proof.
  unfold getQOrdering. destruct (Numeric_ lib s) as [num|]; [| left; by simplify_eq].
  destruct (A_ lib s) as [A|]; [| done]. simpl.
  unfold new_index_array. destruct (decide _); [done |]. simpl.
  destruct (Symbolic_ lib s) as [sym|]; [| done]. simpl.
  unfold memcpy_index. rewrite (deref_Some _ _ _ (lookup_insert_eq _ _ _)). simpl.
  destruct (decide _); [| done]. intros [= <- <- <-]. right.
  eexists. rewrite insert_insert_eq. repeat split. by eexists.
Qed.

Lemma analyze_Done (s s' : t lib) ret :
  analyze lib s = Done (ret, s') →
  factors_extracted_ lib s' = false ∧ L_ lib s' = None ∧ U_ lib s' = None
  ∧ P_ lib s' = P_ lib s ∧ Q_ lib s' = Q_ lib s.
Proof.
  unfold analyze. destruct (A_ lib s) as [A|]; [| done]. simpl.
  destruct (klu_analyze lib _ _ _ _) as [sym cm]. by intros [= <- <-].
Qed.

Lemma factorize_Done (s s' : t lib) ret :
  factorize lib s = Done (ret, s') →
  factors_extracted_ lib s' = false ∧ L_ lib s' = None ∧ U_ lib s' = None
  ∧ P_ lib s' = P_ lib s ∧ Q_ lib s' = Q_ lib s.
Proof.
  unfold factorize. destruct (A_ lib s) as [A|]; [| done]. simpl.
  destruct (klu_factor lib _ _ _ _ _) as [num cm]. by intros [= <- <-].
Qed.

Lemma refactorize_Done (s s' : t lib) ret :
  refactorize lib s = Done (ret, s') →
  factors_extracted_ lib s' = false ∧ L_ lib s' = None ∧ U_ lib s' = None
  ∧ P_ lib s' = P_ lib s ∧ Q_ lib s' = Q_ lib s.
Proof.
  unfold refactorize. destruct (A_ lib s) as [A|]; [| done]. simpl.
  destruct (klu_refactor lib _ _ _ _ _ _) as [[st num] cm]. by intros [= <- <-].
Qed.

Lemma solve_Done (s s' : t lib) rhs x vs vs' ret :
  solve lib s rhs x vs = Done (ret, s', vs') →
  ∃ cm, s' = set_Common_ lib s cm.
Proof.
  unfold solve. destruct (deref vs rhs) as [v_rhs| |]; [| done | done]. simpl.
  destruct (deref vs x) as [v_x| |]; [| done | done]. simpl.
  destruct (Vec.copyDataFrom _ _ _) as [v| |]; [| done | done]. simpl.
  destruct (A_ lib s) as [A|]; [| done]. simpl.
  destruct (klu_solve lib _ _ _ _ _ _) as [[st sol] cm]. intros [= <- <- <-].
  by eexists.
Qed.

Lemma analyze_bound (s s' : t lib) ret :
  analyze lib s = Done (ret, s') → A_ lib s' = A_ lib s.
Proof.
  unfold analyze. destruct (A_ lib s) as [A|] eqn:HA; [| done]. simpl.
  destruct (klu_analyze lib _ _ _ _) as [sym cm]. by intros [= <- <-].
Qed.

Lemma factorize_bound (s s' : t lib) ret :
  factorize lib s = Done (ret, s') → A_ lib s' = A_ lib s.
Proof.
  unfold factorize. destruct (A_ lib s) as [A|] eqn:HA; [| done]. simpl.
  destruct (klu_factor lib _ _ _ _ _) as [num cm]. by intros [= <- <-].
Qed.

Lemma refactorize_bound (s s' : t lib) ret :
  refactorize lib s = Done (ret, s') → A_ lib s' = A_ lib s.
Proof.
  unfold refactorize. destruct (A_ lib s) as [A|] eqn:HA; [| done]. simpl.
  destruct (klu_refactor lib _ _ _ _ _ _) as [[st num] cm].
  by intros [= <- <-].
Qed.

Lemma extract_factors_from (M : Sparse → Prop) (s s' : t lib) :
  cache_from M s → extract_factors lib s = Done s' → cache_from M s'.
Proof.
  intros [HM Hs] Hx. unfold extract_factors in Hx.
  destruct (factors_extracted_ lib s) eqn:He.
  - injection Hx as <-. split; [done |]. by rewrite He.
  - destruct (Numeric_ lib s) as [num|] eqn:Hnum; [| done]. simpl in Hx.
    destruct (A_ lib s) as [A|] eqn:HA; [| done]. simpl in Hx.
    destruct (klu_extract lib num (Symbolic_ lib s))
      as [[[Lp Li] Lx] [[Up Ui] Ux]] eqn:Hext.
    injection Hx as <-. split; simpl.
    + exact HM.
    + intros _. exists num, A. unfold klu_factors. rewrite Hext.
      split; [by apply HM |]. done.
Qed.

(** No call but [setup] changes the matrix the solver is bound to, and
    [setup] changes nothing else: it leaves extracted factors in place. *)
Lemma klu_exec_cache_from (M : Sparse → Prop) call st st' :
  (∀ B, call = call_setup B → M B) →
  cache_from M (klu_solver st) → klu_exec call st = Done st' →
  cache_from M (klu_solver st').
Proof.
  destruct st as [s h vs]. intros HB [HM Hs]. unfold klu_exec. simpl.
  destruct call; intros H.
  - injection H as <-. split; simpl.
    + intros B [= <-]. by apply HB.
    + exact Hs.
  - destruct (analyze lib s) as [[ret s1]| |] eqn:Hc; simpl in H; [| done | done].
    injection H as <-. simpl. split.
    + by rewrite (analyze_bound _ _ _ Hc).
    + apply analyze_Done in Hc as (He & _). congruence.
  - destruct (factorize lib s) as [[ret s1]| |] eqn:Hc; simpl in H; [| done | done].
    injection H as <-. simpl. split.
    + by rewrite (factorize_bound _ _ _ Hc).
    + apply factorize_Done in Hc as (He & _). congruence.
  - destruct (refactorize lib s) as [[ret s1]| |] eqn:Hc; simpl in H; [| done | done].
    injection H as <-. simpl. split.
    + by rewrite (refactorize_bound _ _ _ Hc).
    + apply refactorize_Done in Hc as (He & _). congruence.
  - destruct (solve lib s rhs x vs) as [[[ret s1] vs1]| |] eqn:Hc; simpl in H;
      [| done | done].
    injection H as <-. apply solve_Done in Hc as [cm ->]. by split.
  - injection H as <-. by split.
  - destruct (getLFactor lib s) as [[F s1]| |] eqn:Hc; simpl in H; [| done | done].
    injection H as <-. unfold getLFactor in Hc.
    destruct (extract_factors lib s) as [s2| |] eqn:Hx; simpl in Hc; [| done | done].
    injection Hc as <- <-. by eapply extract_factors_from.
  - destruct (getUFactor lib s) as [[F s1]| |] eqn:Hc; simpl in H; [| done | done].
    injection H as <-. unfold getUFactor in Hc.
    destruct (extract_factors lib s) as [s2| |] eqn:Hx; simpl in Hc; [| done | done].
    injection Hc as <- <-. by eapply extract_factors_from.
  - destruct (getPOrdering lib s h) as [[[r s1] h1]| |] eqn:Hc; simpl in H;
      [| done | done].
    injection H as <-.
    apply getPOrdering_Done in Hc as [(_ & -> & _)|(blk & _ & -> & _)]; by split.
  - destruct (getQOrdering lib s h) as [[[r s1] h1]| |] eqn:Hc; simpl in H;
      [| done | done].
    injection H as <-.
    apply getQOrdering_Done in Hc as [(_ & -> & _)|(blk & _ & -> & _)]; by split.
  - injection H as <-. by split.
  - injection H as <-. by split.
  - injection H as <-. by split.
  - injection H as <-. by split.
  - injection H as <-. simpl.
    destruct (setCliParam_frame s id value)
      as (HA & Hsym & Hnum & HL & HU & _ & _ & He).
    unfold cache_from. rewrite HA, Hsym, Hnum, HL, HU, He. by split.
Qed.

(** Over a sequence of calls, with [M] holding of the matrices that its
    [setup] calls bind. *)
Lemma klu_run_cache_from (M : Sparse → Prop) calls st st' :
  (∀ B, call_setup B ∈ calls → M B) →
  cache_from M (klu_solver st) → klu_run calls st = Done st' →
  cache_from M (klu_solver st').
Proof.
  revert st. induction calls as [|call calls IH]; intros st HB Hst; simpl.
  - by intros [= <-].
  - destruct (klu_exec call st) as [st1| |] eqn:Hc; simpl; [| done | done].
    apply IH.
    + intros B HBin. apply HB. by right.
    + eapply klu_exec_cache_from; [| exact Hst | exact Hc].
      intros B ->. apply HB. by left.
Qed.

End KLUCalls.

(** X10. Starting from a solver without extracted factors, after every
    sequence of calls (setup, analyze, factorize, refactorize, solve, the
    factor and ordering getters, the parameter setters, the condition
    number) a [getLFactor] or [getUFactor] that returns gives the factor
    that [klu_extract] computes for the numeric and symbolic objects the
    solver holds at that moment, in the dimensions of a matrix that was
    bound to the solver: the one it started with or the argument of a
    [setup] of the sequence.  [analyze], [factorize] and [refactorize]
    drop the extracted factors; [setup] does not, so the dimensions need
    not be those of the matrix bound at that moment. *)
Theorem klu_factors_from_current_numeric
    (lib : KLU.klu_library) (c : libc)
    (klu_rcond : option (KLU.klu_symbolic lib) → option (KLU.klu_numeric lib)
                 → KLU.klu_common → KLU.klu_common)
    (calls : list klu_call) (st st' : klu_state lib) :
  KLU.factors_extracted_ lib (klu_solver lib st) = false →
  klu_run lib c klu_rcond calls st = Done st' →
  ∀ (F : option Sparse) (s'' : KLU.t lib),
  (KLU.getLFactor lib (klu_solver lib st') = Done (F, s'')
   → ∃ num A,
       (KLU.A_ lib (klu_solver lib st) = Some A ∨ call_setup A ∈ calls)
       ∧ KLU.Numeric_ lib (klu_solver lib st') = Some num
       ∧ F = Some (klu_factors lib num
                     (KLU.Symbolic_ lib (klu_solver lib st')) A).1)
  ∧ (KLU.getUFactor lib (klu_solver lib st') = Done (F, s'')
     → ∃ num A,
         (KLU.A_ lib (klu_solver lib st) = Some A ∨ call_setup A ∈ calls)
         ∧ KLU.Numeric_ lib (klu_solver lib st') = Some num
         ∧ F = Some (klu_factors lib num
                       (KLU.Symbolic_ lib (klu_solver lib st')) A).2).
Proof.
  intros He Hrun.
  set (M := λ A, KLU.A_ lib (klu_solver lib st) = Some A ∨ call_setup A ∈ calls).
  assert (cache_from lib M (klu_solver lib st')) as Hfrom.
  { apply (klu_run_cache_from lib c klu_rcond M calls st st'); [| | exact Hrun].
    - intros B HB. by right.
    - split; [intros A HA; by left | intros He'; congruence]. }
  intros F s''. split; intros Hget.
  - unfold KLU.getLFactor in Hget.
    destruct (KLU.extract_factors lib (klu_solver lib st')) as [s2| |] eqn:Hx;
      simpl in Hget; [| done | done].
    injection Hget as <- <-.
    destruct (extract_factors_from lib M _ _ Hfrom Hx) as [_ Hf2].
    destruct (extract_factors_Done lib _ _ Hx) as (He2 & Hnum & Hsym & _).
    destruct (Hf2 He2) as (num & A & HM & Hn & HL & _).
    exists num, A. rewrite <- Hnum, <- Hsym. done.
  - unfold KLU.getUFactor in Hget.
    destruct (KLU.extract_factors lib (klu_solver lib st')) as [s2| |] eqn:Hx;
      simpl in Hget; [| done | done].
    injection Hget as <- <-.
    destruct (extract_factors_from lib M _ _ Hfrom Hx) as [_ Hf2].
    destruct (extract_factors_Done lib _ _ Hx) as (He2 & Hnum & Hsym & _).
    destruct (Hf2 He2) as (num & A & HM & Hn & _ & HU).
    exists num, A. rewrite <- Hnum, <- Hsym. done.
Qed.

(** After [setup], [analyze], [factorize] and [getLFactor] on a 2 x 2
    matrix and a second [setup] with the 3 x 3 matrix [square3], the solver
    is bound to the 3 x 3 matrix and [getLFactor] still returns the factor
    with 2 rows. *)
Lemma klu_factors_from_current_numeric_witness :
  ∃ st' F s'' num A,
    klu_run example_klu example_libc (λ _ _ cm, cm)
      [call_setup example_A; call_analyze; call_factorize; call_getLFactor;
       call_setup square3]
      (mkKluState example_klu (KLU.constructor example_klu (fl 0) 1 true) ∅ ∅)
    = Done st'
    ∧ KLU.A_ example_klu (klu_solver example_klu st') = Some square3
    ∧ KLU.getLFactor example_klu (klu_solver example_klu st') = Done (Some F, s'')
    ∧ getNumRows F = 2
    ∧ KLU.Numeric_ example_klu (klu_solver example_klu st') = Some num
    ∧ (A = example_A ∨ A = square3)
    ∧ F = (klu_factors example_klu num
             (KLU.Symbolic_ example_klu (klu_solver example_klu st')) A).1.
Proof.
  eassert (klu_run example_klu example_libc (λ _ _ cm, cm)
             [call_setup example_A; call_analyze; call_factorize;
              call_getLFactor; call_setup square3]
             (mkKluState example_klu (KLU.constructor example_klu (fl 0) 1 true) ∅ ∅)
           = Done _) as Hrun by (vm_compute; reflexivity).
  match type of Hrun with
  | _ = Done ?st =>
      eassert (KLU.getLFactor example_klu (klu_solver example_klu st)
               = Done (Some _, _))
        as Hget by (vm_compute; reflexivity)
  end.
  match type of Hget with
  | _ = Done (Some ?F, ?s2) =>
      destruct (klu_factors_from_current_numeric example_klu example_libc
                  (λ _ _ cm, cm) _
                  (mkKluState example_klu
                     (KLU.constructor example_klu (fl 0) 1 true) ∅ ∅)
                  _ eq_refl Hrun (Some F) s2) as [HL _]
  end.
  destruct (HL Hget) as (num & A & HA & Hn & HF).
  apply (inj Some) in HF.
  eexists _, _, _, num, A.
  split; [exact Hrun |]. split; [reflexivity |]. split; [exact Hget |].
  split; [reflexivity |]. split; [exact Hn |]. split; [| exact HF].
  destruct HA as [HA|HA]; [discriminate HA |].
  apply list_elem_of_In in HA. simpl in HA.
  destruct HA as [[= <-]|[HA|[HA|[HA|[[= <-]|[]]]]]];
    (by left) || (by right) || discriminate HA.
Defined.

(** ** The ordering arrays *)

Section KLUHeap.
Import KLU memory.
Variable lib : klu_library.
Variable c : libc.
Variable klu_rcond : option (klu_symbolic lib) → option (klu_numeric lib)
                     → klu_common → klu_common.

(** The blocks behind [P_] and [Q_] are live, and they are two blocks. *)
Definition orderings_live (s : t lib) (h : index_heap) : Prop :=
  (∀ p, P_ lib s = Some p → is_Some (h !! p))
  ∧ (∀ q, Q_ lib s = Some q → is_Some (h !! q))
  ∧ (∀ p q, P_ lib s = Some p → Q_ lib s = Some q → p ≠ q).

Lemma orderings_live_frame (s s' : t lib) h :
  P_ lib s' = P_ lib s → Q_ lib s' = Q_ lib s →
  orderings_live s h → orderings_live s' h.
Proof. unfold orderings_live. by intros -> ->. Qed.

Lemma fresh_not_live (h : index_heap) (p : positive) :
  is_Some (h !! p) → p ≠ fresh (dom h).
Proof.
  intros Hp ->. apply elem_of_dom in Hp. by apply is_fresh in Hp.
Qed.

Lemma klu_exec_orderings_live h0 call (st st' : klu_state lib) :
  orderings_live (klu_solver lib st) (klu_heap lib st) ∧ h0 ⊆ klu_heap lib st →
  klu_exec lib c klu_rcond call st = Done st' →
  orderings_live (klu_solver lib st') (klu_heap lib st') ∧ h0 ⊆ klu_heap lib st'.
Proof.
  destruct st as [s h vs]. intros [Hs Hsub]. unfold klu_exec. simpl in *.
  destruct call; intros H.
  - injection H as <-. done.
  - destruct (analyze lib s) as [[ret s1]| |] eqn:Hc; simpl in H; [| done | done].
    injection H as <-. apply analyze_Done in Hc as (_ & _ & _ & HP & HQ).
    split; [| done]. by apply (orderings_live_frame s).
  - destruct (factorize lib s) as [[ret s1]| |] eqn:Hc; simpl in H; [| done | done].
    injection H as <-. apply factorize_Done in Hc as (_ & _ & _ & HP & HQ).
    split; [| done]. by apply (orderings_live_frame s).
  - destruct (refactorize lib s) as [[ret s1]| |] eqn:Hc; simpl in H; [| done | done].
    injection H as <-. apply refactorize_Done in Hc as (_ & _ & _ & HP & HQ).
    split; [| done]. by apply (orderings_live_frame s).
  - destruct (solve lib s rhs x vs) as [[[ret s1] vs1]| |] eqn:Hc; simpl in H;
      [| done | done].
    injection H as <-. apply solve_Done in Hc as [cm ->]. done.
  - injection H as <-. done.
  - destruct (getLFactor lib s) as [[F s1]| |] eqn:Hc; simpl in H; [| done | done].
    injection H as <-. unfold getLFactor in Hc.
    destruct (extract_factors lib s) as [s2| |] eqn:Hx; simpl in Hc; [| done | done].
    injection Hc as <- <-.
    apply extract_factors_Done in Hx as (_ & _ & _ & _ & HP & HQ & _).
    split; [| done]. by apply (orderings_live_frame s).
  - destruct (getUFactor lib s) as [[F s1]| |] eqn:Hc; simpl in H; [| done | done].
    injection H as <-. unfold getUFactor in Hc.
    destruct (extract_factors lib s) as [s2| |] eqn:Hx; simpl in Hc; [| done | done].
    injection Hc as <- <-.
    apply extract_factors_Done in Hx as (_ & _ & _ & _ & HP & HQ & _).
    split; [| done]. by apply (orderings_live_frame s).
  - destruct (getPOrdering lib s h) as [[[r s1] h1]| |] eqn:Hc; simpl in H;
      [| done | done].
    injection H as <-.
    apply getPOrdering_Done in Hc as [(_ & -> & -> & _)|(blk & -> & -> & -> & _)];
      [done |].
    destruct Hs as (HP & HQ & Hne). simpl. split.
    + split; [| split]; simpl.
      * intros p [= <-]. rewrite lookup_insert_eq. by eexists.
      * intros q Hq. rewrite lookup_insert_ne; [by apply HQ |].
        apply not_eq_sym, fresh_not_live. by apply HQ.
      * intros p q [= <-] Hq. apply not_eq_sym, fresh_not_live. by apply HQ.
    + etrans; [exact Hsub |]. apply insert_subseteq.
      apply not_elem_of_dom, is_fresh.
  - destruct (getQOrdering lib s h) as [[[r s1] h1]| |] eqn:Hc; simpl in H;
      [| done | done].
    injection H as <-.
    apply getQOrdering_Done in Hc as [(_ & -> & -> & _)|(blk & -> & -> & -> & _)];
      [done |].
    destruct Hs as (HP & HQ & Hne). simpl. split.
    + split; [| split]; simpl.
      * intros p Hp. rewrite lookup_insert_ne; [by apply HP |].
        apply not_eq_sym, fresh_not_live. by apply HP.
      * intros q [= <-]. rewrite lookup_insert_eq. by eexists.
      * intros p q Hp [= <-]. apply fresh_not_live. by apply HP.
    + etrans; [exact Hsub |]. apply insert_subseteq.
      apply not_elem_of_dom, is_fresh.
  - injection H as <-. done.
  - injection H as <-. done.
  - injection H as <-. done.
  - injection H as <-. done.
  - injection H as <-. simpl. split; [| done].
    destruct (setCliParam_frame lib c s id value)
      as (_ & _ & _ & _ & _ & HP & HQ & _).
    by apply (orderings_live_frame s).
Qed.

Lemma destructor_live (s : t lib) h :
  orderings_live s h →
  ∃ h', destructor lib s h = Done h'
        ∧ ∀ p, P_ lib s ≠ Some p → Q_ lib s ≠ Some p → h' !! p = h !! p.
Proof.
  intros (HP & HQ & Hne). unfold destructor.
  destruct (factors_extracted_ lib s); [| by exists h].
  unfold delete_index_array.
  destruct (P_ lib s) as [p|] eqn:Hp, (Q_ lib s) as [q|] eqn:Hq; simpl.
  - rewrite decide_True by by apply HP. simpl.
    rewrite decide_True by (rewrite lookup_delete_ne; [by apply HQ | by apply Hne]).
    eexists. split; [done |]. intros r Hr1 Hr2.
    rewrite !lookup_delete_ne by congruence. done.
  - rewrite decide_True by by apply HP. simpl.
    eexists. split; [done |]. intros r Hr1 _.
    rewrite lookup_delete_ne by congruence. done.
  - rewrite decide_True by by apply HQ.
    eexists. split; [done |]. intros r _ Hr2.
    rewrite lookup_delete_ne by congruence. done.
  - by exists h.
Qed.

End KLUHeap.

(** X11. When the arrays behind [P_] and [Q_] (if any) are live and
    distinct, they stay so through every sequence of calls, and no call
    frees or changes a block that was live before; the destructor then
    returns: it frees no block twice and none that is not live, and it
    leaves every block alone that [P_] and [Q_] do not point to. *)
Theorem klu_destructor_safe
    (lib : KLU.klu_library) (c : libc)
    (klu_rcond : option (KLU.klu_symbolic lib) → option (KLU.klu_numeric lib)
                 → KLU.klu_common → KLU.klu_common)
    (calls : list klu_call) (st st' : klu_state lib) :
  orderings_live lib (klu_solver lib st) (klu_heap lib st) →
  klu_run lib c klu_rcond calls st = Done st' →
  klu_heap lib st ⊆ klu_heap lib st'
  ∧ ∃ h', KLU.destructor lib (klu_solver lib st') (klu_heap lib st') = Done h'
          ∧ ∀ p, KLU.P_ lib (klu_solver lib st') ≠ Some p →
                 KLU.Q_ lib (klu_solver lib st') ≠ Some p →
                 h' !! p = klu_heap lib st' !! p.
Proof.
  intros Hlive Hrun.
  assert (orderings_live lib (klu_solver lib st') (klu_heap lib st')
          ∧ klu_heap lib st ⊆ klu_heap lib st') as [Hlive' Hsub].
  { revert Hrun.
    apply (klu_run_invariant lib c klu_rcond
             (λ st1, orderings_live lib (klu_solver lib st1) (klu_heap lib st1)
                     ∧ klu_heap lib st ⊆ klu_heap lib st1)).
    - apply klu_exec_orderings_live.
    - done. }
  split; [done |]. by apply destructor_live.
Qed.

Lemma klu_destructor_safe_witness :
  ∃ st' h',
    klu_run example_klu example_libc (λ _ _ cm, cm)
      [call_setup example_A; call_analyze; call_factorize; call_getPOrdering;
       call_getQOrdering; call_getLFactor; call_getPOrdering]
      (mkKluState example_klu (KLU.constructor example_klu (fl 0) 1 true) ∅ ∅)
    = Done st'
    ∧ KLU.destructor example_klu (klu_solver example_klu st') (klu_heap example_klu st')
      = Done h'.
Proof.
  eassert (klu_run example_klu example_libc (λ _ _ cm, cm)
             [call_setup example_A; call_analyze; call_factorize;
              call_getPOrdering; call_getQOrdering; call_getLFactor;
              call_getPOrdering]
             (mkKluState example_klu (KLU.constructor example_klu (fl 0) 1 true) ∅ ∅)
           = Done _) as Hrun by (vm_compute; reflexivity).
  destruct (klu_destructor_safe example_klu example_libc (λ _ _ cm, cm) _
              (mkKluState example_klu (KLU.constructor example_klu (fl 0) 1 true) ∅ ∅)
              _ ltac:(split; [| split]; intros; discriminate) Hrun)
    as (_ & h' & Hd & _).
  eexists _, h'. split; [exact Hrun | exact Hd].
Defined.

(** X12. Each [getPOrdering] makes a new array and lets go of the one it
    made before without freeing it: after two calls the first array is
    still allocated with its content, [P_] points to the second, and the
    destructor, which frees at most the arrays behind [P_] and [Q_], leaves
    the first one allocated. *)
Theorem klu_ordering_leak (lib : KLU.klu_library) (s s1 s2 : KLU.t lib)
    (h h1 h2 : index_heap) (p1 p2 : positive) :
  (∀ q, KLU.Q_ lib s = Some q → is_Some (h !! q)) →
  KLU.getPOrdering lib s h = Done (Some p1, s1, h1) →
  KLU.getPOrdering lib s1 h1 = Done (Some p2, s2, h2) →
  p1 ≠ p2
  ∧ KLU.P_ lib s2 = Some p2
  ∧ is_Some (h1 !! p1)
  ∧ h2 !! p1 = h1 !! p1
  ∧ ∃ h3, KLU.destructor lib s2 h2 = Done h3 ∧ h3 !! p1 = h1 !! p1.
Proof.
  intros HQ H1 H2.
  apply getPOrdering_Done in H1 as [(? & _)|(blk1 & [= ->] & -> & -> & _)];
    [done |].
  apply getPOrdering_Done in H2 as [(? & _)|(blk2 & [= ->] & -> & -> & _)];
    [done |].
  set (p1 := fresh (dom h)). set (h1 := <[p1 := blk1]> h).
  set (p2 := fresh (dom h1)).
  assert (h1 !! p1 = Some blk1) as Hp1 by apply lookup_insert_eq.
  assert (p1 ≠ p2) as Hne by (apply fresh_not_live; by eexists).
  split; [done |]. split; [done |]. split; [by eexists |].
  split; [by rewrite lookup_insert_ne |].
  destruct (destructor_live lib
              (KLU.set_P_ lib (KLU.set_P_ lib s (Some p1)) (Some p2))
              (<[p2 := blk2]> h1)) as (h3 & Hd & Hframe).
  { split; [| split]; simpl.
    - intros p [= <-]. rewrite lookup_insert_eq. by eexists.
    - intros q Hq. specialize (HQ q Hq).
      assert (q ≠ p1) by by apply fresh_not_live.
      assert (is_Some (h1 !! q)) as Hq1.
      { unfold h1. by rewrite lookup_insert_ne. }
      rewrite lookup_insert_ne; [done |].
      by apply not_eq_sym, fresh_not_live.
    - intros p q [= <-] Hq. specialize (HQ q Hq).
      assert (q ≠ p1) by by apply fresh_not_live.
      assert (is_Some (h1 !! q)) as Hq1.
      { unfold h1. by rewrite lookup_insert_ne. }
      by apply not_eq_sym, fresh_not_live. }
  exists h3. split; [exact Hd |].
  rewrite Hframe; simpl.
  - by rewrite lookup_insert_ne.
  - congruence.
  - intros Hq. specialize (HQ p1 Hq).
    by apply (fresh_not_live h p1).
Qed.

Lemma klu_ordering_leak_witness :
  ∃ p1 s1 h1 p2 s2 h2 h3,
    KLU.getPOrdering example_klu example_klu_factorized ∅ = Done (Some p1, s1, h1)
    ∧ KLU.getPOrdering example_klu s1 h1 = Done (Some p2, s2, h2)
    ∧ KLU.destructor example_klu s2 h2 = Done h3
    ∧ h3 !! p1 = Some [1; 0].
Proof.
  eassert (KLU.getPOrdering example_klu example_klu_factorized ∅
           = Done (Some _, _, _)) as H1 by reflexivity.
  match type of H1 with
  | _ = Done (_, ?s1, ?h1) =>
      eassert (KLU.getPOrdering example_klu s1 h1 = Done (Some _, _, _)) as H2
        by reflexivity
  end.
  destruct (klu_ordering_leak example_klu example_klu_factorized _ _ ∅ _ _ _ _
              ltac:(intros q Hq; discriminate Hq) H1 H2)
    as (_ & _ & _ & _ & h3 & Hd & Hp).
  eexists _, _, _, _, _, _, h3.
  split; [exact H1 |]. split; [exact H2 |]. split; [exact Hd |].
  rewrite Hp. apply lookup_insert_eq.
Defined.

(** * The device-refactor backend: the handle *)

Section RfCalls.
Import CuSolverRf memory.
Variable lib : cusolverRf_library.
Variable c : libc.

(** The calls a client can make on a solver. *)
Inductive rf_call :=
| rf_call_setup (A L U : Sparse) (P Q : list Z)
| rf_call_refactorize
| rf_call_solve (rhs x : vector_ptr)
| rf_call_solve_in_place (rhs : vector_ptr)
| rf_call_setAlgorithms (fact_alg solve_alg : Z)
| rf_call_setNumericalProperties (nzero nboost : real_type)
| rf_call_setCliParam (id value : string).

(** The solver, the live handles and the vectors of the client. *)
Record rf_state := mkRfState {
  rf_solver : t;
  rf_handles : handles lib;
  rf_vectors : vector_store
}.

(** One call; what it returns to the client is dropped. *)
Definition rf_exec (call : rf_call) (st : rf_state) : result rf_state :=
  let s := rf_solver st in
  let w := rf_handles st in
  let vs := rf_vectors st in
  match call with
  | rf_call_setup A L U P Q =>
      '(_, s, w) ← setup lib s w A L U P Q; Done (mkRfState s w vs)
  | rf_call_refactorize =>
      '(_, s, w) ← refactorize lib s w; Done (mkRfState s w vs)
  | rf_call_solve rhs x =>
      '(_, s, vs) ← solve lib s w rhs x vs; Done (mkRfState s w vs)
  | rf_call_solve_in_place rhs =>
      '(_, s, vs) ← solve_in_place lib s w rhs vs; Done (mkRfState s w vs)
  | rf_call_setAlgorithms fact_alg solve_alg =>
      w ← setAlgorithms lib s w fact_alg solve_alg; Done (mkRfState s w vs)
  | rf_call_setNumericalProperties nzero nboost =>
      '(_, s, w) ← setNumericalProperties lib s w nzero nboost;
      Done (mkRfState s w vs)
  | rf_call_setCliParam id value =>
      '(_, s, w) ← setCliParam lib c s w id value; Done (mkRfState s w vs)
  end.

Fixpoint rf_run (calls : list rf_call) (st : rf_state) : result rf_state :=
  match calls with
  | [] => Done st
  | call :: calls => st ← rf_exec call st; rf_run calls st
  end.

Lemma rf_run_invariant (P : rf_state → Prop) :
  (∀ call st st', P st → rf_exec call st = Done st' → P st') →
  ∀ calls st st', P st → rf_run calls st = Done st' → P st'.
Proof.
  intros Hstep. induction calls as [|call calls IH]; intros st st' Hst; simpl.
  - by intros [= <-].
  - destruct (rf_exec call st) as [st1| |] eqn:Hc; simpl; [| done | done].
    apply IH. by eapply Hstep.
Qed.

(** The live handles are those of [w0] and the handle [h]. *)
Definition owns (h : positive) (w w0 : handles lib) : Prop :=
  w0 !! h = None ∧ ∃ d, w = <[h := d]> w0.

Lemma on_handle_owns h w w0 op st w' :
  owns h w w0 → on_handle lib w h op = Done (st, w') → owns h w' w0.
Proof.
  intros [Hh [d ->]].
  rewrite (on_handle_live lib _ _ d) by apply lookup_insert_eq.
  intros [= <- <-]. split; [done |]. eexists. by rewrite insert_insert_eq.
Qed.

Lemma create_owns w0 :
  owns (cusolverRfCreate lib w0).1 (cusolverRfCreate lib w0).2 w0.
Proof.
  unfold cusolverRfCreate. simpl. split; [| by eexists].
  apply not_elem_of_dom, is_fresh.
Qed.

Lemma destroy_owns h w w0 :
  owns h w w0 → cusolverRfDestroy lib w h = Done w0.
Proof.
  intros [Hh [d ->]]. unfold cusolverRfDestroy.
  rewrite decide_True by (rewrite lookup_insert_eq; by eexists).
  by rewrite delete_insert_id.
Qed.

(** Runs the library call on the handle at the head of [H]. *)
Ltac run_on_handle H Ho :=
  match type of H with
  | context [on_handle lib ?w ?h ?op] =>
      let E := fresh "E" in
      let st := fresh "st" in
      let w' := fresh "w" in
      destruct (on_handle lib w h op) as [[st w']| |] eqn:E; simpl in H;
      [apply (on_handle_owns _ _ _ _ _ _ Ho) in E; clear Ho; rename E into Ho
      | discriminate H | discriminate H]
  end.

Lemma setup_owns s w w0 A L U P Q ret s' w' :
  owns (handle_cusolverrf_ s) w w0 →
  setup lib s w A L U P Q = Done (ret, s', w') →
  owns (handle_cusolverrf_ s') w' w0.
Proof.
  intros Ho H. unfold setup in H.
  destruct (bool_decide (getSparseFormat A = COMPRESSED_SPARSE_ROW));
    simpl in H; [| done].
  destruct (bool_decide (getSparseFormat L = getSparseFormat U));
    simpl in H; [| done].
  destruct (setup_completed_ s) eqn:Hc; simpl in H.
  - rewrite (destroy_owns _ _ _ Ho) in H. simpl in H.
    pose proof (create_owns w0) as Ho1. clear Ho.
    destruct (factors_to_csr L U) as [[[L_csr U_csr]|]| |]; simpl in H;
      [| by simplify_eq | done | done].
    destruct (copyArray _ P _) as [p| |]; simpl in H; [| done | done].
    destruct (copyArray _ Q _) as [q| |]; simpl in H; [| done | done].
    run_on_handle H Ho1. run_on_handle H Ho1. run_on_handle H Ho1.
    unfold setAlgorithms in H. simpl in H. run_on_handle H Ho1.
    by simplify_eq.
  - destruct (factors_to_csr L U) as [[[L_csr U_csr]|]| |]; simpl in H;
      [| by simplify_eq | done | done].
    destruct (copyArray _ P _) as [p| |]; simpl in H; [| done | done].
    destruct (copyArray _ Q _) as [q| |]; simpl in H; [| done | done].
    run_on_handle H Ho. run_on_handle H Ho. run_on_handle H Ho.
    unfold setAlgorithms in H. simpl in H. run_on_handle H Ho.
    by simplify_eq.
Qed.

Lemma refactorize_owns s w w0 ret s' w' :
  owns (handle_cusolverrf_ s) w w0 →
  refactorize lib s w = Done (ret, s', w') →
  owns (handle_cusolverrf_ s') w' w0.
Proof.
  intros Ho H. unfold refactorize in H.
  destruct (bool_decide (is_Some (A_ s))); simpl in H; [| done].
  destruct (A_ s) as [A|]; simpl in H; [| done].
  destruct (bool_decide (getNumRows A > 0)); simpl in H; [| done].
  destruct (bool_decide (getNnz A > 0)); simpl in H; [| done].
  destruct (bool_decide (is_Some (d_P_ s))); simpl in H; [| done].
  destruct (bool_decide (is_Some (d_Q_ s))); simpl in H; [| done].
  run_on_handle H Ho. run_on_handle H Ho. by simplify_eq.
Qed.

Lemma rf_solve_handle s w xf ret s' sol :
  rf_solve lib s w xf = Done (ret, s', sol) →
  handle_cusolverrf_ s' = handle_cusolverrf_ s.
Proof.
  unfold rf_solve. destruct (deref w _) as [d| |]; simpl; [| done | done].
  destruct (A_ s) as [A|]; simpl; [| done].
  destruct (cusolverRfSolve lib _ _ _ _ _ _ _ _) as [[st tmp] x].
  by intros [= <- <- <-].
Qed.

Lemma setNumericalProperties_owns s w w0 nzero nboost ret s' w' :
  owns (handle_cusolverrf_ s) w w0 →
  setNumericalProperties lib s w nzero nboost = Done (ret, s', w') →
  owns (handle_cusolverrf_ s') w' w0.
Proof.
  intros Ho H. unfold setNumericalProperties in H.
  run_on_handle H Ho. by simplify_eq.
Qed.

Lemma rf_exec_owns w0 call st st' :
  owns (handle_cusolverrf_ (rf_solver st)) (rf_handles st) w0 →
  rf_exec call st = Done st' →
  owns (handle_cusolverrf_ (rf_solver st')) (rf_handles st') w0.
Proof.
  destruct st as [s w vs]. simpl. intros Ho. unfold rf_exec. simpl.
  destruct call; intros H.
  - destruct (setup lib s w A L U P Q) as [[[ret s1] w1]| |] eqn:Hc;
      simpl in H; [| done | done].
    injection H as <-. by eapply setup_owns.
  - destruct (refactorize lib s w) as [[[ret s1] w1]| |] eqn:Hc;
      simpl in H; [| done | done].
    injection H as <-. by eapply refactorize_owns.
  - destruct (solve lib s w rhs x vs) as [[[ret s1] vs1]| |] eqn:Hc;
      simpl in H; [| done | done].
    injection H as <-. simpl. unfold solve in Hc.
    destruct (deref vs rhs) as [v_rhs| |]; simpl in Hc; [| done | done].
    destruct (deref vs x) as [v_x| |]; simpl in Hc; [| done | done].
    destruct (Vec.copyDataFrom _ _ _) as [v| |]; simpl in Hc; [| done | done].
    destruct (rf_solve lib s w _) as [[[st s2] xf]| |] eqn:Hs; simpl in Hc;
      [| done | done].
    injection Hc as <- <- <-. by rewrite (rf_solve_handle _ _ _ _ _ _ Hs).
  - destruct (solve_in_place lib s w rhs vs) as [[[ret s1] vs1]| |] eqn:Hc;
      simpl in H; [| done | done].
    injection H as <-. simpl. unfold solve_in_place in Hc.
    destruct (deref vs rhs) as [v_rhs| |]; simpl in Hc; [| done | done].
    destruct (rf_solve lib s w _) as [[[st s2] xf]| |] eqn:Hs; simpl in Hc;
      [| done | done].
    injection Hc as <- <- <-. by rewrite (rf_solve_handle _ _ _ _ _ _ Hs).
  - unfold setAlgorithms in H. run_on_handle H Ho. by simplify_eq.
  - destruct (setNumericalProperties lib s w nzero nboost)
      as [[[ret s1] w1]| |] eqn:Hc; simpl in H; [| done | done].
    injection H as <-. by eapply setNumericalProperties_owns.
  - unfold setCliParam in H.
    destruct (getParamId s id) as [[]|]; simpl in H.
    + destruct (setNumericalProperties lib _ w _ _)
        as [[[ret s1] w1]| |] eqn:Hc; simpl in H; [| done | done].
      injection H as <-. by eapply setNumericalProperties_owns in Hc.
    + destruct (setNumericalProperties lib _ w _ _)
        as [[[ret s1] w1]| |] eqn:Hc; simpl in H; [| done | done].
      injection H as <-. by eapply setNumericalProperties_owns in Hc.
    + by simplify_eq.
Qed.

End RfCalls.

(** X13. From its construction on, the solver owns one cuSolverRf handle:
    after every sequence of calls (setup, repeated setup, refactorize, the
    two solves, the algorithm, numerical-property and parameter setters)
    the live handles are those that were live before the construction plus
    the solver's current handle, which is none of them; the destructor then
    leaves exactly the handles that were live before the construction. *)
Theorem rf_handle_ownership
    (lib : CuSolverRf.cusolverRf_library) (c : libc) (zp pb : real_type)
    (w0 : CuSolverRf.handles lib) (vs : vector_store)
    (calls : list rf_call) (st' : rf_state lib) :
  rf_run lib c calls
    (mkRfState lib (CuSolverRf.constructor lib zp pb w0).1
       (CuSolverRf.constructor lib zp pb w0).2 vs) = Done st' →
  w0 !! CuSolverRf.handle_cusolverrf_ (rf_solver lib st') = None
  ∧ (∃ d, rf_handles lib st'
          = <[CuSolverRf.handle_cusolverrf_ (rf_solver lib st') := d]> w0)
  ∧ CuSolverRf.destructor lib (rf_solver lib st') (rf_handles lib st')
    = Done w0.
Proof.
  intros Hrun.
  assert (owns lib (CuSolverRf.handle_cusolverrf_ (rf_solver lib st'))
            (rf_handles lib st') w0) as Ho.
  { revert Hrun.
    apply (rf_run_invariant lib c
             (λ st, owns lib (CuSolverRf.handle_cusolverrf_ (rf_solver lib st))
                      (rf_handles lib st) w0)).
    - apply rf_exec_owns.
    - simpl. apply create_owns. }
  split; [apply Ho |]. split; [apply Ho |].
  unfold CuSolverRf.destructor. by apply destroy_owns.
Qed.

Lemma rf_handle_ownership_witness :
  ∃ st',
    rf_run example_rf example_libc
      [rf_call_setup example_A example_L example_U [0; 1] [0; 1];
       rf_call_refactorize;
       rf_call_setup example_A' example_L example_U [1; 0] [1; 0];
       rf_call_solve_in_place 0%nat]
      (mkRfState example_rf
         (CuSolverRf.constructor example_rf (fl 0) (fl 0) ∅).1
         (CuSolverRf.constructor example_rf (fl 0) (fl 0) ∅).2
         example_vectors) = Done st'
    ∧ CuSolverRf.destructor example_rf (rf_solver example_rf st')
        (rf_handles example_rf st') = Done ∅.
Proof.
  eassert (rf_run example_rf example_libc
             [rf_call_setup example_A example_L example_U [0; 1] [0; 1];
              rf_call_refactorize;
              rf_call_setup example_A' example_L example_U [1; 0] [1; 0];
              rf_call_solve_in_place 0%nat]
             (mkRfState example_rf
                (CuSolverRf.constructor example_rf (fl 0) (fl 0) ∅).1
                (CuSolverRf.constructor example_rf (fl 0) (fl 0) ∅).2
                example_vectors) = Done _) as Hrun
    by (vm_compute; reflexivity).
  destruct (rf_handle_ownership example_rf example_libc (fl 0) (fl 0) ∅
              example_vectors _ _ Hrun) as (_ & _ & Hd).
  eexists. split; [exact Hrun | exact Hd].
Defined.

(** * The device-refactor backend: the factors handed to the library *)

Lemma syncData_device_host (B : Sparse) :
  d_data_updated_ B = false →
  let B' := syncData_device B in
  sparse_format B' = sparse_format B ∧ n_ B' = n_ B ∧ m_ B' = m_ B
  ∧ nnz_ B' = nnz_ B
  ∧ h_row_data_ B' = h_row_data_ B ∧ h_col_data_ B' = h_col_data_ B
  ∧ h_val_data_ B' = h_val_data_ B
  ∧ d_row_data_ B' = h_row_data_ B ∧ d_col_data_ B' = h_col_data_ B
  ∧ d_val_data_ B' = h_val_data_ B.
Proof. intros Hd. unfold syncData_device. rewrite Hd. simpl. done. Qed.

(** One factor: converted on the host, then copied to the device. *)
Lemma factor_converted (F : Sparse) :
  csc_valid F → n_ F = m_ F →
  ∃ F', Csc2Csr.csc2csr F (new_Csr (getNumRows F) (getNumColumns F) (getNnz F))
        = Done (0, F')
        ∧ csr_valid (syncData_device F')
        ∧ csr_triples (syncData_device F') ≡ₚ csc_triples F
        ∧ getRowData (syncData_device F') memory.DEVICE
          = getRowData (syncData_device F') memory.HOST
        ∧ getColData (syncData_device F') memory.DEVICE
          = getColData (syncData_device F') memory.HOST
        ∧ getValues (syncData_device F') memory.DEVICE
          = getValues (syncData_device F') memory.HOST
        ∧ getNnz (syncData_device F') = getNnz F.
Proof.
  intros Hv Hsq.
  destruct (csc2csr_square_run F
              (new_Csr (getNumRows F) (getNumColumns F) (getNnz F)) Hv Hsq)
    as (rp & Hrun & Hlen & Hrp); [done .. |].
  set (N := new_Csr (getNumRows F) (getNumColumns F) (getNnz F)) in *.
  set (B := converted F N rp) in *.
  exists B. split; [exact Hrun |].
  pose proof (converted_valid F N Hv Hsq rp Hlen Hrp) as HB. fold B in HB.
  pose proof (converted_triples F N rp Hrp) as HT. fold B in HT.
  destruct (syncData_device_host B eq_refl)
    as (Hf & Hn & Hm & Hz & Hr & Hc & Hx & Hdr & Hdc & Hdx).
  split; [| split].
  - destruct HB as [H1 H2 H3 H4 H5].
    split; rewrite ?Hf, ?Hn, ?Hm, ?Hz, ?Hr, ?Hc, ?Hx; done.
  - unfold csr_triples. rewrite Hn, Hr, Hc, Hx.
    change (csr_triples B ≡ₚ csc_triples F). rewrite HT.
    apply group_by_row_perm. pose proof (csc_rows _ Hv).
    eapply Forall_impl; [exact (csc_triples_range F Hv) |]. simpl. lia.
  - unfold getRowData, getColData, getValues, getNnz.
    rewrite Hdr, Hdc, Hdx, Hr, Hc, Hx, Hz. done.
Qed.

(** X14. When the L and U factors arrive as valid square CSC matrices,
    the [switch] of [setup] turns each of them into a CSR matrix whose
    device arrays (the ones handed to [cusolverRfSetupDevice]) equal its
    host arrays and form a valid CSR representation of the same nonzeros
    as the factor that was passed in. *)
Theorem rf_factors_converted (L U : Sparse) :
  csc_valid L → n_ L = m_ L → csc_valid U → n_ U = m_ U →
  ∃ L_csr U_csr,
    CuSolverRf.factors_to_csr L U = Done (Some (L_csr, U_csr))
    ∧ csr_valid L_csr ∧ csr_triples L_csr ≡ₚ csc_triples L
    ∧ getRowData L_csr memory.DEVICE = getRowData L_csr memory.HOST
    ∧ getColData L_csr memory.DEVICE = getColData L_csr memory.HOST
    ∧ getValues L_csr memory.DEVICE = getValues L_csr memory.HOST
    ∧ getNnz L_csr = getNnz L
    ∧ csr_valid U_csr ∧ csr_triples U_csr ≡ₚ csc_triples U
    ∧ getRowData U_csr memory.DEVICE = getRowData U_csr memory.HOST
    ∧ getColData U_csr memory.DEVICE = getColData U_csr memory.HOST
    ∧ getValues U_csr memory.DEVICE = getValues U_csr memory.HOST
    ∧ getNnz U_csr = getNnz U.
Proof.
  intros HL HLs HU HUs.
  destruct (factor_converted L HL HLs) as (L' & HrL & HL1 & HL2 & HL3 & HL4 & HL5 & HL6).
  destruct (factor_converted U HU HUs) as (U' & HrU & HU1 & HU2 & HU3 & HU4 & HU5 & HU6).
  exists (syncData_device L'), (syncData_device U').
  split; [| done].
  unfold CuSolverRf.factors_to_csr, getSparseFormat.
  rewrite (csc_format _ HL). by rewrite HrL, HrU.
Qed.

(** The factors of [[1 0] [2 1]] * [[1 2] [0 3]] in CSC format. *)
Definition example_L_csc : Sparse :=
  mkCsc 2 2 3 [0; 2; 3] [0; 1; 1] (fl <$> [1; 2; 1]).
Definition example_U_csc : Sparse :=
  mkCsc 2 2 3 [0; 1; 3] [0; 0; 1] (fl <$> [1; 2; 3]).

Lemma example_L_csc_valid : csc_valid example_L_csc.
Proof.
  split; simpl; unfold INT_MAX; try done; try lia.
  - apply ptr_valid_dec_0; try done. repeat (constructor; [| repeat constructor; lia]).
    constructor.
  - repeat constructor; lia.
Qed.

Lemma example_U_csc_valid : csc_valid example_U_csc.
Proof.
  split; simpl; unfold INT_MAX; try done; try lia.
  - apply ptr_valid_dec_0; try done. repeat (constructor; [| repeat constructor; lia]).
    constructor.
  - repeat constructor; lia.
Qed.

Lemma rf_factors_converted_witness :
  ∃ L_csr U_csr,
    CuSolverRf.factors_to_csr example_L_csc example_U_csc
    = Done (Some (L_csr, U_csr))
    ∧ csr_valid L_csr ∧ csr_valid U_csr.
Proof.
  destruct (rf_factors_converted example_L_csc example_U_csc
              example_L_csc_valid eq_refl example_U_csc_valid eq_refl)
    as (L' & U' & Hrun & HL & _ & _ & _ & _ & _ & HU & _).
  exists L', U'. split; [exact Hrun |]. split; [exact HL | exact HU].
Defined.

(** * The device-refactor backend: parameters and buffers *)

Lemma rf_registered (id : string) :
  CuSolverRf.initParamList !! id
  = if decide (id = "pivot_boost") then Some CuSolverRf.PIVOT_BOOST
    else if decide (id = "zero_pivot") then Some CuSolverRf.ZERO_PIVOT
    else None.
Proof.
  unfold CuSolverRf.initParamList.
  repeat (destruct (decide _) as [->|];
          [by rewrite ?lookup_insert_eq, ?lookup_insert_ne by done |]).
  by rewrite !lookup_insert_ne, lookup_empty by done.
Qed.

(** X15. [setCliParam] under ["zero_pivot"] (resp. ["pivot_boost"]) stores
    the converted value, which [getCliParamReal] and [printCliParam] then
    give back, and passes it with the other, unchanged value to
    [cusolverRfSetNumericProperties] on the solver's handle.  The call
    returns 0 whatever status the library reports; that status is kept in
    [status_cusolverrf_]. *)
Theorem rf_param_round_trip
    (lib : CuSolverRf.cusolverRf_library) (c : libc) (s : CuSolverRf.t)
    (w : CuSolverRf.handles lib) (d : CuSolverRf.rf_data lib)
    (value : string) :
  CuSolverRf.params_list_ s = CuSolverRf.initParamList →
  w !! CuSolverRf.handle_cusolverrf_ s = Some d →
  (let r := CuSolverRf.cusolverRfSetNumericProperties lib d (atof c value)
              (CuSolverRf.pivot_boost_ s) in
   ∃ s', CuSolverRf.setCliParam lib c s w "zero_pivot" value
         = Done (0, s', <[CuSolverRf.handle_cusolverrf_ s := r.2]> w)
         ∧ CuSolverRf.getCliParamReal s' "zero_pivot" = atof c value
         ∧ CuSolverRf.getCliParamReal s' "pivot_boost" = CuSolverRf.pivot_boost_ s
         ∧ CuSolverRf.printCliParam s' "zero_pivot"
           = (0, [print_real (atof c value)])
         ∧ CuSolverRf.status_cusolverrf_ s' = r.1)
  ∧ (let r := CuSolverRf.cusolverRfSetNumericProperties lib d
                (CuSolverRf.zero_pivot_ s) (atof c value) in
     ∃ s', CuSolverRf.setCliParam lib c s w "pivot_boost" value
           = Done (0, s', <[CuSolverRf.handle_cusolverrf_ s := r.2]> w)
           ∧ CuSolverRf.getCliParamReal s' "pivot_boost" = atof c value
           ∧ CuSolverRf.getCliParamReal s' "zero_pivot" = CuSolverRf.zero_pivot_ s
           ∧ CuSolverRf.printCliParam s' "pivot_boost"
             = (0, [print_real (atof c value)])
           ∧ CuSolverRf.status_cusolverrf_ s' = r.1).
Proof.
  intros Hreg Hd.
  unfold CuSolverRf.setCliParam, CuSolverRf.getParamId,
    CuSolverRf.setNumericalProperties.
  rewrite Hreg, !rf_registered. simpl.
  rewrite !(on_handle_live lib w _ d) by done. simpl.
  split; eexists; (split; [reflexivity |]);
    unfold CuSolverRf.getCliParamReal, CuSolverRf.printCliParam,
      CuSolverRf.getParamId; simpl; rewrite Hreg, !rf_registered; done.
Qed.

(** A cuSolverRf stand-in that rejects every numerical property. *)
Definition example_rf_strict : CuSolverRf.cusolverRf_library :=
  CuSolverRf.mkLibrary (list Z) []
    (λ d _, (0, 1 :: d))
    (λ _ _ _ _ _ _ _ _ _ _ _ _ _ _ _ d, (0, 2 :: d))
    (λ d, (0, 3 :: d))
    (λ d _ _, 4 :: d)
    (λ _ _ _ _ _ _ _ d, (0, 5 :: d))
    (λ d, (0, 6 :: d))
    (λ _ _ _ _ tmp _ xf _, (0, tmp, reverse xf))
    (λ d _ _, (3, d)).

Lemma rf_param_round_trip_witness :
  ∃ s', CuSolverRf.setCliParam example_rf_strict example_libc example_rf_solver
          {[1%positive := [4; 3; 2; 1]]} "zero_pivot" "1e-14"
        = Done (0, s', {[1%positive := [4; 3; 2; 1]]})
        ∧ CuSolverRf.status_cusolverrf_ s' = 3.
Proof.
  destruct (rf_param_round_trip example_rf_strict example_libc example_rf_solver
              {[1%positive := [4; 3; 2; 1]]} [4; 3; 2; 1] "1e-14")
    as [(s' & Hrun & _ & _ & _ & Hst) _]; [reflexivity | reflexivity |].
  exists s'. split; [| exact Hst].
  rewrite Hrun. simpl. by rewrite insert_singleton_eq.
Defined.

Lemma copyArray_short {X} (d src : list X) (n : Z) :
  Z.of_nat (length d) < n → copyArray (Some d) src n = Undefined.
Proof. intros Hn. unfold copyArray. simpl. by rewrite decide_False by lia. Qed.

Lemma copyArray_fits {X} (d src : list X) (n : Z) :
  0 ≤ n ≤ Z.of_nat (length src) → n ≤ Z.of_nat (length d) →
  copyArray (Some d) src n
  = Done (Some (take (Z.to_nat n) src ++ drop (Z.to_nat n) d)).
Proof. intros Hn Hd. unfold copyArray. simpl. by rewrite decide_True by lia. Qed.

(** X16. [setup] allocates the device copies of the orderings only while
    they are null.  On a solver that already holds an ordering buffer with
    fewer elements than the new matrix has rows, [setup] copies n elements
    into that buffer: it writes past its end. *)
Theorem rf_setup_outgrows_buffers
    (lib : CuSolverRf.cusolverRf_library) (s : CuSolverRf.t)
    (w : CuSolverRf.handles lib) (A L U L_csr U_csr : Sparse) (P Q : list Z) :
  getSparseFormat A = COMPRESSED_SPARSE_ROW →
  getSparseFormat L = getSparseFormat U →
  (CuSolverRf.setup_completed_ s = true →
   is_Some (w !! CuSolverRf.handle_cusolverrf_ s)) →
  CuSolverRf.factors_to_csr L U = Done (Some (L_csr, U_csr)) →
  0 ≤ getNumRows A ≤ Z.of_nat (length P) →
  getNumRows A ≤ Z.of_nat (length Q) →
  ¬ buffer_fits (CuSolverRf.d_P_ s) (getNumRows A)
  ∨ ¬ buffer_fits (CuSolverRf.d_Q_ s) (getNumRows A) →
  CuSolverRf.setup lib s w A L U P Q = Undefined.
Proof.
  intros HA HLU Hlive Hf HP HQ Hfit. unfold CuSolverRf.setup.
  rewrite !bool_decide_eq_true_2 by done. simpl.
  assert (∀ (s1 : CuSolverRf.t) (w1 : CuSolverRf.handles lib),
            CuSolverRf.d_P_ s1 = CuSolverRf.d_P_ s →
            CuSolverRf.d_Q_ s1 = CuSolverRf.d_Q_ s →
            CuSolverRf.A_ s1 = Some A →
            (p ← copyArray (if CuSolverRf.d_P_ s1 is None
                            then allocateArrayOnDevice 0 (getNumRows A)
                            else CuSolverRf.d_P_ s1) P (getNumRows A);
             q ← copyArray (if CuSolverRf.d_Q_ s1 is None
                            then allocateArrayOnDevice 0 (getNumRows A)
                            else CuSolverRf.d_Q_ s1) Q (getNumRows A);
             Done (p, q)) = Undefined) as Hcopy.
  { intros s1 w1 -> -> _. unfold buffer_fits in Hfit.
    destruct (CuSolverRf.d_P_ s) as [bp|] eqn:HbP.
    - destruct (decide (getNumRows A ≤ Z.of_nat (length bp))) as [Hle|Hgt].
      + destruct Hfit as [Hfit|Hfit]; [done |].
        rewrite copyArray_fits by lia. simpl.
        destruct (CuSolverRf.d_Q_ s) as [bq|]; [| done]. simpl in Hfit.
        by rewrite copyArray_short by lia.
      + by rewrite copyArray_short by lia.
    - destruct Hfit as [Hfit|Hfit]; [done |].
      rewrite copyArray_fresh by lia. simpl.
      destruct (CuSolverRf.d_Q_ s) as [bq|]; [| done]. simpl in Hfit.
      by rewrite copyArray_short by lia. }
  destruct (CuSolverRf.setup_completed_ s) eqn:Hc; simpl.
  - unfold CuSolverRf.cusolverRfDestroy. rewrite decide_True by auto. simpl.
    rewrite Hf. simpl.
    specialize (Hcopy (CuSolverRf.set_handle
                         (CuSolverRf.set_A_ s (Some A))
                         (fresh (dom (delete (CuSolverRf.handle_cusolverrf_ s) w))))
                  w eq_refl eq_refl eq_refl).
    simpl in Hcopy.
    destruct (copyArray _ P _) as [p| |]; simpl in *; [| done | done].
    by destruct (copyArray _ Q _) as [q| |].
  - rewrite Hf. simpl.
    specialize (Hcopy (CuSolverRf.set_A_ s (Some A)) w eq_refl eq_refl eq_refl).
    simpl in Hcopy.
    destruct (copyArray _ P _) as [p| |]; simpl in *; [| done | done].
    by destruct (copyArray _ Q _) as [q| |].
Qed.

(** The 3 x 3 identity in CSR format, on host and device. *)
Definition example_I3 : Sparse :=
  mkSparse COMPRESSED_SPARSE_ROW 3 3 3
    [0; 1; 2; 3] [0; 1; 2] (fl <$> [1; 1; 1])
    [0; 1; 2; 3] [0; 1; 2] (fl <$> [1; 1; 1]) true true.

Lemma rf_setup_outgrows_buffers_witness :
  CuSolverRf.setup example_rf example_rf_solver example_rf_handles
    example_I3 example_I3 example_I3 [0; 1; 2] [0; 1; 2] = Undefined.
Proof.
  apply (rf_setup_outgrows_buffers example_rf example_rf_solver
           example_rf_handles example_I3 example_I3 example_I3
           example_I3 example_I3);
    [reflexivity | reflexivity | intros _; by eexists | reflexivity
    | simpl; lia | simpl; lia |].
  left. simpl. lia.
Defined.

(** * The incomplete-factorization backend *)

Section ILU0Setup.
Import RocSparseILU0 memory.
Variable lib : rocsparse_library.
Implicit Types (s : t) (w : objects lib) (vs : vector_store).

(** Runs the library call at the head of the goal. *)
Ltac run_library_call Hw Hd :=
  match goal with
  | |- context [with_objects _ ?w0 (Some _) (Some _) ?op] =>
      let r := fresh "r" in
      let w' := fresh "w" in
      let E := fresh "E" in
      let Hw' := fresh "Hw" in
      destruct (with_objects_during lib _ _ _ _ _ w0 op Hw Hd)
        as (r & w' & E & Hw');
      rewrite E; clear E Hw; rename Hw' into Hw;
      repeat (let a := fresh "st" in let b := fresh "v" in destruct r as [a b]);
      simpl
  end.

(** The descriptors after [setup]: the three new ones next to those of
    [D]. *)
Definition setup_descrs (D : gmap positive mat_descr)
  : positive * positive * positive * gmap positive mat_descr :=
  let dA := fresh (dom D) in
  let D1 := <[dA := created_descr lib]> D in
  let dL := fresh (dom D1) in
  let D2 := <[dL := mkDescr rocsparse_fill_mode_lower rocsparse_diag_type_unit]> D1 in
  let dU := fresh (dom D2) in
  (dA, dL, dU,
   <[dU := mkDescr rocsparse_fill_mode_upper rocsparse_diag_type_non_unit]> D2).

(** [setup] in full: the solver and the objects it leaves. *)
Lemma ilu0_setup_spec s w A :
  0 ≤ getNnz A ≤ Z.of_nat (length (getValues A DEVICE)) →
  let '(dA, dL, dU, D') := setup_descrs (descrs lib w) in
  let iA := fresh (dom (infos lib w)) in
  ∃ ret st vals bs ii,
    setup lib s w A
    = Done (ret,
            mkSolver (Some A) (Some dA) (Some dL) (Some dU) (Some iA)
              (Some vals) (allocateArrayOnDevice real_zero (getNumRows A))
              (Some bs) st (params_list_ s),
            mkObjects lib D' (<[iA := ii]> (infos lib w))).
Proof.
  intros Hnnz. unfold setup_descrs. simpl.
  unfold setup. rewrite copyArray_fresh by done. simpl.
  unfold rocsparse_create_mat_descr, rocsparse_set_mat_fill_mode,
    rocsparse_set_mat_diag_type, rocsparse_create_mat_info. simpl.
  set (D := descrs lib w). set (I := infos lib w).
  set (dA := fresh (dom D)).
  rewrite (deref_Some _ _ _ (lookup_insert_eq _ _ _)). simpl.
  rewrite (deref_Some _ _ _ (lookup_insert_eq _ _ _)). simpl.
  rewrite !insert_insert_eq.
  set (dL := fresh (dom (<[dA := created_descr lib]> D))).
  rewrite (deref_Some _ _ _ (lookup_insert_eq _ _ _)). simpl.
  rewrite (deref_Some _ _ _ (lookup_insert_eq _ _ _)). simpl.
  rewrite !insert_insert_eq.
  set (DL := <[dL := mkDescr rocsparse_fill_mode_lower rocsparse_diag_type_unit]>
               (<[dA := created_descr lib]> D)).
  set (dU := fresh (dom DL)).
  set (DU := <[dU := mkDescr rocsparse_fill_mode_upper rocsparse_diag_type_non_unit]> DL).
  set (iA := fresh (dom I)).
  assert (D !! dA = None) as HdA by apply not_elem_of_dom, is_fresh.
  assert (<[dA := created_descr lib]> D !! dL = None) as HdL
      by apply not_elem_of_dom, is_fresh.
  assert (DL !! dU = None) as HdU by apply not_elem_of_dom, is_fresh.
  apply lookup_insert_None in HdL as [HdL HLA].
  unfold DL in HdU.
  apply lookup_insert_None in HdU as [HdU HUL].
  apply lookup_insert_None in HdU as [HdU HUA].
  assert (∃ dd, DU !! dA = Some dd) as [ddA HA].
  { eexists. unfold DU, DL.
    rewrite lookup_insert_ne, lookup_insert_ne, lookup_insert_eq; done. }
  assert (∃ dd, DU !! dL = Some dd) as [ddL HL].
  { eexists. unfold DU, DL. rewrite lookup_insert_ne, lookup_insert_eq; done. }
  assert (∃ dd, DU !! dU = Some dd) as [ddU HU].
  { eexists. unfold DU. by rewrite lookup_insert_eq. }
  assert (during_setup lib DU I iA (mkObjects lib DU (<[iA := created_info lib]> I)))
    as Hw0 by (split; [done | by eexists]).
  run_library_call Hw0 HA. run_library_call Hw0 HL. run_library_call Hw0 HU.
  run_library_call Hw0 HA. run_library_call Hw0 HL. run_library_call Hw0 HU.
  run_library_call Hw0 HA.
  match type of Hw0 with
  | during_setup _ _ _ _ ?wf => destruct wf as [D7 I7]
  end.
  destruct Hw0 as [HD7 [ii7 HI7]]. simpl in *. subst.
  by do 5 eexists.
Qed.

Lemma setup_descrs_spec (D : gmap positive mat_descr) :
  let '(dA, dL, dU, D') := setup_descrs D in
  D !! dA = None ∧ D !! dL = None ∧ D !! dU = None
  ∧ dA ≠ dL ∧ dA ≠ dU ∧ dL ≠ dU
  ∧ D' !! dA = Some (created_descr lib)
  ∧ D' !! dL = Some (mkDescr rocsparse_fill_mode_lower rocsparse_diag_type_unit)
  ∧ D' !! dU = Some (mkDescr rocsparse_fill_mode_upper rocsparse_diag_type_non_unit)
  ∧ ∀ d, d ≠ dA → d ≠ dL → d ≠ dU → D' !! d = D !! d.
Proof.
  unfold setup_descrs. simpl.
  set (dA := fresh (dom D)).
  set (D1 := <[dA := created_descr lib]> D).
  set (dL := fresh (dom D1)).
  set (D2 := <[dL := mkDescr rocsparse_fill_mode_lower rocsparse_diag_type_unit]> D1).
  set (dU := fresh (dom D2)).
  assert (D !! dA = None) as HdA by apply not_elem_of_dom, is_fresh.
  assert (D1 !! dL = None) as HdL by apply not_elem_of_dom, is_fresh.
  assert (D2 !! dU = None) as HdU by apply not_elem_of_dom, is_fresh.
  unfold D1 in HdL. apply lookup_insert_None in HdL as [HdL HLA].
  unfold D2, D1 in HdU.
  apply lookup_insert_None in HdU as [HdU HUL].
  apply lookup_insert_None in HdU as [HdU HUA].
  repeat split; try done.
  - unfold D2, D1.
    by rewrite lookup_insert_ne, lookup_insert_ne, lookup_insert_eq.
  - unfold D2. by rewrite lookup_insert_ne, lookup_insert_eq.
  - by rewrite lookup_insert_eq.
  - intros d H1 H2 H3. unfold D2, D1. by rewrite !lookup_insert_ne.
Qed.

End ILU0Setup.

(** X17. [setup] of the incomplete-factorization backend (on a matrix
    whose device values hold nnz elements) creates three distinct
    descriptors that were not live before: the one for A is left as the
    library created it, the one for L is set to lower triangular with unit
    diagonal, the one for U to upper triangular with non-unit diagonal; no
    other descriptor is changed. *)
Theorem ilu0_setup_descriptors
    (lib : RocSparseILU0.rocsparse_library) (s : RocSparseILU0.t)
    (w : RocSparseILU0.objects lib) (A : Sparse) :
  0 ≤ getNnz A ≤ Z.of_nat (length (getValues A memory.DEVICE)) →
  ∃ ret s' w' dA dL dU,
    RocSparseILU0.setup lib s w A = Done (ret, s', w')
    ∧ RocSparseILU0.descr_A_ s' = Some dA
    ∧ RocSparseILU0.descr_L_ s' = Some dL
    ∧ RocSparseILU0.descr_U_ s' = Some dU
    ∧ dA ≠ dL ∧ dA ≠ dU ∧ dL ≠ dU
    ∧ RocSparseILU0.descrs lib w !! dA = None
    ∧ RocSparseILU0.descrs lib w !! dL = None
    ∧ RocSparseILU0.descrs lib w !! dU = None
    ∧ RocSparseILU0.descrs lib w' !! dA = Some (RocSparseILU0.created_descr lib)
    ∧ RocSparseILU0.descrs lib w' !! dL
      = Some (RocSparseILU0.mkDescr RocSparseILU0.rocsparse_fill_mode_lower
                RocSparseILU0.rocsparse_diag_type_unit)
    ∧ RocSparseILU0.descrs lib w' !! dU
      = Some (RocSparseILU0.mkDescr RocSparseILU0.rocsparse_fill_mode_upper
                RocSparseILU0.rocsparse_diag_type_non_unit)
    ∧ ∀ d, d ≠ dA → d ≠ dL → d ≠ dU →
           RocSparseILU0.descrs lib w' !! d = RocSparseILU0.descrs lib w !! d.
Proof.
  intros Hnnz.
  pose proof (ilu0_setup_spec lib s w A Hnnz) as Hrun.
  pose proof (setup_descrs_spec lib (RocSparseILU0.descrs lib w)) as HD.
  destruct (setup_descrs lib (RocSparseILU0.descrs lib w)) as [[[dA dL] dU] D'].
  destruct Hrun as (ret & st & vals & bs & ii & Hrun).
  destruct HD as (H1 & H2 & H3 & H4 & H5 & H6 & H7 & H8 & H9 & H10).
  eexists ret, _, _, dA, dL, dU. split; [exact Hrun |]. simpl.
  repeat split; done.
Qed.

Lemma ilu0_setup_descriptors_witness :
  ∃ ret s' w' dL,
    RocSparseILU0.setup example_rs example_rs_solver example_rs_objects
      example_A' = Done (ret, s', w')
    ∧ RocSparseILU0.descr_L_ s' = Some dL
    ∧ RocSparseILU0.descrs example_rs w' !! dL
      = Some (RocSparseILU0.mkDescr RocSparseILU0.rocsparse_fill_mode_lower
                RocSparseILU0.rocsparse_diag_type_unit).
Proof.
  destruct (ilu0_setup_descriptors example_rs example_rs_solver
              example_rs_objects example_A')
    as (ret & s' & w' & dA & dL & dU & Hrun & _ & HL & _ & _ & _ & _ & _ & _
        & _ & _ & HdL & _); [simpl; lia |].
  exists ret, s', w', dL. split; [exact Hrun |]. split; [exact HL | exact HdL].
Defined.

(** ** Sequences of calls *)

Section ILU0Calls.
Import RocSparseILU0 memory.
Variable lib : rocsparse_library.

(** The calls a client can make on a solver. *)
Inductive ilu0_call :=
| ilu0_call_setup (A : Sparse)
| ilu0_call_reset (A : Sparse)
| ilu0_call_solve (rhs x : vector_ptr)
| ilu0_call_solve_in_place (rhs : vector_ptr)
| ilu0_call_setCliParam (id value : string).

(** The solver, the live library objects and the vectors of the client. *)
Record ilu0_state := mkIlu0State {
  ilu0_solver : t;
  ilu0_objects : objects lib;
  ilu0_vectors : vector_store
}.

(** One call; what it returns to the client is dropped. *)
Definition ilu0_exec (call : ilu0_call) (st : ilu0_state) : result ilu0_state :=
  let s := ilu0_solver st in
  let w := ilu0_objects st in
  let vs := ilu0_vectors st in
  match call with
  | ilu0_call_setup A =>
      '(_, s, w) ← setup lib s w A; Done (mkIlu0State s w vs)
  | ilu0_call_reset A =>
      '(_, s, w) ← reset lib s w A; Done (mkIlu0State s w vs)
  | ilu0_call_solve rhs x =>
      '(_, s, vs) ← solve lib s w rhs x vs; Done (mkIlu0State s w vs)
  | ilu0_call_solve_in_place rhs =>
      '(_, s, vs) ← solve_in_place lib s w rhs vs; Done (mkIlu0State s w vs)
  | ilu0_call_setCliParam id value =>
      Done (mkIlu0State (setCliParam s id value).2 w vs)
  end.

Fixpoint ilu0_run (calls : list ilu0_call) (st : ilu0_state)
  : result ilu0_state :=
  match calls with
  | [] => Done st
  | call :: calls => st ← ilu0_exec call st; ilu0_run calls st
  end.

Lemma ilu0_run_invariant (P : ilu0_state → Prop) :
  (∀ call st st', P st → ilu0_exec call st = Done st' → P st') →
  ∀ calls st st', P st → ilu0_run calls st = Done st' → P st'.
Proof.
  intros Hstep. induction calls as [|call calls IH]; intros st st' Hst; simpl.
  - by intros [= <-].
  - destruct (ilu0_exec call st) as [st1| |] eqn:Hc; simpl; [| done | done].
    apply IH. by eapply Hstep.
Qed.

(** A [setup] that returns has copied nnz values. *)
Lemma ilu0_setup_Done s w A r :
  setup lib s w A = Done r →
  0 ≤ getNnz A ≤ Z.of_nat (length (getValues A DEVICE)).
Proof.
  unfold setup, copyArray, allocateArrayOnDevice. simpl.
  destruct (decide _) as [[? ?]|]; [done | done].
Qed.

Lemma ilu0_setup_factorized s w A ret s' w' :
  setup lib s w A = Done (ret, s', w') → ilu0_factorized lib s' w'.
Proof.
  intros Hrun. pose proof (ilu0_setup_Done _ _ _ _ Hrun) as Hnnz.
  pose proof (ilu0_setup_spec lib s w A Hnnz) as Hspec.
  pose proof (setup_descrs_spec lib (descrs lib w)) as HD.
  destruct (setup_descrs lib (descrs lib w)) as [[[dA dL] dU] D'].
  destruct Hspec as (ret' & st & vals & bs & ii & Hspec).
  destruct HD as (_ & _ & _ & _ & _ & _ & HA & HL & HU & _).
  rewrite Hspec in Hrun. injection Hrun as <- <- <-.
  unfold ilu0_factorized. simpl.
  split; [by eexists |]. split; [by eexists |]. split; [by eexists |].
  split; [eexists; split; [done | by eexists] |].
  split; [eexists; split; [done | by eexists] |].
  split; [eexists; split; [done | by eexists] |].
  eexists. split; [done |]. rewrite lookup_insert_eq. by eexists.
Qed.

Lemma ilu0_reset_factorized s w A ret s' w' :
  ilu0_factorized lib s w →
  reset lib s w A = Done (ret, s', w') → ilu0_factorized lib s' w'.
Proof.
  intros (_ & _ & Haux & HdA & HdL & HdU & (i & Hi & Hii)). unfold reset.
  destruct (copyArray _ _ _) as [[vals|]| |]; simpl; [| done | done | done].
  unfold with_objects.
  destruct (descr_A_ s) as [d|]; simpl; [| done].
  destruct (deref (descrs lib w) d) as [dd| |]; simpl; [| done | done].
  rewrite Hi. simpl.
  destruct (deref (infos lib w) i) as [ii| |]; simpl; [| done | done].
  destruct (rocsparse_dcsrilu0 lib _ _ _ _ _ _ _) as [[st v] ii'].
  simpl. intros [= <- <- <-]. unfold ilu0_factorized. simpl.
  split; [by eexists |]. split; [by eexists |]. split; [done |].
  split; [done |]. split; [done |]. split; [done |].
  exists i. split; [done |]. rewrite lookup_insert_eq. by eexists.
Qed.

Lemma ilu0_solve_Done s w rhs x vs ret s' vs' :
  solve lib s w rhs x vs = Done (ret, s', vs') →
  ∃ aux st, s' = set_solve_result s aux st.
Proof.
  unfold solve.
  destruct (deref vs rhs) as [v_rhs| |]; simpl; [| done | done].
  destruct (d_aux1_ s) as [aux|]; simpl; [| done].
  destruct (triangular_solve lib s w _ _ _) as [[st1 y]| |]; simpl;
    [| done | done].
  destruct (deref vs x) as [v_x| |]; simpl; [| done | done].
  destruct (triangular_solve lib s w _ _ _) as [[st2 sol]| |]; simpl;
    [| done | done].
  intros [= <- <- <-]. by eexists _, _.
Qed.

Lemma ilu0_solve_in_place_Done s w rhs vs ret s' vs' :
  solve_in_place lib s w rhs vs = Done (ret, s', vs') →
  ∃ aux st, s' = set_solve_result s aux st.
Proof.
  unfold solve_in_place.
  destruct (deref vs rhs) as [v_rhs| |]; simpl; [| done | done].
  destruct (d_aux1_ s) as [aux|]; simpl; [| done].
  destruct (triangular_solve lib s w _ _ _) as [[st1 y]| |]; simpl;
    [| done | done].
  destruct (triangular_solve lib s w _ _ _) as [[st2 sol]| |]; simpl;
    [| done | done].
  intros [= <- <- <-]. by eexists _, _.
Qed.

Lemma set_solve_result_factorized s w aux st :
  ilu0_factorized lib s w → ilu0_factorized lib (set_solve_result s aux st) w.
Proof.
  intros (HA & Hv & _ & Hrest). unfold ilu0_factorized. simpl.
  split; [done |]. split; [done |]. split; [by eexists | done].
Qed.

Lemma ilu0_exec_factorized call st st' :
  (ilu0_factorized lib (ilu0_solver st) (ilu0_objects st)
   ∨ ∃ A, call = ilu0_call_setup A) →
  ilu0_exec call st = Done st' →
  ilu0_factorized lib (ilu0_solver st') (ilu0_objects st').
Proof.
  destruct st as [s w vs]. simpl. intros Hf. unfold ilu0_exec. simpl.
  destruct call; intros H.
  - destruct (setup lib s w A) as [[[ret s1] w1]| |] eqn:Hc; simpl in H;
      [| done | done].
    injection H as <-. simpl. by eapply ilu0_setup_factorized.
  - destruct Hf as [Hf|[? ?]]; [| done].
    destruct (reset lib s w A) as [[[ret s1] w1]| |] eqn:Hc; simpl in H;
      [| done | done].
    injection H as <-. simpl. by eapply ilu0_reset_factorized.
  - destruct Hf as [Hf|[? ?]]; [| done].
    destruct (solve lib s w rhs x vs) as [[[ret s1] vs1]| |] eqn:Hc;
      simpl in H; [| done | done].
    injection H as <-. simpl.
    apply ilu0_solve_Done in Hc as (aux & st & ->).
    by apply set_solve_result_factorized.
  - destruct Hf as [Hf|[? ?]]; [| done].
    destruct (solve_in_place lib s w rhs vs) as [[[ret s1] vs1]| |] eqn:Hc;
      simpl in H; [| done | done].
    injection H as <-. simpl.
    apply ilu0_solve_in_place_Done in Hc as (aux & st & ->).
    by apply set_solve_result_factorized.
  - destruct Hf as [Hf|[? ?]]; [| done]. injection H as <-. done.
Qed.

(** No call destroys a library object: the descriptors that are live stay
    live and unchanged, the info objects that are live stay live. *)
Definition objects_kept (w w' : objects lib) : Prop :=
  descrs lib w ⊆ descrs lib w' ∧ dom (infos lib w) ⊆ dom (infos lib w').

Lemma objects_kept_refl w : objects_kept w w.
Proof. by split. Qed.

Lemma objects_kept_trans w1 w2 w3 :
  objects_kept w1 w2 → objects_kept w2 w3 → objects_kept w1 w3.
Proof. intros [H1 H2] [H3 H4]. split; by etrans. Qed.

Lemma ilu0_setup_objects s w A ret s' w' :
  setup lib s w A = Done (ret, s', w') → objects_kept w w'.
Proof.
  intros Hrun. pose proof (ilu0_setup_Done _ _ _ _ Hrun) as Hnnz.
  destruct (ilu0_setup_keeps lib s w A Hnnz)
    as (ret1 & s1 & w1 & Hrun1 & HD & HI & _).
  rewrite Hrun1 in Hrun. injection Hrun as <- <- <-.
  split; [done |]. by apply subseteq_dom.
Qed.

Lemma ilu0_reset_objects s w A ret s' w' :
  reset lib s w A = Done (ret, s', w') → objects_kept w w'.
Proof.
  unfold reset.
  destruct (copyArray _ _ _) as [[vals|]| |]; simpl; [| done | done | done].
  unfold with_objects.
  destruct (descr_A_ s) as [d|]; simpl; [| done].
  destruct (deref (descrs lib w) d) as [dd| |]; simpl; [| done | done].
  destruct (info_A_ s) as [i|]; simpl; [| done].
  destruct (deref (infos lib w) i) as [ii| |]; simpl; [| done | done].
  destruct (rocsparse_dcsrilu0 lib _ _ _ _ _ _ _) as [[st v] ii'].
  simpl. intros [= <- <- <-]. split; simpl; [done |].
  rewrite dom_insert. set_solver.
Qed.

Lemma ilu0_exec_objects call st st' :
  ilu0_exec call st = Done st' →
  objects_kept (ilu0_objects st) (ilu0_objects st').
Proof.
  destruct st as [s w vs]. unfold ilu0_exec. simpl.
  destruct call; intros H.
  - destruct (setup lib s w A) as [[[ret s1] w1]| |] eqn:Hc; simpl in H;
      [| done | done].
    injection H as <-. simpl. by eapply ilu0_setup_objects.
  - destruct (reset lib s w A) as [[[ret s1] w1]| |] eqn:Hc; simpl in H;
      [| done | done].
    injection H as <-. simpl. by eapply ilu0_reset_objects.
  - destruct (solve lib s w rhs x vs) as [[[ret s1] vs1]| |] eqn:Hc;
      simpl in H; [| done | done].
    injection H as <-. apply objects_kept_refl.
  - destruct (solve_in_place lib s w rhs vs) as [[[ret s1] vs1]| |] eqn:Hc;
      simpl in H; [| done | done].
    injection H as <-. apply objects_kept_refl.
  - injection H as <-. apply objects_kept_refl.
Qed.

Lemma ilu0_run_objects calls st st' :
  ilu0_run calls st = Done st' →
  objects_kept (ilu0_objects st) (ilu0_objects st').
Proof.
  revert st. induction calls as [|call calls IH]; intros st; simpl.
  - intros [= <-]. apply objects_kept_refl.
  - destruct (ilu0_exec call st) as [st1| |] eqn:Hc; simpl; [| done | done].
    intros Hrun. eapply objects_kept_trans; [by eapply ilu0_exec_objects |].
    by apply IH.
Qed.

End ILU0Calls.

(** X18. Once a [setup] has returned, after every further sequence of
    setup, reset, solve and parameter calls that returns, the members the
    methods hand to the library are in place: the matrix pointer, the
    factored values and the auxiliary vector are not null, and the three
    descriptors and the info object of the solver are live.  No call
    destroys a library object: every descriptor that was live before the
    sequence is still live and unchanged, and every info object that was
    live is still live.  (Nothing is said about sizes: [reset] rebinds the
    matrix and keeps the buffers as they are.) *)
Theorem ilu0_members_stay_in_place
    (lib : RocSparseILU0.rocsparse_library) (A : Sparse)
    (calls : list ilu0_call) (st st' : ilu0_state lib) :
  ilu0_run lib (ilu0_call_setup A :: calls) st = Done st' →
  ilu0_factorized lib (ilu0_solver lib st') (ilu0_objects lib st')
  ∧ RocSparseILU0.descrs lib (ilu0_objects lib st)
    ⊆ RocSparseILU0.descrs lib (ilu0_objects lib st')
  ∧ dom (RocSparseILU0.infos lib (ilu0_objects lib st))
    ⊆ dom (RocSparseILU0.infos lib (ilu0_objects lib st')).
Proof.
  intros Hrun. split; [| exact (ilu0_run_objects lib _ _ _ Hrun)].
  cbn [ilu0_run] in Hrun.
  destruct (ilu0_exec lib (ilu0_call_setup A) st) as [st1| |] eqn:H1;
    [| done | done].
  change (ilu0_run lib calls st1 = Done st') in Hrun.
  assert (ilu0_factorized lib (ilu0_solver lib st1) (ilu0_objects lib st1)) as Hf1.
  { eapply ilu0_exec_factorized; [| exact H1]. right. by eexists. }
  revert Hrun.
  apply (ilu0_run_invariant lib
           (λ st, ilu0_factorized lib (ilu0_solver lib st) (ilu0_objects lib st)));
    [| done].
  intros call st2 st3 Hf2. apply ilu0_exec_factorized. by left.
Qed.

Lemma ilu0_members_stay_in_place_witness :
  ∃ st',
    ilu0_run example_rs
      [ilu0_call_setup example_A; ilu0_call_solve 0%nat 1%nat;
       ilu0_call_reset example_A'; ilu0_call_setup example_A';
       ilu0_call_solve_in_place 1%nat]
      (mkIlu0State example_rs RocSparseILU0.constructor
         (RocSparseILU0.mkObjects example_rs ∅ ∅) example_vectors)
    = Done st'
    ∧ ilu0_factorized example_rs (ilu0_solver example_rs st')
        (ilu0_objects example_rs st').
Proof.
  eassert (ilu0_run example_rs
             [ilu0_call_setup example_A; ilu0_call_solve 0%nat 1%nat;
              ilu0_call_reset example_A'; ilu0_call_setup example_A';
              ilu0_call_solve_in_place 1%nat]
             (mkIlu0State example_rs RocSparseILU0.constructor
                (RocSparseILU0.mkObjects example_rs ∅ ∅) example_vectors)
           = Done _) as Hrun by (vm_compute; reflexivity).
  destruct (ilu0_members_stay_in_place example_rs _ _ _ _ Hrun) as [Hf _].
  eexists. split; [exact Hrun | exact Hf].
Defined.

(** X19. [reset] copies the nnz values of the new matrix into the buffer
    that [setup] allocated and never reallocates it.  Called before any
    [setup] it reads through the null buffer pointer; called with a matrix
    that has more nonzeros than the buffer holds it writes past the end of
    the buffer. *)
Theorem ilu0_reset_bounds
    (lib : RocSparseILU0.rocsparse_library) (s : RocSparseILU0.t)
    (w : RocSparseILU0.objects lib) (A : Sparse) :
  (RocSparseILU0.d_ILU_vals_ s = None →
   RocSparseILU0.reset lib s w A = Undefined)
  ∧ (∀ vals, RocSparseILU0.d_ILU_vals_ s = Some vals →
       Z.of_nat (length vals) < getNnz A →
       RocSparseILU0.reset lib s w A = Undefined)
  ∧ RocSparseILU0.reset lib RocSparseILU0.constructor w A = Undefined.
Proof.
  split; [| split].
  - intros Hv. unfold RocSparseILU0.reset. by rewrite Hv.
  - intros vals Hv Hlen. unfold RocSparseILU0.reset. rewrite Hv.
    by rewrite copyArray_short.
  - done.
Qed.

Lemma ilu0_reset_bounds_witness :
  RocSparseILU0.reset example_rs example_rs_solver example_rs_objects
    (mkSparse COMPRESSED_SPARSE_ROW 2 2 4 [0; 2; 4] [0; 1; 0; 1]
       (fl <$> [1; 2; 3; 4]) [0; 2; 4] [0; 1; 0; 1] (fl <$> [1; 2; 3; 4])
       true true)
  = Undefined.
Proof.
  destruct (ilu0_reset_bounds example_rs example_rs_solver example_rs_objects
              (mkSparse COMPRESSED_SPARSE_ROW 2 2 4 [0; 2; 4] [0; 1; 0; 1]
                 (fl <$> [1; 2; 3; 4]) [0; 2; 4] [0; 1; 0; 1]
                 (fl <$> [1; 2; 3; 4]) true true)) as (_ & H & _).
  apply (H (fl <$> [1; 2; 3])); [reflexivity | simpl; lia].
Defined.

(** * The matrices of the matrix-handler unit tests *)

(** X20. [createCsrMatrix(n)] computes every column index as
    [... + n % (n / nnz_per_row)], and its rows hold 7, 10, 3, 11 and 7
    values in turn: for every n from 1 to 10 some row has more values than
    n, so that [n / nnz_per_row] is 0 and the remainder is a division by
    zero. *)
Theorem createCsrMatrix_small (memspace_ : memory.MemorySpace) (n : Z) :
  1 ≤ n ≤ 10 → MatrixHandlerTests.createCsrMatrix memspace_ n = Undefined.
Proof.
  intros Hn.
  assert (n = 1 ∨ n = 2 ∨ n = 3 ∨ n = 4 ∨ n = 5 ∨ n = 6 ∨ n = 7 ∨ n = 8
          ∨ n = 9 ∨ n = 10) as Hcases by lia.
  destruct memspace_;
    repeat (destruct Hcases as [->|Hcases]; [vm_compute; reflexivity |]);
    subst; vm_compute; reflexivity.
Qed.

Lemma createCsrMatrix_small_witness :
  MatrixHandlerTests.createCsrMatrix memory.HOST 10 = Undefined.
Proof. apply createCsrMatrix_small. lia. Defined.

Example createCsrMatrix_11 :
  ∃ A, MatrixHandlerTests.createCsrMatrix memory.HOST 11 = Done A
       ∧ h_row_data_ A = [0; 7; 17; 20; 31; 38; 45; 55; 58; 69; 76; 83]
       ∧ take 7 (h_col_data_ A) = [0; 1; 3; 4; 6; 7; 9].
Proof. eexists. split; [vm_compute; reflexivity |]. split; reflexivity. Qed.

(** ** [createCsrMatrix] from 11 rows on *)

Section CreateCsrMatrix.
Import MatrixHandlerTests.
Variable n : Z.
Hypothesis n_range : 11 ≤ n ≤ 2 ^ 27.

(** The values of row [i], and the column of its [t]-th entry. *)
Definition sample (i : Z) : list real_type :=
  default [] (data !! Z.to_nat (i `mod` 5)).
Definition per_row (i : Z) : Z := Z.of_nat (length (sample i)).
Definition column (i : Z) (t : nat) : Z :=
  (Z.of_nat t * n) `div` per_row i + n `mod` (n `div` per_row i).
Definition columns (i : Z) : list Z :=
  column i <$> seq 0 (length (sample i)).

(** The entries of the first [k] rows, and their number. *)
Definition first_columns (k : nat) : list Z :=
  flat_map (λ r, columns (Z.of_nat r)) (seq 0 k).
Definition first_values (k : nat) : list real_type :=
  flat_map (λ r, sample (Z.of_nat r)) (seq 0 k).
Definition offset (k : nat) : Z := Z.of_nat (length (first_values k)).

Lemma sample_cases (i : Z) :
  0 ≤ i →
  data !! Z.to_nat (i `mod` 5) = Some (sample i)
  ∧ 3 ≤ per_row i ≤ 11.
Proof.
  intros Hi. unfold per_row, sample.
  assert (0 ≤ i `mod` 5 < 5) as Hm by (apply Z.mod_pos_bound; lia).
  assert (i `mod` 5 = 0 ∨ i `mod` 5 = 1 ∨ i `mod` 5 = 2 ∨ i `mod` 5 = 3
          ∨ i `mod` 5 = 4) as Hc by lia.
  destruct Hc as [->|[->|[->|[->| ->]]]]; simpl; split; (done || lia).
Qed.

Lemma per_row_range (i : Z) : 0 ≤ i → 3 ≤ per_row i ≤ 11.
Proof. intros Hi. apply sample_cases, Hi. Qed.

Lemma length_columns (i : Z) : length (columns i) = length (sample i).
Proof. unfold columns. by rewrite length_fmap, length_seq. Qed.

Lemma first_values_S (k : nat) :
  first_values (S k) = first_values k ++ sample (Z.of_nat k).
Proof.
  unfold first_values. rewrite seq_S, flat_map_app. simpl. by rewrite app_nil_r.
Qed.

Lemma first_columns_S (k : nat) :
  first_columns (S k) = first_columns k ++ columns (Z.of_nat k).
Proof.
  unfold first_columns. rewrite seq_S, flat_map_app. simpl. by rewrite app_nil_r.
Qed.

Lemma length_first_columns (k : nat) :
  length (first_columns k) = length (first_values k).
Proof.
  induction k as [|k IH]; [done |].
  rewrite first_columns_S, first_values_S, !length_app, IH, length_columns. done.
Qed.

Lemma offset_S (k : nat) : offset (S k) = offset k + per_row (Z.of_nat k).
Proof. unfold offset, per_row. rewrite first_values_S, length_app. lia. Qed.

Lemma offset_bounds (k : nat) : 0 ≤ offset k ≤ 11 * Z.of_nat k.
Proof.
  induction k as [|k IH]; [unfold offset; simpl; lia |].
  rewrite offset_S. pose proof (per_row_range (Z.of_nat k)). lia.
Qed.

Lemma offset_mono (j k : nat) : (j ≤ k)%nat → offset j ≤ offset k.
Proof.
  induction 1 as [|k Hle IH]; [done |].
  rewrite offset_S. pose proof (per_row_range (Z.of_nat k)). lia.
Qed.

(** The column formula stays inside the matrix and grows with [t]. *)
Lemma column_range (i : Z) (t : nat) :
  0 ≤ i → Z.of_nat t < per_row i → 0 ≤ column i t < n.
Proof.
  intros Hi Ht. unfold column. pose proof (per_row_range i Hi) as Hp.
  set (p := per_row i) in *. set (q := n `div` p).
  assert (1 ≤ q) as Hq.
  { unfold q. apply Z.div_le_lower_bound; lia. }
  assert (p * q ≤ n) as Hpq.
  { unfold q. apply Z.mul_div_le. lia. }
  assert (0 ≤ n `mod` q < q) as Hm by (apply Z.mod_pos_bound; lia).
  assert (0 ≤ (Z.of_nat t * n) `div` p) as H0.
  { apply Z.div_pos; nia. }
  assert ((Z.of_nat t * n) `div` p ≤ n - q) as H1.
  { apply Z.div_le_upper_bound; [lia |]. nia. }
  lia.
Qed.

Lemma column_step (i : Z) (t : nat) :
  0 ≤ i → column i t < column i (S t).
Proof.
  intros Hi. unfold column. pose proof (per_row_range i Hi) as Hp.
  set (p := per_row i) in *.
  assert ((Z.of_nat t * n) `div` p + 1 ≤ (Z.of_nat (S t) * n) `div` p); [| lia].
  replace (Z.of_nat (S t) * n) with (Z.of_nat t * n + n) by lia.
  assert (p ≤ n) by lia.
  transitivity ((Z.of_nat t * n + p) `div` p).
  - replace (Z.of_nat t * n + p) with (Z.of_nat t * n + 1 * p) by lia.
    rewrite Z.div_add by lia. lia.
  - apply Z.div_le_mono; lia.
Qed.

(** The invariant of the outer loop before row [i], and of the inner loop
    before entry [t] of row [i]. *)
Definition filled (nnz : Z) (i : nat) (t : nat) (s : arrays) : Prop :=
  length (rowptr s) = Z.to_nat (n + 1)
  ∧ length (colidx s) = Z.to_nat nnz
  ∧ length (val s) = Z.to_nat nnz
  ∧ take (Z.to_nat (offset i) + t) (colidx s)
    = first_columns i ++ take t (columns (Z.of_nat i))
  ∧ take (Z.to_nat (offset i) + t) (val s)
    = first_values i ++ take t (sample (Z.of_nat i)).

Lemma count_nnz_spec : count_nnz n = Done (offset (Z.to_nat n)).
Proof.
  unfold count_nnz.
  destruct (for_range_inv (λ i acc, 0 ≤ i ∧ acc = offset (Z.to_nat i)) 0 n
              (λ i nnz,
                 reminder ← int_rem i 5;
                 row_sample ← rd data reminder;
                 Done (int_add nnz (Z.of_nat (length row_sample)))) 0)
    as (acc & Hrun & _ & ->); [lia | done | | done].
  intros j acc Hj [_ ->]. eexists. split; [| split; [lia | reflexivity]].
  unfold int_rem. rewrite decide_False by lia. simpl.
  rewrite Z.rem_mod_nonneg by lia.
  destruct (sample_cases j) as [Hs Hp]; [lia |].
  erewrite rd_Done; [| apply Z.mod_pos_bound; lia | exact Hs]. simpl.
  replace (Z.to_nat (j + 1)) with (S (Z.to_nat j)) by lia.
  rewrite offset_S, Z2Nat.id by lia. fold (per_row j).
  rewrite int_add_exact; [done |].
  pose proof (offset_bounds (Z.to_nat j)). unfold INT_MAX. lia.
Qed.

Lemma take_S_insert {X} (l : list X) (j : nat) (x : X) :
  (j < length l)%nat → take (S j) (<[j := x]> l) = take j l ++ [x].
Proof.
  intros Hj. pose proof (take_drop_insert_end l 0 j x) as H. simpl in H.
  by apply H.
Qed.

Lemma int_div_nonneg (a b : Z) :
  0 ≤ a → 0 < b → int_div a b = Done (a `div` b).
Proof.
  intros Ha Hb. unfold int_div. rewrite decide_False by lia.
  by rewrite Z.quot_div_nonneg by lia.
Qed.

Lemma int_rem_nonneg (a b : Z) :
  0 ≤ a → 0 < b → int_rem a b = Done (a `mod` b).
Proof.
  intros Ha Hb. unfold int_rem. rewrite decide_False by lia.
  by rewrite Z.rem_mod_nonneg by lia.
Qed.

Lemma columns_lookup (i : Z) (t : nat) :
  Z.of_nat t < per_row i → columns i !! t = Some (column i t).
Proof.
  intros Ht. unfold columns, per_row in *.
  rewrite list_lookup_fmap, lookup_seq_lt by lia. done.
Qed.

Lemma fill_entry_spec (nnz : Z) (i t : nat) (s : arrays) :
  Z.of_nat i < n → nnz = offset (Z.to_nat n) →
  Z.of_nat t < per_row (Z.of_nat i) →
  rowptr s !! i = Some (offset i) →
  filled nnz i t s →
  ∃ s', fill_entry n (Z.of_nat i) (per_row (Z.of_nat i)) (sample (Z.of_nat i))
          (offset i + Z.of_nat t) s = Done s'
        ∧ rowptr s' = rowptr s ∧ filled nnz i (S t) s'.
Proof.
  intros Hi -> Ht Hrp (Hl1 & Hl2 & Hl3 & Hc & Hv).
  pose proof (per_row_range (Z.of_nat i) ltac:(lia)) as Hp.
  pose proof (offset_bounds i) as Ho.
  pose proof (offset_mono (S i) (Z.to_nat n) ltac:(lia)) as Hmono.
  pose proof (offset_S i) as HS.
  pose proof (offset_bounds (Z.to_nat n)) as Hon.
  pose proof (column_range (Z.of_nat i) t ltac:(lia) Ht) as Hcol.
  assert (1 ≤ n `div` per_row (Z.of_nat i)) as Hq
    by (apply Z.div_le_lower_bound; lia).
  unfold fill_entry.
  rewrite (rd_Done _ (Z.of_nat i) (offset i)) by (lia || by rewrite Nat2Z.id).
  simpl. unfold int_sub, int_mul.
  replace (offset i + Z.of_nat t - offset i) with (Z.of_nat t) by lia.
  rewrite (int_wrap_id (Z.of_nat t)) by (unfold INT_MAX; lia).
  rewrite int_wrap_id by (unfold INT_MAX; nia).
  rewrite int_div_nonneg by nia. simpl.
  rewrite int_div_nonneg by lia. simpl.
  rewrite int_rem_nonneg by lia. simpl.
  rewrite int_add_exact by (unfold column in Hcol; unfold INT_MAX; lia).
  fold (column (Z.of_nat i) t).
  rewrite wr_Done by lia. simpl.
  assert (sample (Z.of_nat i) !! t = Some (default real_zero (sample (Z.of_nat i) !! t)))
    as Hval.
  { destruct (sample (Z.of_nat i) !! t) eqn:E; [done |].
    apply lookup_ge_None in E. unfold per_row in Ht. lia. }
  rewrite (rd_Done _ (Z.of_nat t) _ ltac:(lia)) by (by rewrite Nat2Z.id).
  simpl. rewrite wr_Done by lia. simpl.
  eexists. split; [reflexivity |]. split; [done |].
  unfold filled. simpl. rewrite !length_insert.
  split; [done |]. split; [done |]. split; [done |].
  replace (Z.to_nat (offset i + Z.of_nat t)) with (Z.to_nat (offset i) + t)%nat
    by lia.
  replace (Z.to_nat (offset i) + S t)%nat with (S (Z.to_nat (offset i) + t))
    by lia.
  split.
  - rewrite take_S_insert by lia. rewrite Hc, <- app_assoc. f_equal.
    symmetry. apply take_S_r. by apply columns_lookup.
  - rewrite take_S_insert by lia. rewrite Hv, <- app_assoc. f_equal.
    symmetry. by apply take_S_r.
Qed.

Lemma fill_row_spec (nnz : Z) (i : nat) (s : arrays) :
  Z.of_nat i < n → nnz = offset (Z.to_nat n) →
  (∀ k, (k ≤ i)%nat → rowptr s !! k = Some (offset k)) →
  filled nnz i 0 s →
  ∃ s', fill_row n (Z.of_nat i) s = Done s'
        ∧ (∀ k, (k ≤ S i)%nat → rowptr s' !! k = Some (offset k))
        ∧ filled nnz (S i) 0 s'.
Proof.
  intros Hi Hnnz Hrp Hf. pose proof Hf as (Hl1 & Hl2 & Hl3 & Hc & Hv).
  pose proof (per_row_range (Z.of_nat i) ltac:(lia)) as Hp.
  pose proof (offset_bounds i) as Ho.
  pose proof (offset_S i) as HS.
  destruct (sample_cases (Z.of_nat i) ltac:(lia)) as [Hs _].
  unfold fill_row.
  rewrite int_rem_nonneg by lia. simpl.
  rewrite (rd_Done data (Z.of_nat i `mod` 5) (sample (Z.of_nat i)));
    [| apply Z.mod_pos_bound; lia | exact Hs].
  simpl. fold (per_row (Z.of_nat i)).
  rewrite (rd_Done _ (Z.of_nat i) (offset i))
    by (lia || (rewrite Nat2Z.id; by apply Hrp)).
  simpl.
  rewrite (int_add_exact (Z.of_nat i)) by (unfold INT_MAX; lia).
  rewrite int_add_exact by (unfold INT_MAX; lia).
  rewrite <- HS. rewrite wr_Done by lia. simpl.
  replace (Z.to_nat (Z.of_nat i + 1)) with (S i) by lia.
  set (rp1 := <[S i := offset (S i)]> (rowptr s)).
  assert (∀ k, (k ≤ S i)%nat → rp1 !! k = Some (offset k)) as Hrp1.
  { intros k Hk. unfold rp1. destruct (decide (k = S i)) as [->|Hne].
    - apply list_lookup_insert_eq. lia.
    - rewrite list_lookup_insert_ne by done. apply Hrp. lia. }
  rewrite (rd_Done rp1 (Z.of_nat i) (offset i))
    by (lia || (rewrite Nat2Z.id; apply Hrp1; lia)).
  simpl.
  rewrite (rd_Done rp1 (Z.of_nat i + 1) (offset (S i))); [| lia |];
    last (replace (Z.to_nat (Z.of_nat i + 1)) with (S i) by lia;
          by apply Hrp1).
  simpl.
  destruct (for_range_inv
              (λ j s', offset i ≤ j ∧ rowptr s' = rp1
                       ∧ filled nnz i (Z.to_nat (j - offset i)) s')
              (offset i) (offset (S i))
              (fill_entry n (Z.of_nat i) (per_row (Z.of_nat i))
                 (sample (Z.of_nat i)))
              (mkArrays rp1 (colidx s) (val s)))
    as (s' & Hrun & _ & Hrp' & Hf').
  - lia.
  - split; [lia |]. split; [done |].
    replace (Z.to_nat (offset i - offset i)) with 0%nat by lia.
    unfold filled. simpl. unfold rp1. rewrite length_insert. done.
  - intros j s1 Hj (_ & Hrps & Hfs).
    destruct (fill_entry_spec nnz i (Z.to_nat (j - offset i)) s1)
      as (s2 & Hrun & Hrp2 & Hf2); [lia | done | lia | | done |].
    { rewrite Hrps. apply Hrp1. lia. }
    exists s2.
    replace (offset i + Z.of_nat (Z.to_nat (j - offset i))) with j in Hrun by lia.
    split; [done |]. split; [lia |]. split; [congruence |].
    by replace (Z.to_nat (j + 1 - offset i)) with (S (Z.to_nat (j - offset i)))
      by lia.
  - exists s'. split; [done |]. split; [by rewrite Hrp' |].
    destruct Hf' as (Hl1' & Hl2' & Hl3' & Hc' & Hv').
    replace (Z.to_nat (offset (S i) - offset i))
      with (length (sample (Z.of_nat i))) in Hc', Hv'
      by (unfold per_row in HS; lia).
    rewrite (take_ge (columns (Z.of_nat i))) in Hc'
      by (rewrite length_columns; lia).
    rewrite (take_ge (sample (Z.of_nat i))) in Hv' by lia.
    unfold filled.
    split; [done |]. split; [done |]. split; [done |].
    rewrite first_columns_S, first_values_S, !app_nil_r.
    replace (Z.to_nat (offset (S i)) + 0)%nat
      with (Z.to_nat (offset i) + length (sample (Z.of_nat i)))%nat
      by (unfold per_row in HS; lia).
    done.
Qed.

(** The arrays that [createCsrMatrix] leaves. *)
Lemma createCsrMatrix_arrays (memspace_ : memory.MemorySpace) :
  ∃ A, createCsrMatrix memspace_ n = Done A
       ∧ sparse_format A = COMPRESSED_SPARSE_ROW
       ∧ n_ A = n ∧ m_ A = n ∧ nnz_ A = offset (Z.to_nat n)
       ∧ length (h_row_data_ A) = Z.to_nat (n + 1)
       ∧ (∀ k, (k ≤ Z.to_nat n)%nat → h_row_data_ A !! k = Some (offset k))
       ∧ h_col_data_ A = first_columns (Z.to_nat n)
       ∧ h_val_data_ A = first_values (Z.to_nat n).
Proof.
  unfold createCsrMatrix. rewrite count_nnz_spec. simpl.
  set (nnz := offset (Z.to_nat n)).
  rewrite wr_Done by (rewrite length_resize; lia). simpl.
  destruct (for_range_inv
              (λ i s, 0 ≤ i
                      ∧ (∀ k, (k ≤ Z.to_nat i)%nat → rowptr s !! k = Some (offset k))
                      ∧ filled nnz (Z.to_nat i) 0 s)
              0 n (fill_row n)
              (mkArrays (<[0%nat := 0]> (resize (Z.to_nat (n + 1)) 0 []))
                 (resize (Z.to_nat nnz) 0 [])
                 (resize (Z.to_nat nnz) real_zero [])))
    as (s & Hrun & _ & Hrp & Hf).
  - lia.
  - split; [done |]. split.
    + intros k Hk. replace k with 0%nat by lia. simpl.
      apply list_lookup_insert_eq. rewrite length_resize. lia.
    + unfold filled. simpl. rewrite length_insert, !length_resize.
      split; [done |]. split; [done |]. split; [done |]. done.
  - intros j s1 Hj (_ & Hrp1 & Hf1).
    destruct (fill_row_spec nnz (Z.to_nat j) s1) as (s2 & Hrun & Hrp2 & Hf2);
      [lia | done | done | done |].
    rewrite Z2Nat.id in Hrun by lia.
    exists s2. split; [done |]. split; [lia |].
    replace (Z.to_nat (j + 1)) with (S (Z.to_nat j)) by lia. done.
  - change (Z.to_nat 0) with 0%nat. rewrite Hrun. simpl.
    destruct Hf as (Hl1 & Hl2 & Hl3 & Hc & Hv).
    rewrite Nat.add_0_r, app_nil_r in Hc, Hv.
    rewrite take_ge in Hc by (fold nnz; lia).
    rewrite take_ge in Hv by (fold nnz; lia).
    destruct memspace_; eexists; (split; [reflexivity |]); simpl;
      repeat split; done.
Qed.

End CreateCsrMatrix.

Lemma StronglySorted_fmap_seq (f : nat → Z) (a len : nat) :
  (∀ t, f t < f (S t)) → StronglySorted Z.lt (f <$> seq a len).
Proof.
  intros Hstep.
  assert (∀ b d : nat, f b < f (S (b + d))) as Hlt.
  { intros b d. induction d as [|d IH].
    - rewrite Nat.add_0_r. apply Hstep.
    - replace (b + S d)%nat with (S (b + d)) by lia.
      etrans; [exact IH | apply Hstep]. }
  revert a. induction len as [|len IH]; intros a; simpl; constructor.
  - apply IH.
  - apply Forall_fmap, Forall_forall. intros x Hx%elem_of_seq. simpl.
    replace x with (S (a + (x - S a)))%nat by lia. apply Hlt.
Qed.

Lemma zip_first (n : Z) (k : nat) :
  zip (first_columns n k) (first_values k)
  = flat_map (λ r, zip (columns n (Z.of_nat r)) (sample (Z.of_nat r))) (seq 0 k).
Proof.
  induction k as [|k IH]; [done |].
  rewrite first_columns_S, first_values_S, seq_S, flat_map_app. simpl.
  rewrite app_nil_r, <- IH. apply zip_with_app.
  apply length_first_columns.
Qed.

Lemma length_zip_first (n : Z) (k : nat) :
  Z.of_nat (length (flat_map
     (λ r, zip (columns n (Z.of_nat r)) (sample (Z.of_nat r))) (seq 0 k)))
  = offset k.
Proof.
  rewrite <- zip_first, length_zip_with, length_first_columns. unfold offset. lia.
Qed.

(** X21. For 11 <= n <= 2^27, [createCsrMatrix(n)] returns a valid n x n
    CSR matrix: row i holds the values of the sample [data[i % 5]] in their
    order, at column indices that lie inside the matrix and increase
    strictly along the row. *)
Theorem createCsrMatrix_valid (memspace_ : memory.MemorySpace) (n : Z) :
  11 ≤ n ≤ 2 ^ 27 →
  ∃ A, MatrixHandlerTests.createCsrMatrix memspace_ n = Done A
       ∧ csr_valid A ∧ n_ A = n ∧ m_ A = n
       ∧ ∀ i : nat, Z.of_nat i < n →
           segment (h_row_data_ A) (h_col_data_ A) (h_val_data_ A) i
           = zip (columns n (Z.of_nat i)) (sample (Z.of_nat i))
           ∧ StronglySorted Z.lt (columns n (Z.of_nat i)).
Proof.
  intros Hn.
  destruct (createCsrMatrix_arrays n Hn memspace_)
    as (A & Hrun & Hfmt & Hrows & Hcols & Hnnz & Hlen & Hrp & Hci & Hvs).
  exists A. split; [exact Hrun |]. split; [| split; [done | split; [done |]]].
  - split.
    + done.
    + rewrite Hrows, Hnnz. split; [done |]. split; [by apply Hrp; lia |].
      split; [by apply Hrp |].
      intros i a b Ha Hb.
      assert (S i ≤ Z.to_nat n)%nat as Hi.
      { apply lookup_lt_Some in Hb. lia. }
      rewrite Hrp in Ha, Hb by lia. simplify_eq.
      apply offset_mono. lia.
    + rewrite Hci, Hnnz, length_first_columns. unfold offset. lia.
    + rewrite Hvs, Hnnz. unfold offset. lia.
    + rewrite Hci, Hcols. unfold first_columns.
      apply Forall_forall. intros x Hx.
      apply list_elem_of_In, in_flat_map in Hx as (r & _ & Hx).
      apply list_elem_of_In in Hx. unfold columns in Hx.
      apply list_elem_of_fmap in Hx as (t & -> & Ht%elem_of_seq).
      apply column_range; [done | lia |]. unfold per_row. lia.
  - intros i Hi. split.
    + unfold segment, ptr_at. rewrite !Hrp by lia. simpl.
      rewrite Hci, Hvs, zip_first, <- !(length_zip_first n).
      apply (slice_blocks
               (λ r, zip (columns n (Z.of_nat r)) (sample (Z.of_nat r)))).
      lia.
    + unfold columns. apply StronglySorted_fmap_seq.
      intros t. apply column_step; [done | lia].
Qed.

Lemma createCsrMatrix_valid_witness :
  ∃ A, MatrixHandlerTests.createCsrMatrix memory.HOST 12 = Done A
       ∧ csr_valid A
       ∧ segment (h_row_data_ A) (h_col_data_ A) (h_val_data_ A) 2
         = [(0, fl 11); (4, fl 15); (8, fl 4)].
Proof.
  destruct (createCsrMatrix_valid memory.HOST 12) as (A & Hrun & Hv & _ & _ & Hrow);
    [lia |].
  exists A. split; [exact Hrun |]. split; [exact Hv |].
  destruct (Hrow 2%nat) as [Hseg _]; [lia |].
  rewrite Hseg. reflexivity.
Defined.

(** ** [createRectangularCscMatrix] and [createRectangularCsrMatrix] *)

Section Rectangular.
Import MatrixHandlerTests.
Variables k n m : Z.
Hypothesis n_range : 0 ≤ n ≤ 2 ^ 29.
Hypothesis m_range : 0 ≤ m ≤ 2 ^ 29.
Hypothesis k_dimension : n = m → k = m.

(** The indices stored under the major index [c]: the rows of column [c] of
    the CSC matrix, the columns of row [c] of the CSR matrix. *)
Definition entries (c : Z) : list Z :=
  if decide (n = m) then
    if decide (c = 0) then [0; m `div` 2] else [c - 1; c]
  else if decide (n > m) then
    (if decide (n - m ≤ c) then [c - n + m] else [])
    ++ (if decide (c < m) then [c] else [])
  else [c; c + m - n].

(** The entries of the first [c] segments, and their number. *)
Definition first_entries (c : nat) : list Z :=
  flat_map (λ j, entries (Z.of_nat j)) (seq 0 c).
Definition entry_offset (c : nat) : Z := Z.of_nat (length (first_entries c)).

(** The value of [counter] after [j] increments. *)
Definition counter_at (j : nat) : real_type := Nat.iter j real_incr real_one.

Lemma first_entries_S (c : nat) :
  first_entries (S c) = first_entries c ++ entries (Z.of_nat c).
Proof.
  unfold first_entries. rewrite seq_S, flat_map_app. simpl. by rewrite app_nil_r.
Qed.

Lemma entry_offset_S (c : nat) :
  entry_offset (S c)
  = entry_offset c + Z.of_nat (length (entries (Z.of_nat c))).
Proof. unfold entry_offset. rewrite first_entries_S, length_app. lia. Qed.

Lemma entry_offset_closed (c : nat) :
  entry_offset c
  = if decide (n = m) then 2 * Z.of_nat c
    else if decide (n > m)
         then Z.max 0 (Z.of_nat c - (n - m)) + Z.min (Z.of_nat c) m
         else 2 * Z.of_nat c.
Proof.
  induction c as [|c IH].
  - unfold entry_offset. simpl. repeat case_decide; lia.
  - rewrite entry_offset_S, IH. unfold entries.
    repeat case_decide; simpl; lia.
Qed.

Lemma entries_range (c : Z) :
  0 ≤ c < n → Forall (λ r, 0 ≤ r < m) (entries c).
Proof.
  intros Hc. unfold entries.
  assert (0 < m → 0 ≤ m `div` 2 < m) as Hhalf.
  { intros Hm. split; [apply Z.div_pos; lia |].
    apply Z.div_lt_upper_bound; lia. }
  repeat case_decide; simpl;
    repeat (apply Forall_cons; split); try apply Forall_nil; lia.
Qed.

(** The first [length rows] entries are written, and hold [rows] and the
    successive values of the counter. *)
Definition written (rows : list Z) (s : filling) : Prop :=
  length (fidx s) = Z.to_nat (2 * Z.min n m)
  ∧ length (fval s) = Z.to_nat (2 * Z.min n m)
  ∧ take (length rows) (fidx s) = rows
  ∧ take (length rows) (fval s) = counter_at <$> seq 0 (length rows)
  ∧ counter s = counter_at (length rows).

(** The first [c] pointers are set. *)
Definition pointers (c : nat) (s : filling) : Prop :=
  length (fptr s) = Z.to_nat (n + 1)
  ∧ ∀ j, (j ≤ c)%nat → fptr s !! j = Some (entry_offset j).

Lemma store_spec a r rows s :
  written rows s →
  a (fptr s) = Done (Z.of_nat (length rows)) →
  Z.of_nat (length rows) < 2 * Z.min n m →
  ∃ s', store a r s = Done s' ∧ fptr s' = fptr s ∧ written (rows ++ [r]) s'.
Proof.
  intros (L1 & L2 & Hi & Hv & Hc) Ha Hlt. unfold store. rewrite Ha. simpl.
  rewrite wr_Done by lia. simpl.
  rewrite wr_Done by lia. simpl.
  eexists. split; [reflexivity |]. split; [done |].
  unfold written. simpl. rewrite !length_insert, length_app. simpl.
  rewrite Nat2Z.id. replace (length rows + 1)%nat with (S (length rows)) by lia.
  split; [done |]. split; [done |]. split; [| split].
  - rewrite take_S_insert by lia. by rewrite Hi.
  - rewrite take_S_insert by lia. rewrite Hv, seq_S, fmap_app. simpl.
    by rewrite Hc.
  - by rewrite Hc.
Qed.

Lemma store_pair_spec (i : nat) r1 r2 rows s :
  written rows s →
  fptr s !! i = Some (Z.of_nat (length rows)) →
  Z.of_nat (length rows) + 1 < 2 * Z.min n m →
  ∃ s', (s1 ← store (λ ptr, rd ptr (Z.of_nat i)) r1 s;
         store (λ ptr, p ← rd ptr (Z.of_nat i); Done (int_add p 1)) r2 s1)
        = Done s'
        ∧ fptr s' = fptr s ∧ written (rows ++ [r1; r2]) s'.
Proof.
  intros Hw Hp Hlt.
  destruct (store_spec (λ ptr, rd ptr (Z.of_nat i)) r1 rows s Hw)
    as (s1 & -> & Hp1 & Hw1).
  { apply rd_Done; [lia | by rewrite Nat2Z.id]. }
  { lia. }
  simpl.
  destruct (store_spec (λ ptr, p ← rd ptr (Z.of_nat i); Done (int_add p 1))
              r2 (rows ++ [r1]) s1 Hw1)
    as (s2 & -> & Hp2 & Hw2).
  { rewrite Hp1. rewrite (rd_Done _ _ (Z.of_nat (length rows)));
      [| lia | by rewrite Nat2Z.id].
    simpl. rewrite int_add_exact by (unfold INT_MAX; lia).
    rewrite length_app. simpl. f_equal. lia. }
  { rewrite length_app. simpl. lia. }
  exists s2. split; [done |]. split; [congruence |].
  by rewrite <- app_assoc in Hw2.
Qed.

Lemma store_bump_spec (i : nat) r rows s :
  written rows s →
  fptr s !! S i = Some (Z.of_nat (length rows)) →
  Z.of_nat i < 2 ^ 29 →
  Z.of_nat (length rows) < 2 * Z.min n m →
  ∃ s', (s1 ← store (λ ptr, rd ptr (int_add (Z.of_nat i) 1)) r s;
         bump (Z.of_nat i) s1) = Done s'
        ∧ fptr s' = <[S i := Z.of_nat (length rows) + 1]> (fptr s)
        ∧ written (rows ++ [r]) s'.
Proof.
  intros Hw Hp Hi Hlt.
  assert (int_add (Z.of_nat i) 1 = Z.of_nat (S i)) as Hi1
    by (rewrite int_add_exact by (unfold INT_MAX; lia); lia).
  destruct (store_spec (λ ptr, rd ptr (int_add (Z.of_nat i) 1)) r rows s Hw)
    as (s1 & -> & Hp1 & Hw1).
  { rewrite Hi1. apply rd_Done; [lia | by rewrite Nat2Z.id]. }
  { lia. }
  simpl. unfold bump. rewrite Hi1, Hp1.
  rewrite (rd_Done _ _ (Z.of_nat (length rows)));
    [| lia | by rewrite Nat2Z.id].
  simpl. rewrite int_add_exact by (unfold INT_MAX; lia).
  apply lookup_lt_Some in Hp.
  rewrite wr_Done by lia. simpl. rewrite Nat2Z.id.
  eexists. split; [reflexivity |]. split; [done |].
  destruct Hw1 as (? & ? & ? & ? & ?). done.
Qed.

Lemma pointers_insert (i : nat) s pt :
  pointers i s → Z.of_nat i < n →
  pt = <[S i := entry_offset (S i)]> (fptr s) →
  length pt = Z.to_nat (n + 1)
  ∧ ∀ j, (j ≤ S i)%nat → pt !! j = Some (entry_offset j).
Proof.
  intros [Hl Hp] Hi ->. rewrite length_insert. split; [done |].
  intros j Hj. destruct (decide (j = S i)) as [->|Hne].
  - apply list_lookup_insert_eq. lia.
  - rewrite list_lookup_insert_ne by done. apply Hp. lia.
Qed.

Lemma entry_offset_bound (i : nat) :
  Z.of_nat i ≤ n → 0 ≤ entry_offset i ≤ 2 * Z.min n m.
Proof.
  intros Hi. rewrite entry_offset_closed. repeat case_decide; lia.
Qed.

Lemma fill_square_spec (i : nat) s :
  n = m → Z.of_nat i < n →
  pointers i s → written (first_entries i) s →
  ∃ s', fill_square k (Z.of_nat i) s = Done s'
        ∧ pointers (S i) s' ∧ written (first_entries (S i)) s'.
Proof.
  intros Hnm Hi Hp Hw. pose proof Hp as [Hl Hpt].
  pose proof (entry_offset_closed i) as Ho.
  pose proof (entry_offset_closed (S i)) as HoS.
  rewrite decide_True in Ho, HoS by done.
  unfold fill_square.
  rewrite (rd_Done _ _ (entry_offset i));
    [| lia | rewrite Nat2Z.id; apply Hpt; lia].
  simpl. rewrite !int_add_exact by (unfold INT_MAX; lia).
  rewrite wr_Done by lia. simpl.
  replace (Z.to_nat (Z.of_nat i + 1)) with (S i) by lia.
  replace (entry_offset i + 2) with (entry_offset (S i)) by lia.
  set (pt := <[S i := entry_offset (S i)]> (fptr s)).
  destruct (pointers_insert i s pt Hp Hi eq_refl) as [Hl1 Hpt1].
  set (s1 := mkFilling pt (fidx s) (fval s) (counter s)).
  assert (written (first_entries i) s1) as Hw1 by exact Hw.
  assert (fptr s1 !! i = Some (Z.of_nat (length (first_entries i)))) as Hp1.
  { simpl. apply Hpt1. lia. }
  assert (Z.of_nat (length (first_entries i)) + 1 < 2 * Z.min n m) as Hlt.
  { unfold entry_offset in Ho. lia. }
  rewrite first_entries_S. unfold entries.
  rewrite (decide_True (P := n = m)) by done.
  destruct (decide (Z.of_nat i = 0)) as [Hz|Hz].
  - rewrite k_dimension by done.
    rewrite int_div_nonneg by lia.
    destruct (store_pair_spec i (Z.of_nat i) (m `div` 2) _ s1 Hw1 Hp1 Hlt)
      as (s2 & Hrun & Hp2 & Hw2).
    destruct (store (λ ptr, rd ptr (Z.of_nat i)) (Z.of_nat i) s1)
      as [s1'| |] eqn:Hs1; [| done | done].
    simpl in Hrun |- *. rewrite Hrun.
    exists s2. split; [done |]. split.
    + unfold pointers. by rewrite Hp2.
    + by rewrite Hz in Hw2.
  - unfold int_sub. rewrite int_wrap_id by (unfold INT_MAX; lia).
    destruct (store_pair_spec i (Z.of_nat i - 1) (Z.of_nat i) _ s1 Hw1 Hp1 Hlt)
      as (s2 & Hrun & Hp2 & Hw2).
    rewrite Hrun.
    exists s2. split; [done |]. split; [| done].
    unfold pointers. by rewrite Hp2.
Qed.

Lemma fill_tall_spec (i : nat) s :
  n < m → Z.of_nat i < n →
  pointers i s → written (first_entries i) s →
  ∃ s', fill_tall n m (Z.of_nat i) s = Done s'
        ∧ pointers (S i) s' ∧ written (first_entries (S i)) s'.
Proof.
  intros Hnm Hi Hp Hw. pose proof Hp as [Hl Hpt].
  pose proof (entry_offset_closed i) as Ho.
  pose proof (entry_offset_closed (S i)) as HoS.
  rewrite decide_False, decide_False in Ho, HoS by lia.
  unfold fill_tall.
  rewrite (rd_Done _ _ (entry_offset i));
    [| lia | rewrite Nat2Z.id; apply Hpt; lia].
  simpl. rewrite !int_add_exact by (unfold INT_MAX; lia).
  rewrite wr_Done by lia. simpl.
  replace (Z.to_nat (Z.of_nat i + 1)) with (S i) by lia.
  replace (entry_offset i + 2) with (entry_offset (S i)) by lia.
  set (pt := <[S i := entry_offset (S i)]> (fptr s)).
  destruct (pointers_insert i s pt Hp Hi eq_refl) as [Hl1 Hpt1].
  set (s1 := mkFilling pt (fidx s) (fval s) (counter s)).
  assert (written (first_entries i) s1) as Hw1 by exact Hw.
  assert (fptr s1 !! i = Some (Z.of_nat (length (first_entries i)))) as Hp1.
  { simpl. apply Hpt1. lia. }
  assert (Z.of_nat (length (first_entries i)) + 1 < 2 * Z.min n m) as Hlt.
  { unfold entry_offset in Ho. lia. }
  rewrite first_entries_S. unfold entries.
  rewrite (decide_False (P := n = m)), (decide_False (P := n > m)) by lia.
  unfold int_sub. rewrite int_wrap_id by (unfold INT_MAX; lia).
  destruct (store_pair_spec i (Z.of_nat i) (Z.of_nat i + m - n) _ s1 Hw1 Hp1 Hlt)
    as (s2 & Hrun & Hp2 & Hw2).
  rewrite Hrun.
  exists s2. split; [done |]. split; [| done].
  unfold pointers. by rewrite Hp2.
Qed.

Lemma store_bump_if (P : Prop) `{!Decision P} (i : nat) r rows s :
  written rows s →
  fptr s !! S i = Some (Z.of_nat (length rows)) →
  Z.of_nat i < 2 ^ 29 →
  (P → Z.of_nat (length rows) < 2 * Z.min n m) →
  ∃ s', (if decide P
         then s1 ← store (λ ptr, rd ptr (int_add (Z.of_nat i) 1)) r s;
              bump (Z.of_nat i) s1
         else Done s) = Done s'
        ∧ fptr s'
          = <[S i := Z.of_nat (length (rows ++ if decide P then [r] else []))]>
              (fptr s)
        ∧ written (rows ++ if decide P then [r] else []) s'.
Proof.
  intros Hw Hp Hi Hlt. destruct (decide P) as [HP|HP].
  - destruct (store_bump_spec i r rows s Hw Hp Hi (Hlt HP))
      as (s' & Hrun & Hp' & Hw').
    exists s'. split; [done |]. split; [| done].
    rewrite Hp', length_app. simpl. f_equal. lia.
  - exists s. split; [done |]. rewrite app_nil_r. split; [| done].
    symmetry. by apply list_insert_id.
Qed.

Lemma fill_wide_spec (i : nat) s :
  n > m → Z.of_nat i < n →
  pointers i s → written (first_entries i) s →
  ∃ s', fill_wide n m (Z.of_nat i) s = Done s'
        ∧ pointers (S i) s' ∧ written (first_entries (S i)) s'.
Proof.
  intros Hnm Hi Hp Hw. pose proof Hp as [Hl Hpt].
  pose proof (entry_offset_bound i ltac:(lia)) as Hb.
  pose proof (entry_offset_bound (S i) ltac:(lia)) as HbS.
  pose proof (entry_offset_S i) as HS.
  assert (entries (Z.of_nat i)
          = (if decide (n - m ≤ Z.of_nat i) then [Z.of_nat i - n + m] else [])
            ++ (if decide (Z.of_nat i < m) then [Z.of_nat i] else [])) as He.
  { unfold entries.
    by rewrite (decide_False (P := n = m)), (decide_True (P := n > m)) by lia. }
  rewrite He, length_app in HS.
  unfold fill_wide.
  rewrite (rd_Done _ _ (entry_offset i));
    [| lia | rewrite Nat2Z.id; apply Hpt; lia].
  simpl. rewrite !int_add_exact by (unfold INT_MAX; lia).
  rewrite wr_Done by lia. simpl.
  replace (Z.to_nat (Z.of_nat i + 1)) with (S i) by lia.
  set (s1 := mkFilling (<[S i := entry_offset i]> (fptr s)) (fidx s) (fval s)
               (counter s)).
  assert (written (first_entries i) s1) as Hw1 by exact Hw.
  assert (fptr s1 !! S i = Some (Z.of_nat (length (first_entries i)))) as Hp1.
  { simpl. apply list_lookup_insert_eq. lia. }
  unfold int_sub. rewrite !int_wrap_id by (unfold INT_MAX; lia).
  rewrite int_add_exact by (unfold INT_MAX; lia).
  replace (Z.of_nat i + 1) with (int_add (Z.of_nat i) 1)
    by (rewrite int_add_exact by (unfold INT_MAX; lia); done).
  destruct (store_bump_if (n - m ≤ Z.of_nat i) i (Z.of_nat i - n + m)
              (first_entries i) s1 Hw1 Hp1 ltac:(lia))
    as (s2 & -> & Hp2 & Hw2).
  { intros HP. fold (entry_offset i). rewrite decide_True in HS by done.
    simpl in HS. lia. }
  simpl.
  set (rows2 := first_entries i
                ++ (if decide (n - m ≤ Z.of_nat i)
                    then [Z.of_nat i - n + m] else [])) in *.
  assert (fptr s2 !! S i = Some (Z.of_nat (length rows2))) as Hp2'.
  { rewrite Hp2. apply list_lookup_insert_eq. simpl. rewrite length_insert. lia. }
  destruct (store_bump_if (Z.of_nat i < m) i (Z.of_nat i) rows2 s2 Hw2 Hp2'
              ltac:(lia))
    as (s3 & -> & Hp3 & Hw3).
  { intros HP. unfold rows2. rewrite length_app.
    rewrite (decide_True (P := Z.of_nat i < m)) in HS by done.
    unfold entry_offset in HS, HbS. simpl in HS. lia. }
  exists s3. split; [done |].
  rewrite first_entries_S, He, app_assoc. fold rows2. split; [| done].
  unfold pointers. rewrite Hp3, Hp2. simpl. rewrite !list_insert_insert_eq.
  apply (pointers_insert i s); [done | done |].
  unfold entry_offset. by rewrite first_entries_S, He, app_assoc.
Qed.

(** The arrays that the three branches leave. *)
Lemma fill_rectangular_spec (s : filling) :
  length (fptr s) = Z.to_nat (n + 1) →
  fptr s !! 0%nat = Some 0 →
  length (fidx s) = Z.to_nat (2 * Z.min n m) →
  length (fval s) = Z.to_nat (2 * Z.min n m) →
  counter s = real_one →
  ∃ s', fill_rectangular k n m s = Done s'
        ∧ length (fptr s') = Z.to_nat (n + 1)
        ∧ (∀ j, (j ≤ Z.to_nat n)%nat → fptr s' !! j = Some (entry_offset j))
        ∧ entry_offset (Z.to_nat n) = 2 * Z.min n m
        ∧ fidx s' = first_entries (Z.to_nat n)
        ∧ fval s' = counter_at <$> seq 0 (Z.to_nat (2 * Z.min n m)).
Proof.
  intros Hl H0 Hli Hlv Hc.
  assert (entry_offset (Z.to_nat n) = 2 * Z.min n m) as Hn.
  { rewrite entry_offset_closed. repeat case_decide; lia. }
  assert (∀ body,
            (∀ i s, Z.of_nat i < n → pointers i s →
                    written (first_entries i) s →
                    ∃ s', body (Z.of_nat i) s = Done s'
                          ∧ pointers (S i) s'
                          ∧ written (first_entries (S i)) s') →
            ∃ s', for_range 0 n body s = Done s'
                  ∧ pointers (Z.to_nat n) s'
                  ∧ written (first_entries (Z.to_nat n)) s') as Hloop.
  { intros body Hbody.
    destruct (for_range_inv
                (λ i s, 0 ≤ i ∧ pointers (Z.to_nat i) s
                        ∧ written (first_entries (Z.to_nat i)) s)
                0 n body s) as (s' & Hrun & _ & Hp & Hw).
    - lia.
    - split; [done |]. split.
      + split; [done |]. intros j Hj. by replace j with 0%nat by lia.
      + unfold written. simpl. by rewrite !take_0.
    - intros j s1 Hj (_ & Hp1 & Hw1).
      destruct (Hbody (Z.to_nat j) s1) as (s2 & Hrun & Hp2 & Hw2);
        [lia | done | done |].
      rewrite Z2Nat.id in Hrun by lia.
      exists s2. split; [done |]. split; [lia |].
      by replace (Z.to_nat (j + 1)) with (S (Z.to_nat j)) by lia.
    - by exists s'. }
  assert (∃ s', fill_rectangular k n m s = Done s'
                ∧ pointers (Z.to_nat n) s'
                ∧ written (first_entries (Z.to_nat n)) s')
    as (s' & Hrun & [Hl' Hp'] & (Hli' & Hlv' & Hi' & Hv' & _)).
  { unfold fill_rectangular. repeat case_decide.
    - apply Hloop. intros. by apply fill_square_spec.
    - apply Hloop. intros. by apply fill_wide_spec.
    - apply Hloop. intros. apply fill_tall_spec; (done || lia). }
  exists s'. split; [done |]. split; [done |]. split; [done |].
  split; [done |].
  fold (entry_offset (Z.to_nat n)) in Hi', Hv'.
  unfold entry_offset in Hn.
  rewrite take_ge in Hi' by lia. rewrite take_ge in Hv' by lia.
  split; [done |]. rewrite Hv'. f_equal. f_equal. lia.
Qed.

End Rectangular.

Section RectangularArrays.
Variables n m : Z.
Hypothesis n_range : 0 ≤ n ≤ 2 ^ 29.
Hypothesis m_range : 0 ≤ m ≤ 2 ^ 29.
Variables (ptr idx : list Z) (vals : list real_type).
Hypothesis ptr_length : length ptr = Z.to_nat (n + 1).
Hypothesis ptr_offsets :
  ∀ j, (j ≤ Z.to_nat n)%nat → ptr !! j = Some (entry_offset n m j).
Hypothesis offset_last : entry_offset n m (Z.to_nat n) = 2 * Z.min n m.
Hypothesis idx_entries : idx = first_entries n m (Z.to_nat n).
Hypothesis vals_counter :
  vals = counter_at <$> seq 0 (Z.to_nat (2 * Z.min n m)).

Lemma rectangular_ptr_valid : ptr_valid ptr n (2 * Z.min n m).
Proof.
  split; [done |]. split; [by apply ptr_offsets; lia |].
  split; [rewrite <- offset_last; by apply ptr_offsets |].
  intros i a b Ha Hb.
  assert (S i ≤ Z.to_nat n)%nat as Hi.
  { apply lookup_lt_Some in Hb. lia. }
  rewrite ptr_offsets in Ha, Hb by lia. simplify_eq.
  rewrite entry_offset_S. lia.
Qed.

Lemma rectangular_idx_length : length idx = Z.to_nat (2 * Z.min n m).
Proof.
  rewrite idx_entries. unfold entry_offset in offset_last. lia.
Qed.

Lemma rectangular_vals_length : length vals = Z.to_nat (2 * Z.min n m).
Proof. by rewrite vals_counter, length_fmap, length_seq. Qed.

Lemma rectangular_idx_range : Forall (λ r, 0 ≤ r < m) idx.
Proof.
  rewrite idx_entries.
  assert (∀ c : nat, Z.of_nat c ≤ n →
            Forall (λ r, 0 ≤ r < m) (first_entries n m c)) as H.
  { induction c as [|c IH]; intros Hc; [by apply Forall_nil |].
    rewrite first_entries_S. apply Forall_app. split; [apply IH; lia |].
    apply entries_range; lia. }
  apply H. lia.
Qed.

Lemma rectangular_segment (c : nat) :
  Z.of_nat c < n → (segment ptr idx vals c).*1 = entries n m (Z.of_nat c).
Proof.
  intros Hc. unfold segment, ptr_at.
  rewrite !ptr_offsets by lia. simpl. unfold slice.
  rewrite fmap_take, fmap_drop, fst_zip
    by (rewrite rectangular_idx_length, rectangular_vals_length; lia).
  rewrite idx_entries.
  apply (slice_blocks (λ j, entries n m (Z.of_nat j)) (Z.to_nat n) c). lia.
Qed.

End RectangularArrays.

(** X22. For 0 <= n, m <= 2^29, [createRectangularCscMatrix(n, m)] returns
    a valid CSC matrix with m rows, n columns and 2 min(n, m) nonzeros.
    Column c holds, in this order, rows 0 and m/2 (c = 0) or c-1 and c when
    n = m; row c-n+m (if c >= n-m) and row c (if c < m) when n > m; rows c
    and c+m-n when n < m.  The values are the successive values of the
    counter that starts at 1.0. *)
Theorem createRectangularCscMatrix_valid
    (memspace_ : memory.MemorySpace) (n m : Z) :
  0 ≤ n ≤ 2 ^ 29 → 0 ≤ m ≤ 2 ^ 29 →
  ∃ A, MatrixHandlerTests.createRectangularCscMatrix memspace_ n m = Done A
       ∧ csc_valid A ∧ n_ A = m ∧ m_ A = n ∧ nnz_ A = 2 * Z.min n m
       ∧ h_val_data_ A = counter_at <$> seq 0 (Z.to_nat (2 * Z.min n m))
       ∧ ∀ c : nat, Z.of_nat c < n →
           (segment (h_col_data_ A) (h_row_data_ A) (h_val_data_ A) c).*1
           = entries n m (Z.of_nat c).
Proof.
  intros Hn Hm. unfold MatrixHandlerTests.createRectangularCscMatrix.
  unfold int_mul. rewrite int_wrap_id by (unfold INT_MAX; lia). simpl.
  rewrite wr_Done by (rewrite length_resize; lia). simpl.
  destruct (fill_rectangular_spec m n m Hn Hm ltac:(done)
              (MatrixHandlerTests.mkFilling
                 (<[0%nat := 0]> (resize (Z.to_nat (n + 1)) 0 []))
                 (resize (Z.to_nat (2 * Z.min n m)) 0 [])
                 (resize (Z.to_nat (2 * Z.min n m)) real_zero [])
                 MatrixHandlerTests.real_one))
    as (s & Hrun & Hl & Hp & Hlast & Hi & Hv).
  { simpl. rewrite length_insert, length_resize. done. }
  { simpl. apply list_lookup_insert_eq. rewrite length_resize. lia. }
  { simpl. by rewrite length_resize. }
  { simpl. by rewrite length_resize. }
  { done. }
  change (Z.to_nat 0) with 0%nat. rewrite Hrun. simpl.
  assert (ptr_valid (MatrixHandlerTests.fptr s) n (2 * Z.min n m)) as Hpv
    by (eapply (rectangular_ptr_valid n m); eassumption).
  assert (length (MatrixHandlerTests.fidx s) = Z.to_nat (2 * Z.min n m))
    as Hil by (eapply (rectangular_idx_length n m); eassumption).
  assert (length (MatrixHandlerTests.fval s) = Z.to_nat (2 * Z.min n m))
    as Hvl by (eapply (rectangular_vals_length n m); eassumption).
  assert (Forall (λ r, 0 ≤ r < m) (MatrixHandlerTests.fidx s)) as Hir
    by (eapply (rectangular_idx_range n m); eassumption).
  assert (∀ c : nat, Z.of_nat c < n →
            (segment (MatrixHandlerTests.fptr s) (MatrixHandlerTests.fidx s)
               (MatrixHandlerTests.fval s) c).*1 = entries n m (Z.of_nat c))
    as Hseg by (intros c Hc; eapply (rectangular_segment n m); eassumption).
  destruct memspace_; eexists; (split; [reflexivity |]); simpl;
    (split; [split; simpl; (done || (unfold INT_MAX; lia)) |]);
    repeat (split; [done |]); exact Hseg.
Qed.

Lemma createRectangularCscMatrix_valid_witness :
  ∃ A, MatrixHandlerTests.createRectangularCscMatrix memory.HOST 4 2 = Done A
       ∧ csc_valid A ∧ n_ A = 2 ∧ m_ A = 4
       ∧ (segment (h_col_data_ A) (h_row_data_ A) (h_val_data_ A) 2).*1 = [0].
Proof.
  destruct (createRectangularCscMatrix_valid memory.HOST 4 2)
    as (A & Hrun & Hv & Hr & Hc & _ & _ & Hseg); [lia | lia |].
  exists A. split; [exact Hrun |]. split; [exact Hv |].
  split; [exact Hr |]. split; [exact Hc |].
  exact (Hseg 2%nat ltac:(lia)).
Defined.

(** X23. For 0 <= n, m <= 2^29, [createRectangularCsrMatrix(n, m)] returns
    a valid CSR matrix with n rows, m columns and 2 min(n, m) nonzeros.
    Row r holds, in this order, columns 0 and n/2 (r = 0) or r-1 and r when
    n = m; column r-n+m (if r >= n-m) and column r (if r < m) when n > m;
    columns r and r+m-n when n < m.  The values are the successive values
    of the counter that starts at 1.0. *)
Theorem createRectangularCsrMatrix_valid
    (memspace_ : memory.MemorySpace) (n m : Z) :
  0 ≤ n ≤ 2 ^ 29 → 0 ≤ m ≤ 2 ^ 29 →
  ∃ B, MatrixHandlerTests.createRectangularCsrMatrix memspace_ n m = Done B
       ∧ csr_valid B ∧ n_ B = n ∧ m_ B = m ∧ nnz_ B = 2 * Z.min n m
       ∧ h_val_data_ B = counter_at <$> seq 0 (Z.to_nat (2 * Z.min n m))
       ∧ ∀ r : nat, Z.of_nat r < n →
           (segment (h_row_data_ B) (h_col_data_ B) (h_val_data_ B) r).*1
           = entries n m (Z.of_nat r).
Proof.
  intros Hn Hm. unfold MatrixHandlerTests.createRectangularCsrMatrix.
  unfold int_mul. rewrite int_wrap_id by (unfold INT_MAX; lia). simpl.
  rewrite wr_Done by (rewrite length_resize; lia). simpl.
  destruct (fill_rectangular_spec n n m Hn Hm ltac:(done)
              (MatrixHandlerTests.mkFilling
                 (<[0%nat := 0]> (resize (Z.to_nat (n + 1)) 0 []))
                 (resize (Z.to_nat (2 * Z.min n m)) 0 [])
                 (resize (Z.to_nat (2 * Z.min n m)) real_zero [])
                 MatrixHandlerTests.real_one))
    as (s & Hrun & Hl & Hp & Hlast & Hi & Hv).
  { simpl. rewrite length_insert, length_resize. done. }
  { simpl. apply list_lookup_insert_eq. rewrite length_resize. lia. }
  { simpl. by rewrite length_resize. }
  { simpl. by rewrite length_resize. }
  { done. }
  change (Z.to_nat 0) with 0%nat. rewrite Hrun. simpl.
  assert (ptr_valid (MatrixHandlerTests.fptr s) n (2 * Z.min n m)) as Hpv
    by (eapply (rectangular_ptr_valid n m); eassumption).
  assert (length (MatrixHandlerTests.fidx s) = Z.to_nat (2 * Z.min n m))
    as Hil by (eapply (rectangular_idx_length n m); eassumption).
  assert (length (MatrixHandlerTests.fval s) = Z.to_nat (2 * Z.min n m))
    as Hvl by (eapply (rectangular_vals_length n m); eassumption).
  assert (Forall (λ r, 0 ≤ r < m) (MatrixHandlerTests.fidx s)) as Hir
    by (eapply (rectangular_idx_range n m); eassumption).
  assert (∀ c : nat, Z.of_nat c < n →
            (segment (MatrixHandlerTests.fptr s) (MatrixHandlerTests.fidx s)
               (MatrixHandlerTests.fval s) c).*1 = entries n m (Z.of_nat c))
    as Hseg by (intros c Hc; eapply (rectangular_segment n m); eassumption).
  destruct memspace_; eexists; (split; [reflexivity |]); simpl;
    (split; [split; simpl; done |]);
    repeat (split; [done |]); exact Hseg.
Qed.

Lemma createRectangularCsrMatrix_valid_witness :
  ∃ B, MatrixHandlerTests.createRectangularCsrMatrix memory.DEVICE 3 3 = Done B
       ∧ csr_valid B ∧ n_ B = 3 ∧ m_ B = 3
       ∧ (segment (h_row_data_ B) (h_col_data_ B) (h_val_data_ B) 0).*1 = [0; 1].
Proof.
  destruct (createRectangularCsrMatrix_valid memory.DEVICE 3 3)
    as (B & Hrun & Hv & Hr & Hc & _ & _ & Hseg); [lia | lia |].
  exists B. split; [exact Hrun |]. split; [exact Hv |].
  split; [exact Hr |]. split; [exact Hc |].
  exact (Hseg 0%nat ltac:(lia)).
Defined.
